(** * Asistenku: response validation and voice formatting

    A shallow embedding of the response validator / retry controller of
    [src/utils/api.ts] (class [APIClient]) and of the speech sanitizer
    of [utils/voiceformatter.ts] (class [VoiceFormatter]), together with
    the properties the specification states about them.

    JavaScript strings are sequences of UTF-16 code units; they are
    modelled as [list N].  The regular expressions of the sources are
    kept as syntax trees and run by a backtracking matcher that follows
    the ECMAScript matching rules for the constructs the sources use. *)

From Stdlib Require Import List NArith ZArith Bool Lia String Ascii PeanoNat.
From Stdlib Require Import SpecFloat DecimalString.
Import ListNotations.

Set Implicit Arguments.

(** ** JavaScript strings *)

Module JS.

Definition jsstring := list N.

(** A Rocq string literal (ASCII) read as a sequence of code units. *)
Definition js (s : string) : jsstring :=
  List.map N_of_ascii (list_ascii_of_string s).

Definition in_range (lo hi c : N) : bool := (lo <=? c)%N && (c <=? hi)%N.

(** ECMAScript LineTerminator: LF, CR, LS, PS. *)
Definition isLineTerminator (c : N) : bool :=
  (c =? 10)%N || (c =? 13)%N || (c =? 0x2028)%N || (c =? 0x2029)%N.

(** ECMAScript WhiteSpace or LineTerminator: what [\s] matches and what
    [String.prototype.trim] strips. *)
Definition isSpace (c : N) : bool :=
  in_range 9 13 c || (c =? 32)%N || (c =? 0xA0)%N || (c =? 0x1680)%N
  || in_range 0x2000 0x200A c || (c =? 0x2028)%N || (c =? 0x2029)%N
  || (c =? 0x202F)%N || (c =? 0x205F)%N || (c =? 0x3000)%N
  || (c =? 0xFEFF)%N.

Definition isDigit (c : N) : bool := in_range 48 57 c.

(** [\w] without the [u] flag: [A-Za-z0-9_]. *)
Definition isWordChar (c : N) : bool :=
  in_range 65 90 c || in_range 97 122 c || isDigit c || (c =? 95)%N.

Fixpoint trimStart (s : jsstring) : jsstring :=
  match s with
  | c :: s' => if isSpace c then trimStart s' else s
  | [] => []
  end.

Definition trimEnd (s : jsstring) : jsstring := rev (trimStart (rev s)).

Definition trim (s : jsstring) : jsstring := trimEnd (trimStart s).

Definition eqb (a b : jsstring) : bool :=
  if list_eq_dec N.eq_dec a b then true else false.

(** A string is falsy exactly when it is empty. *)
Definition isEmpty (s : jsstring) : bool :=
  match s with [] => true | _ => false end.

Fixpoint startsWith (p s : jsstring) : bool :=
  match p, s with
  | [], _ => true
  | a :: p', b :: s' => (a =? b)%N && startsWith p' s'
  | _ :: _, [] => false
  end.

(** [s.lastIndexOf(p)]: the largest index at which [p] occurs, [-1] when
    there is none. *)
Fixpoint lastIndexOf_from (p s : jsstring) (i : Z) : Z :=
  match s with
  | [] => if startsWith p [] then i else (-1)%Z
  | _ :: s' =>
      let later := lastIndexOf_from p s' (i + 1)%Z in
      if (0 <=? later)%Z then later
      else if startsWith p s then i else (-1)%Z
  end.

Definition lastIndexOf (s p : jsstring) : Z := lastIndexOf_from p s 0%Z.

(** [s.substring(0, n)]; a negative end is clamped to [0]. *)
Definition substring0 (s : jsstring) (n : Z) : jsstring :=
  firstn (Z.to_nat n) s.

(** [s.split(" ")] for a one-unit separator. *)
Fixpoint split_on (sep : N) (cur : jsstring) (s : jsstring)
  : list jsstring :=
  match s with
  | [] => [rev cur]
  | c :: s' =>
      if (c =? sep)%N then rev cur :: split_on sep [] s'
      else split_on sep (c :: cur) s'
  end.

Definition split (s : jsstring) (sep : N) : list jsstring :=
  split_on sep [] s.

Definition len (s : jsstring) : Z := Z.of_nat (List.length s).

End JS.

(** ** Regular expressions

    The syntax covers what the patterns of the two source files use:
    literals, character classes, [.], sequence, alternation, quantifiers
    (every quantifier of the sources applies to a single character or
    class), one capturing group, [^], [$], [\b] and positive lookahead,
    under the flags [i], [m] and [u]. *)

Module Regex.
Import JS.

Record flags := mkFlags
  { ignoreCase : bool; multiline : bool; unicode : bool }.

Inductive citem :=
| CChar (c : N)
| CRange (lo hi : N)
| CSpace            (* \s *)
| CNotSpace         (* \S *)
| CWord             (* \w *)
| CDigit.           (* \d *)

Inductive atom :=
| AChar (c : N)
| ADot
| AClass (neg : bool) (items : list citem).

Inductive regex :=
| Empty
| Lit (s : jsstring)
| Atom (a : atom)
| Seq (r1 r2 : regex)
| Alt (r1 r2 : regex)
| Rep (greedy : bool) (min : nat) (max : option nat) (a : atom)
| Group (r : regex)
| Bol
| Eol
| WordBoundary
| LookAhead (r : regex).

(** *** Characters *)

Definition toUpperAscii (c : N) : N :=
  if in_range 97 122 c then (c - 32)%N else c.

Definition toLowerAscii (c : N) : N :=
  if in_range 65 90 c then (c + 32)%N else c.

(** Canonicalize of the ECMAScript specification.  Without the [u] flag
    a character outside ASCII never canonicalizes to an ASCII one, and
    every character written in the patterns of the sources under [i]
    is ASCII, so upper-casing the ASCII letters decides every
    comparison the matcher makes. *)
Definition canon (fl : flags) (c : N) : N :=
  if ignoreCase fl then toUpperAscii c else c.

Definition item_match (fl : flags) (ch : N) (it : citem) : bool :=
  match it with
  | CChar c => (canon fl ch =? canon fl c)%N
  | CRange lo hi =>
      if ignoreCase fl
      then in_range lo hi (toUpperAscii ch) || in_range lo hi (toLowerAscii ch)
      else in_range lo hi ch
  | CSpace => isSpace ch
  | CNotSpace => negb (isSpace ch)
  | CWord => isWordChar ch
  | CDigit => isDigit ch
  end.

Definition atom_match (fl : flags) (a : atom) (ch : N) : bool :=
  match a with
  | AChar c => (canon fl ch =? canon fl c)%N
  | ADot => negb (isLineTerminator ch)
  | AClass neg items => xorb neg (existsb (item_match fl ch) items)
  end.

Definition isHighSurrogate (c : N) : bool := in_range 0xD800 0xDBFF c.
Definition isLowSurrogate (c : N) : bool := in_range 0xDC00 0xDFFF c.

Definition codePoint (h l : N) : N :=
  (0x10000 + (h - 0xD800) * 0x400 + (l - 0xDC00))%N.

(** The character at the head of the input, with the number of code
    units it takes: a code point under [u], a code unit otherwise. *)
Definition next_char (fl : flags) (s : jsstring) : option (N * nat) :=
  match s with
  | [] => None
  | h :: t =>
      if unicode fl && isHighSurrogate h then
        match t with
        | l :: _ => if isLowSurrogate l then Some (codePoint h l, 2)
                    else Some (h, 1)
        | [] => Some (h, 1)
        end
      else Some (h, 1)
  end.

(** AdvanceStringIndex: how far the scan moves after a failed attempt or
    an empty match. *)
Definition advance (fl : flags) (s : jsstring) : nat :=
  match next_char fl s with Some (_, w) => w | None => 1 end.

(** *** Matcher state *)

Record mstate := mkState
  { st_prev : option N;          (* the code unit before the position *)
    st_rest : jsstring;          (* the input from the position on *)
    st_cap : option jsstring }.  (* what group 1 captured *)

Definition last_or (d : option N) (s : jsstring) : option N :=
  match rev s with c :: _ => Some c | [] => d end.

(** Move over the next [w] code units. *)
Definition consume (w : nat) (st : mstate) : mstate :=
  mkState (last_or (st_prev st) (firstn w (st_rest st)))
          (skipn w (st_rest st)) (st_cap st).

Definition step (fl : flags) (a : atom) (st : mstate) : option mstate :=
  match next_char fl (st_rest st) with
  | Some (ch, w) => if atom_match fl a ch then Some (consume w st) else None
  | None => None
  end.

Fixpoint lit_match (fl : flags) (p : jsstring) (st : mstate)
  : option mstate :=
  match p with
  | [] => Some st
  | c :: p' =>
      match step fl (AChar c) st with
      | Some st' => lit_match fl p' st'
      | None => None
      end
  end.

Definition at_bol (fl : flags) (st : mstate) : bool :=
  match st_prev st with
  | None => true
  | Some c => multiline fl && isLineTerminator c
  end.

Definition at_eol (fl : flags) (st : mstate) : bool :=
  match st_rest st with
  | [] => true
  | c :: _ => multiline fl && isLineTerminator c
  end.

Definition is_word (o : option N) : bool :=
  match o with Some c => isWordChar c | None => false end.

Definition at_word_boundary (st : mstate) : bool :=
  xorb (is_word (st_prev st)) (is_word (hd_error (st_rest st))).

(** *** Backtracking matcher *)

Definition cont := mstate -> option mstate.

Definition orelse (a : option mstate) (b : option mstate) : option mstate :=
  match a with Some _ => a | None => b end.

Definition max_done (mx : option nat) : bool :=
  match mx with Some O => true | _ => false end.

Definition max_pred (mx : option nat) : option nat :=
  match mx with Some n => Some (pred n) | None => None end.

(** RepeatMatcher for a one-character body: every iteration consumes
    input, so [fuel] above the length of the input is never used up. *)
Fixpoint rep (fl : flags) (a : atom) (greedy : bool) (k : cont)
         (fuel mn : nat) (mx : option nat) (st : mstate) {struct fuel}
  : option mstate :=
  match fuel with
  | O => match mn with O => k st | S _ => None end
  | S fuel' =>
      if max_done mx then k st else
      let more :=
        match step fl a st with
        | Some st' => rep fl a greedy k fuel' (pred mn) (max_pred mx) st'
        | None => None
        end in
      match mn with
      | S _ => more
      | O => if greedy then orelse more (k st) else orelse (k st) more
      end
  end.

Definition captured (st st' : mstate) : jsstring :=
  firstn (List.length (st_rest st) - List.length (st_rest st'))
         (st_rest st).

Fixpoint m (fl : flags) (r : regex) (k : cont) (st : mstate)
  : option mstate :=
  match r with
  | Empty => k st
  | Lit p =>
      match lit_match fl p st with Some st' => k st' | None => None end
  | Atom a =>
      match step fl a st with Some st' => k st' | None => None end
  | Seq r1 r2 => m fl r1 (m fl r2 k) st
  | Alt r1 r2 => orelse (m fl r1 k st) (m fl r2 k st)
  | Rep greedy mn mx a =>
      rep fl a greedy k (S (List.length (st_rest st))) mn mx st
  | Group r1 =>
      m fl r1
        (fun st' =>
           k (mkState (st_prev st') (st_rest st')
                      (Some (captured st st')))) st
  | Bol => if at_bol fl st then k st else None
  | Eol => if at_eol fl st then k st else None
  | WordBoundary => if at_word_boundary st then k st else None
  | LookAhead r1 =>
      match m fl r1 Some st with Some _ => k st | None => None end
  end.

(** One attempt at a position: the number of code units matched and the
    capture of group 1. *)
Definition exec_at (fl : flags) (r : regex) (prev : option N)
           (s : jsstring) : option (nat * option jsstring) :=
  match m fl r Some (mkState prev s None) with
  | Some st' => Some (List.length s - List.length (st_rest st'), st_cap st')
  | None => None
  end.

(** *** Scanning: [test], [match] with [g], [replace] with [g] *)

Inductive segment :=
| Kept (c : N)
| Found (matched : jsstring) (cap : option jsstring).

(** The left-to-right scan of a global regular expression.  [drop]
    units are still covered by the last match, [keep] units are skipped
    without an attempt (the second half of a code point under [u]). *)
Fixpoint scan (fl : flags) (r : regex) (drop keep : nat)
         (prev : option N) (s : jsstring) : list segment :=
  match s with
  | [] =>
      match drop, keep with
      | O, O =>
          match exec_at fl r prev [] with
          | Some (_, cap) => [Found [] cap]
          | None => []
          end
      | _, _ => []
      end
  | c :: s' =>
      match drop, keep with
      | S d, _ => scan fl r d keep (Some c) s'
      | O, S k => Kept c :: scan fl r 0 k (Some c) s'
      | O, O =>
          match exec_at fl r prev s with
          | Some (S n, cap) =>
              Found (firstn (S n) s) cap :: scan fl r n 0 (Some c) s'
          | Some (O, cap) =>
              Found [] cap :: Kept c
                :: scan fl r 0 (pred (advance fl s)) (Some c) s'
          | None =>
              Kept c :: scan fl r 0 (pred (advance fl s)) (Some c) s'
          end
      end
  end.

(** Replacement templates: literal text and [$1]. *)
Inductive rtok := RText (s : jsstring) | RGroup1.

Definition expand (tpl : list rtok) (cap : option jsstring) : jsstring :=
  flat_map (fun t => match t with
                     | RText s => s
                     | RGroup1 => match cap with Some c => c | None => [] end
                     end) tpl.

Definition render (tpl : list rtok) (sg : segment) : jsstring :=
  match sg with
  | Kept c => [c]
  | Found _ cap => expand tpl cap
  end.

(** [s.replace(/r/g, tpl)] *)
Definition replace (fl : flags) (r : regex) (tpl : list rtok)
           (s : jsstring) : jsstring :=
  flat_map (render tpl) (scan fl r 0 0 None s).

Definition is_found (sg : segment) : bool :=
  match sg with Found _ _ => true | Kept _ => false end.

(** [(s.match(/r/g) || []).length] *)
Definition match_count (fl : flags) (r : regex) (s : jsstring) : nat :=
  List.length (filter is_found (scan fl r 0 0 None s)).

(** [/r/.test(s)] *)
Definition test (fl : flags) (r : regex) (s : jsstring) : bool :=
  existsb is_found (scan fl r 0 0 None s).

(** [s.split(/r/)]: at each index from the end of the last separator on
    one attempt is made; an empty match at the start of the current
    piece is ignored, and no attempt is made at the end of the input. *)
Fixpoint split_go (fl : flags) (r : regex) (drop : nat)
         (prev : option N) (cur : jsstring) (s : jsstring)
  : list jsstring :=
  match s with
  | [] => [rev cur]
  | c :: s' =>
      match drop with
      | S d => split_go fl r d (Some c) cur s'
      | O =>
          match exec_at fl r prev s with
          | Some (S n, _) => rev cur :: split_go fl r n (Some c) [] s'
          | Some (O, _) =>
              match cur with
              | [] => split_go fl r 0 (Some c) [c] s'
              | _ => rev cur :: split_go fl r 0 (Some c) [c] s'
              end
          | None => split_go fl r 0 (Some c) (c :: cur) s'
          end
      end
  end.

Definition split (fl : flags) (r : regex) (s : jsstring) : list jsstring :=
  match s with
  | [] => match exec_at fl r None [] with Some _ => [] | None => [[]] end
  | _ => split_go fl r 0 None [] s
  end.

(** Notation-free helpers to write patterns. *)
Definition noflags := mkFlags false false false.
Definition fl_i := mkFlags true false false.
Definition fl_m := mkFlags false true false.
Definition fl_im := mkFlags true true false.
Definition fl_u := mkFlags false false true.

Definition star (a : atom) := Rep true 0 None a.
Definition lazy_star (a : atom) := Rep false 0 None a.
Definition plus (a : atom) := Rep true 1 None a.
Definition opt (a : atom) := Rep true 0 (Some 1) a.
Definition at_least (n : nat) (a : atom) := Rep true n None a.

Definition any : atom := AClass false [CSpace; CNotSpace].   (* [\s\S] *)
Definition space : atom := AClass false [CSpace].            (* \s *)
Definition digit : atom := AClass false [CDigit].            (* \d *)
Definition chars (s : string) : list citem := List.map CChar (js s).
Definition one_of (s : string) : atom := AClass false (chars s).
Definition none_of (s : string) : atom := AClass true (chars s).

Fixpoint seq (rs : list regex) : regex :=
  match rs with
  | [] => Empty
  | [r] => r
  | r :: rs' => Seq r (seq rs')
  end.

End Regex.

(** ** The speech sanitizer: [utils/voiceformatter.ts] *)

Module VoiceFormatter.
Import JS Regex.

(** [interface VoiceFormatterConfig]; the fields live in a module of
    their own because the class has methods of the same names. *)
Module Config.
Record t := mk
  { removeThinkTags : bool;
    removeMarkdown : bool;
    removeEmoticons : bool;
    normalizeNumbers : bool;
    normalizePunctuation : bool;
    maxLength : option Z;      (* [maxLength?: number], integral *)
    debug : bool }.
End Config.

Definition VoiceFormatterConfig := Config.t.

Definition DEFAULT_VOICE_CONFIG : VoiceFormatterConfig :=
  Config.mk true true true true true (Some 500%Z) false.

Definition LF : N := 10%N.
Definition DQUOTE : N := 34%N.

Definition del : list rtok := [].
Definition group1 : list rtok := [RGroup1].

(** *** [removeThinkTags] *)

(** [/<think>[\s\S]*?<\/think>/gi] *)
Definition think_block : regex :=
  seq [Lit (js "<think>"); lazy_star any; Lit (js "</think>")].

(** [/<think[^>]*>[\s\S]*?<\/think>/gi] *)
Definition think_block_attrs : regex :=
  seq [Lit (js "<think"); star (none_of ">"); Lit (js ">");
       lazy_star any; Lit (js "</think>")].

(** [/<think>[\s\S]*$/gi] *)
Definition think_unclosed : regex :=
  seq [Lit (js "<think>"); star any; Eol].

(** [/think[\s]*:[\s\S]*?(?=\n\n|$)/gi] *)
Definition think_colon : regex :=
  seq [Lit (js "think"); star space; Lit (js ":"); lazy_star any;
       LookAhead (Alt (Lit [LF; LF]) Eol)].

(** [/^think[\s\S]*?(?=\n[A-Z]|\n\n|$)/gim] *)
Definition think_line_start : regex :=
  seq [Bol; Lit (js "think"); lazy_star any;
       LookAhead (Alt (Seq (Lit [LF]) (Atom (AClass false [CRange 65 90])))
                      (Alt (Lit [LF; LF]) Eol))].

Definition thinkPatterns : list (flags * regex) :=
  [ (fl_i, think_block);
    (fl_i, think_block_attrs);
    (fl_i, think_unclosed);
    (fl_i, think_colon);
    (fl_im, think_line_start) ].

(** [/^.*?think.*?$/gim] *)
Definition line_with_think : regex :=
  seq [Bol; lazy_star ADot; Lit (js "think"); lazy_star ADot; Eol].

(** [/Okay,.*?Let me.*?$/gim] *)
Definition okay_let_me : regex :=
  seq [Lit (js "Okay,"); lazy_star ADot; Lit (js "Let me");
       lazy_star ADot; Eol].

(** [/I need to.*?$/gim] *)
Definition i_need_to : regex :=
  seq [Lit (js "I need to"); lazy_star ADot; Eol].

(** [/First,.*?Then,.*?$/gim] *)
Definition first_then : regex :=
  seq [Lit (js "First,"); lazy_star ADot; Lit (js "Then,");
       lazy_star ADot; Eol].

Definition removeThinkTags (text : jsstring) : jsstring :=
  if isEmpty text then text else
  let cleaned :=
    fold_left (fun cleaned p => replace (fst p) (snd p) del cleaned)
              thinkPatterns text in
  let cleaned := replace fl_im line_with_think del cleaned in
  let cleaned := replace fl_im okay_let_me del cleaned in
  let cleaned := replace fl_im i_need_to del cleaned in
  let cleaned := replace fl_im first_then del cleaned in
  cleaned.

(** *** [removeMarkdown] *)

Definition wrapped (open_ : string) (inner : string) (close_ : string)
  : regex :=
  seq [Lit (js open_); Group (plus (none_of inner)); Lit (js close_)].

Definition removeMarkdown (text : jsstring) : jsstring :=
  let cleaned := text in
  (* /```[\s\S]*?```/g *)
  let cleaned :=
    replace noflags (seq [Lit (js "```"); lazy_star any; Lit (js "```")])
            del cleaned in
  (* /`([^`]+)`/g, "$1" *)
  let cleaned := replace noflags (wrapped "`" "`" "`") group1 cleaned in
  (* /^#+\s+/gm *)
  let cleaned :=
    replace fl_m (seq [Bol; plus (AChar 35); plus space]) del cleaned in
  (* /\*\*([^*]+)\*\*/g, /\*([^*]+)\*/g, /__([^_]+)__/g, /_([^_]+)_/g *)
  let cleaned := replace noflags (wrapped "**" "*" "**") group1 cleaned in
  let cleaned := replace noflags (wrapped "*" "*" "*") group1 cleaned in
  let cleaned := replace noflags (wrapped "__" "_" "__") group1 cleaned in
  let cleaned := replace noflags (wrapped "_" "_" "_") group1 cleaned in
  (* /\[([^\]]+)\]\([^)]+\)/g, "$1" *)
  let cleaned :=
    replace noflags
            (seq [Lit (js "["); Group (plus (none_of "]")); Lit (js "](");
                  plus (none_of ")"); Lit (js ")")])
            group1 cleaned in
  (* /^[\s]*[-*+]\s+/gm *)
  let cleaned :=
    replace fl_m (seq [Bol; star space; Atom (one_of "-*+"); plus space])
            del cleaned in
  (* /^\d+\.\s+/gm *)
  let cleaned :=
    replace fl_m (seq [Bol; plus digit; Lit (js "."); plus space])
            del cleaned in
  (* /^>\s+/gm *)
  let cleaned :=
    replace fl_m (seq [Bol; Lit (js ">"); plus space]) del cleaned in
  cleaned.

(** *** [removeEmoticons] *)

Definition cp_range (lo hi : N) : regex :=
  Atom (AClass false [CRange lo hi]).

(** The emoji pattern, with the [u] flag: six code-point ranges. *)
Definition emoji : regex :=
  Alt (cp_range 0x1F600 0x1F64F)
 (Alt (cp_range 0x1F300 0x1F5FF)
 (Alt (cp_range 0x1F680 0x1F6FF)
 (Alt (cp_range 0x1F1E0 0x1F1FF)
 (Alt (cp_range 0x2600 0x26FF)
      (cp_range 0x2700 0x27BF))))).

(** [[)(\[\]{}|\\\/DPpoO@$*><^-]] *)
Definition mouth : atom := one_of ")([]{}|\/DPpoO@$*><^-".
(** [[:;=]] *)
Definition eyes : atom := one_of ":;=".

Definition removeEmoticons (text : jsstring) : jsstring :=
  let cleaned := replace fl_u emoji del text in
  let cleaned :=
    replace noflags (seq [Atom eyes; opt (AChar 45); Atom mouth])
            del cleaned in
  let cleaned :=
    replace noflags (seq [Atom mouth; opt (AChar 45); Atom eyes])
            del cleaned in
  cleaned.

(** *** [normalizeNumbers] *)

Definition normalizeNumbers (text : jsstring) : jsstring :=
  (* /(\d+)%/g, "$1 persen" *)
  let normalized :=
    replace noflags (seq [Group (plus digit); Lit (js "%")])
            [RGroup1; RText (js " persen")] text in
  (* /Rp\s?(\d+)/g, "$1 rupiah" *)
  let normalized :=
    replace noflags (seq [Lit (js "Rp"); opt space; Group (plus digit)])
            [RGroup1; RText (js " rupiah")] normalized in
  (* /\$(\d+)/g, "$1 dollar" *)
  let normalized :=
    replace noflags (seq [Lit (js "$"); Group (plus digit)])
            [RGroup1; RText (js " dollar")] normalized in
  normalized.

(** *** [normalizePunctuation] *)

Definition abbreviations : list (string * string) :=
  [ ("dll", "dan lain lain"); ("dsb", "dan sebagainya");
    ("dst", "dan seterusnya"); ("yg", "yang"); ("dgn", "dengan");
    ("utk", "untuk"); ("dr", "dari"); ("krn", "karena");
    ("tdk", "tidak"); ("blm", "belum"); ("sdh", "sudah");
    ("hrs", "harus"); ("kalo", "kalau") ]%string.

Definition normalizePunctuation (text : jsstring) : jsstring :=
  (* /[!]{2,}/g, /[?]{2,}/g, /[.]{3,}/g *)
  let normalized :=
    replace noflags (at_least 2 (one_of "!")) [RText (js "!")] text in
  let normalized :=
    replace noflags (at_least 2 (one_of "?")) [RText (js "?")] normalized in
  let normalized :=
    replace noflags (at_least 3 (one_of ".")) [RText (js "...")]
            normalized in
  (* new RegExp(`\\b${abbr}\\b`, "gi") for each entry, in order *)
  fold_left
    (fun normalized e =>
       replace fl_i (seq [WordBoundary; Lit (js (fst e)); WordBoundary])
               [RText (js (snd e))] normalized)
    abbreviations normalized.

(** *** [cleanupText] *)

Definition cleanupText (text : jsstring) : jsstring :=
  (* /\s+/g, " " and /\n+/g, " " *)
  let cleaned := replace noflags (plus space) [RText (js " ")] text in
  let cleaned :=
    replace noflags (plus (AChar LF)) [RText (js " ")] cleaned in
  (* /[#@$%^&*+=\[\]{}\\|<>]/g *)
  let cleaned :=
    replace noflags (Atom (one_of "#@$%^&*+=[]{}\|<>")) del cleaned in
  (* the quote class: double quote, apostrophe, backtick *)
  let cleaned :=
    replace noflags
            (Atom (AClass false [CChar DQUOTE; CChar 39; CChar DQUOTE;
                                 CChar DQUOTE; CChar 96]))
            del cleaned in
  (* /\([^)]*\)/g *)
  let cleaned :=
    replace noflags (seq [Lit (js "("); star (none_of ")"); Lit (js ")")])
            del cleaned in
  (* /https?:\/\/[^\s]+/g *)
  let cleaned :=
    replace noflags
            (seq [Lit (js "http"); opt (AChar 115); Lit (js "://");
                  plus (AClass true [CSpace])])
            del cleaned in
  (* /\s{2,}/g, " " *)
  let cleaned := replace noflags (at_least 2 space) [RText (js " ")] cleaned in
  cleaned.

(** *** [limitLength] *)

(** The [for ... of sentences] loop; [break] ends the recursion. *)
Fixpoint sentence_loop (maxLength : Z) (sentences : list jsstring)
         (result : jsstring) : jsstring :=
  match sentences with
  | [] => result
  | sentence :: rest =>
      let trimmedSentence := trim sentence in
      if isEmpty trimmedSentence then sentence_loop maxLength rest result
      else if (len (result ++ trimmedSentence ++ js ".") >? maxLength)%Z
           then result
           else sentence_loop maxLength rest
                  (result ++ (if isEmpty result then [] else js " ")
                          ++ trimmedSentence ++ js ".")
  end.

(** The [while (words.length > 0 && result.length < maxLength)] loop. *)
Fixpoint word_loop (maxLength : Z) (words : list jsstring)
         (result : jsstring) : jsstring :=
  match words with
  | [] => result
  | nextWord :: rest =>
      if (len result <? maxLength)%Z then
        if (len (result ++ js " " ++ nextWord) >? maxLength)%Z then result
        else word_loop maxLength rest
               (result ++ (if isEmpty result then [] else js " ")
                       ++ nextWord)
      else result
  end.

Definition limitLength (text : jsstring) (maxLength : Z) : jsstring :=
  if (len text <=? maxLength)%Z then text else
  (* text.split(/[.!?]+/) *)
  let sentences := Regex.split noflags (plus (one_of ".!?")) text in
  let result := sentence_loop maxLength sentences [] in
  let result :=
    if (len result =? 0)%Z
    then word_loop maxLength (JS.split text 32) result ++ js "."
    else result in
  if isEmpty result then substring0 text maxLength else result.

(** *** [formatForVoice] *)

Definition when (b : bool) (f : jsstring -> jsstring) (s : jsstring)
  : jsstring := if b then f s else s.

(** [if (this.config.maxLength)]: defined and not zero. *)
Definition truthy_length (o : option Z) : option Z :=
  match o with
  | Some n => if (n =? 0)%Z then None else Some n
  | None => None
  end.

Definition formatForVoice (config : VoiceFormatterConfig)
           (text : jsstring) : jsstring :=
  let formattedText := text in
  let formattedText :=
    when (Config.removeThinkTags config) removeThinkTags formattedText in
  let formattedText :=
    when (Config.removeMarkdown config) removeMarkdown formattedText in
  let formattedText :=
    when (Config.removeEmoticons config) removeEmoticons formattedText in
  let formattedText :=
    when (Config.normalizeNumbers config) normalizeNumbers formattedText in
  let formattedText :=
    when (Config.normalizePunctuation config) normalizePunctuation formattedText in
  let formattedText := cleanupText formattedText in
  let formattedText :=
    match truthy_length (Config.maxLength config) with
    | Some n => limitLength formattedText n
    | None => formattedText
    end in
  trim formattedText.

(** *** [isSuitableForVoice] *)

(** [formatted.replace(/[^\w\s.,!?]/g, "").length] *)
Definition readableChars (formatted : jsstring) : Z :=
  len (replace noflags
               (Atom (AClass true
                        ([CWord; CSpace] ++ chars ".,!?")))
               del formatted).

(** [readableChars / totalChars > 0.5]: both operands are string
    lengths, far below 2^53, where the rounded quotient exceeds one
    half exactly when twice the numerator exceeds the denominator. *)
Definition isSuitableForVoice (config : VoiceFormatterConfig)
           (text : jsstring) : bool :=
  let formatted := formatForVoice config text in
  if isEmpty (trim formatted) then false else
  let readable := readableChars formatted in
  let totalChars := len formatted in
  (totalChars >? 0)%Z && (2 * readable >? totalChars)%Z.

End VoiceFormatter.

(** The exported singleton and utility functions. *)

Definition voiceFormatter : VoiceFormatter.VoiceFormatterConfig :=
  VoiceFormatter.Config.mk true true true true true (Some 500%Z) true.

Definition isVoiceSuitable (text : JS.jsstring) : bool :=
  VoiceFormatter.isSuitableForVoice voiceFormatter text.

(** ** JavaScript numbers

    Numbers are IEEE 754 binary64 values, here the specification floats
    of the standard library at precision 53 and maximal exponent 1024. *)

Module Num.

Definition jsnum := spec_float.

Definition of_Z (z : Z) : jsnum := binary_normalize 53 1024 z 0 false.

(** The value of the decimal literal [n/d]: the quotient, rounded to
    nearest. *)
Definition dec (n d : Z) : jsnum := SFdiv 53 1024 (of_Z n) (of_Z d).

Definition isNaN (x : jsnum) : bool :=
  match x with S754_nan => true | _ => false end.

Definition ltb (x y : jsnum) : bool := SFltb x y.
Definition leb (x y : jsnum) : bool := SFleb x y.

(** [Math.max(a, b)]: [NaN] if either argument is; [+0] over [-0]. *)
Definition Math_max (a b : jsnum) : jsnum :=
  if isNaN a || isNaN b then S754_nan else
  match a, b with
  | S754_zero true, S754_zero false => b
  | _, _ => if ltb a b then b else a
  end.

(** [Math.min(a, b)]: [NaN] if either argument is; [-0] under [+0]. *)
Definition Math_min (a b : jsnum) : jsnum :=
  if isNaN a || isNaN b then S754_nan else
  match a, b with
  | S754_zero false, S754_zero true => b
  | _, _ => if ltb b a then b else a
  end.

(** The decimal rendering of a natural number, as in a template
    literal. *)
Definition show_N (n : N) : JS.jsstring :=
  JS.js (NilZero.string_of_uint (N.to_uint n)).

End Num.

(** ** The backend client: [utils/api.ts] *)

Module APIClient.
Import JS Regex Num.

Record AIConfig := mkAIConfig
  { model : jsstring;
    temperature : jsnum;
    maxTokens : jsnum;
    baseUrl : jsstring }.

Inductive Role := user | assistant | system.

Record ChatMessage := mkChatMessage
  { role : Role; content : jsstring; timestamp : Z }.

Record ChatResponse := mkChatResponse
  { message : jsstring; success : bool; error : option jsstring }.

(** The fields of [OllamaResponse] the client reads. *)
Record OllamaResponse := mkOllamaResponse
  { response : jsstring; done : bool; context : option (list Z) }.

(** The object state: [this.config] and [this.context]. *)
Record client := mkClient
  { this_config : AIConfig; this_context : list Z }.

(** *** Configuration *)

Definition validateConfig (config : AIConfig) : AIConfig :=
  mkAIConfig (model config)
             (Math_min (Math_max (temperature config) (dec 1 10)) (dec 12 10))
             (Math_max (maxTokens config) (of_Z 1500))
             (baseUrl config).

Definition constructor (config : AIConfig) : client :=
  mkClient (validateConfig config) [].

Definition updateConfig (this : client) (config : AIConfig) : client :=
  mkClient (validateConfig config) (this_context this).

Definition clearContext (this : client) : client :=
  mkClient (this_config this) [].

(** *** Prompts *)

Definition LF : N := 10%N.

Fixpoint unlines (ls : list string) : jsstring :=
  match ls with
  | [] => []
  | [l] => js l
  | l :: ls' => js l ++ [LF] ++ unlines ls'
  end.

Definition systemPrompt : jsstring :=
  unlines
    [ "Kamu adalah Asistenqu, asisten AI berbahasa Indonesia.";
      "";
      "ATURAN PENTING:";
      "1. WAJIB berbicara dalam bahasa Indonesia SAJA, jangan gunakan bahasa lain";
      "2. Jika perlu berpikir: <think>pemikiran dalam bahasa Indonesia</think>";
      "3. SELALU tutup tag </think> sebelum respons";
      "4. Respons maksimal 2-3 kalimat setelah </think>";
      "5. Gunakan gaya bicara natural dan ramah";
      "";
      "Contoh format yang benar:";
      "<think>Saya perlu menjawab pertanyaan user dengan ramah</think>";
      "Halo! Saya baik-baik saja, terima kasih sudah bertanya.";
      "";
      "Hindari:";
      "- Bahasa Inggris atau bahasa lain";
      "- Respons terlalu panjang";
      "- Tag <think> tidak ditutup";
      "";
      "Kamu sedang berbicara via voice call." ]%string.

(** [a.slice(-n)]: the last [n] elements. *)
Definition slice_last {A} (n : nat) (l : list A) : list A :=
  skipn (List.length l - n) l.

Definition buildStructuredPrompt (message : jsstring)
           (conversationHistory : list ChatMessage) : jsstring :=
  let prompt := systemPrompt ++ [LF; LF] in
  let recentHistory := slice_last 3 conversationHistory in
  let prompt :=
    fold_left
      (fun prompt msg =>
         match role msg with
         | user => prompt ++ js "User: " ++ content msg ++ [LF]
         | assistant => prompt ++ js "Asistenqu: " ++ content msg ++ [LF]
         | system => prompt
         end)
      recentHistory prompt in
  prompt ++ js "User: " ++ message ++ [LF] ++ js "Asistenqu: ".

Definition simplePrompt (message : jsstring) : jsstring :=
  js "Kamu adalah Asistenqu. Jawab HANYA dalam bahasa Indonesia, maksimal 2 kalimat, natural dan ramah."
     ++ [LF; LF] ++ js "User: " ++ message ++ [LF] ++ js "Asistenqu: ".

(** *** [validateResponse] *)

Record ValidationResult := mkValidation
  { isComplete : bool; cleaned : jsstring; issues : list jsstring }.

Definition INCOMPLETE_THINK : jsstring :=
  js "Incomplete <think> tags detected".
Definition NON_INDONESIAN : jsstring :=
  js "Contains non-Indonesian characters".
Definition TRUNCATED : jsstring :=
  js "Response appears to be truncated".
Definition CLARIFICATION : jsstring :=
  js "Maaf, bisa tolong ulangi pertanyaannya?".
Definition GREETING : jsstring :=
  js "Halo! Ada yang bisa saya bantu?".

Definition OPEN_TAG : jsstring := js "<think>".
Definition CLOSE_TAG : jsstring := js "</think>".

(** [(response.match(/<think>/g) || []).length] and the same for the
    closing tag. *)
Definition openThinkTags (response : jsstring) : nat :=
  match_count noflags (Lit OPEN_TAG) response.
Definition closeThinkTags (response : jsstring) : nat :=
  match_count noflags (Lit CLOSE_TAG) response.

(** [/[一-鿿]/] *)
Definition cjk : regex := Atom (AClass false [CRange 0x4E00 0x9FFF]).

(** [/[.!?。][\s]*$/.test(response.trim())] *)
Definition proper_ending : regex :=
  seq [Atom (AClass false (chars ".!?" ++ [CChar 0x3002])); star space; Eol].

Definition hasProperEnding (response : jsstring) : bool :=
  test noflags proper_ending (trim response).

(** The text kept before the fallback substitution. *)
Definition cleanedBeforeFallback (response : jsstring) : jsstring :=
  if (closeThinkTags response <? openThinkTags response)%nat then
    let lastOpenThink := lastIndexOf response OPEN_TAG in
    let lastCloseThink := lastIndexOf response CLOSE_TAG in
    if (lastOpenThink >? lastCloseThink)%Z
    then trim (substring0 response lastOpenThink)
    else trim response
  else trim response.

Definition pushIf {A} (b : bool) (x : A) (l : list A) : list A :=
  if b then l ++ [x] else l.

Definition validateResponse (response : jsstring) : ValidationResult :=
  let issues := [] in
  let openThinkTags := openThinkTags response in
  let closeThinkTags := closeThinkTags response in
  let issues :=
    pushIf (closeThinkTags <? openThinkTags)%nat INCOMPLETE_THINK issues in
  let cleaned := cleanedBeforeFallback response in
  let issues := pushIf (test noflags cjk response) NON_INDONESIAN issues in
  let hasProperEnding := hasProperEnding response in
  let hasThinkingComplete := (openThinkTags =? closeThinkTags)%nat in
  let issues :=
    pushIf ((len response >? 50)%Z && negb hasProperEnding
            && negb hasThinkingComplete) TRUNCATED issues in
  let cleaned :=
    if isEmpty cleaned || JS.eqb cleaned (js "Asistenqu:")
    then CLARIFICATION else cleaned in
  mkValidation (List.length issues =? 0)%nat cleaned issues.

Definition includes (l : list jsstring) (x : jsstring) : bool :=
  existsb (JS.eqb x) l.

(** *** Requests and the backend *)

Record Options := mkOptions
  { opt_temperature : jsnum;
    num_predict : jsnum;
    stop : list jsstring;
    top_k : jsnum;
    top_p : jsnum;
    repeat_penalty : option jsnum;
    seed : option Z }.

Record RequestBody := mkRequest
  { rq_url : jsstring;
    rq_model : jsstring;
    rq_prompt : jsstring;
    rq_stream : bool;
    rq_options : Options;
    rq_context : option (list Z) }.   (* [None]: no [context] field *)

(** What one [fetch] and the reading of its body can come to. *)
Inductive Outcome :=
| NetworkError (msg : jsstring)                (* [fetch] rejects *)
| HttpError (status : N) (errorText : jsstring)  (* [!response.ok] *)
| BadBody (msg : jsstring)                     (* [response.json()] rejects *)
| Json (data : OllamaResponse).

(** The world outside the client: the requests sent so far, the
    backend's answer to the n-th request, and the values
    [Math.floor(Math.random() * 1000000)] takes. *)
Record world := mkWorld
  { sent : list RequestBody;
    backend : nat -> RequestBody -> Outcome;
    random : nat -> Z }.

Definition fetch (w : world) (rq : RequestBody) : Outcome * world :=
  (backend w (List.length (sent w)) rq,
   mkWorld (sent w ++ [rq]) (backend w) (random w)).

Definition generate_url (this : client) : jsstring :=
  baseUrl (this_config this) ++ js "/api/generate".

Definition failure (msg : jsstring) : ChatResponse :=
  mkChatResponse [] false (Some msg).

(** *** [sendSimpleMessage] *)

Definition simpleRequest (this : client) (message : jsstring)
  : RequestBody :=
  mkRequest (generate_url this)
            (model (this_config this))
            (simplePrompt message)
            false
            (mkOptions (dec 7 10) (of_Z 200)
                       [js "User:"; LF :: js "User:"; js "user:";
                        LF :: js "user:"]
                       (of_Z 20) (dec 8 10) None None)
            None.

(** [cleanResponse] of [sendSimpleMessage]: the trimmed reply without
    CJK ideographs and without anything outside Latin-1. *)
Definition cleanSimpleResponse (raw : jsstring) : jsstring :=
  let cleanResponse := trim raw in
  let cleanResponse := replace noflags cjk [] cleanResponse in
  let cleanResponse :=
    replace noflags
            (Atom (AClass true [CRange 0 0x7F; CRange 0xA0 0xFF;
                                CRange 0xC0 0xFF]))
            [] cleanResponse in
  if isEmpty cleanResponse then GREETING else cleanResponse.

Definition simpleFailure (msg : jsstring) : ChatResponse :=
  mkChatResponse GREETING false (Some msg).

Definition sendSimpleMessage (this : client) (w : world)
           (message : jsstring) (conversationHistory : list ChatMessage)
  : ChatResponse * client * world :=
  let '(out, w) := fetch w (simpleRequest this message) in
  match out with
  | NetworkError msg => (simpleFailure msg, this, w)
  | HttpError status _ =>
      (simpleFailure (js "HTTP " ++ show_N status), this, w)
  | BadBody msg => (simpleFailure msg, this, w)
  | Json data =>
      (mkChatResponse (cleanSimpleResponse (response data)) true None,
       this, w)
  end.

(** *** [sendMessage] *)

Definition primaryRequest (this : client) (seed : Z) (message : jsstring)
           (conversationHistory : list ChatMessage) : RequestBody :=
  mkRequest (generate_url this)
            (model (this_config this))
            (buildStructuredPrompt message conversationHistory)
            false
            (mkOptions (temperature (this_config this))
                       (maxTokens (this_config this))
                       [js "User:"; LF :: js "User:"; js "Human:";
                        LF :: js "Human:"; js "user:"; LF :: js "user:"]
                       (of_Z 40) (dec 9 10) (Some (dec 11 10)) (Some seed))
            (match this_context this with
             | [] => None
             | ctx => Some ctx
             end).

(** [if (data.context) this.context = data.context] *)
Definition updateContext (this : client) (data : OllamaResponse) : client :=
  match context data with
  | Some ctx => mkClient (this_config this) ctx
  | None => this
  end.

Definition seriousIssues (validation : ValidationResult) : bool :=
  negb (isComplete validation)
  && (includes (issues validation) INCOMPLETE_THINK
      || includes (issues validation) NON_INDONESIAN).

Definition sendMessage (this : client) (w : world)
           (message : jsstring) (conversationHistory : list ChatMessage)
  : ChatResponse * client * world :=
  let seed := random w (List.length (sent w)) in
  let '(out, w) :=
    fetch w (primaryRequest this seed message conversationHistory) in
  match out with
  | NetworkError msg => (failure msg, this, w)
  | HttpError status errorText =>
      (failure (js "HTTP " ++ show_N status ++ js ": " ++ errorText),
       this, w)
  | BadBody msg => (failure msg, this, w)
  | Json data =>
      let validation := validateResponse (response data) in
      let this := updateContext this data in
      if seriousIssues validation
      then sendSimpleMessage this w message conversationHistory
      else (mkChatResponse (cleaned validation) true None, this, w)
  end.

End APIClient.

(** ** What a pattern matches

    The matcher is a program; [matches] says which stretches of input a
    pattern can cover, without the order in which the matcher tries
    them. *)

Module RegexSem.
Import JS Regex.

(** [n] iterations of a one-character body. *)
Inductive steps (fl : flags) (a : atom) : nat -> mstate -> mstate -> Prop :=
| steps_O : forall st, steps fl a 0 st st
| steps_S : forall n st st1 st2,
    step fl a st = Some st1 -> steps fl a n st1 st2 ->
    steps fl a (S n) st st2.

Fixpoint matches (fl : flags) (r : regex) (st st' : mstate) : Prop :=
  match r with
  | Empty => st' = st
  | Lit p => lit_match fl p st = Some st'
  | Atom a => step fl a st = Some st'
  | Seq r1 r2 => exists st1, matches fl r1 st st1 /\ matches fl r2 st1 st'
  | Alt r1 r2 => matches fl r1 st st' \/ matches fl r2 st st'
  | Rep _ mn mx a =>
      exists n, steps fl a n st st' /\ mn <= n
                /\ (forall x, mx = Some x -> n <= x)
  | Group r1 =>
      exists st1, matches fl r1 st st1
                  /\ st' = mkState (st_prev st1) (st_rest st1)
                                   (Some (captured st st1))
  | Bol => at_bol fl st = true /\ st' = st
  | Eol => at_eol fl st = true /\ st' = st
  | WordBoundary => at_word_boundary st = true /\ st' = st
  | LookAhead r1 => (exists st1, matches fl r1 st st1) /\ st' = st
  end.

(** Quantifier bounds in order. *)
Fixpoint wf (r : regex) : bool :=
  match r with
  | Seq r1 r2 | Alt r1 r2 => wf r1 && wf r2
  | Rep _ mn (Some x) _ => (mn <=? x)%nat
  | Group r1 | LookAhead r1 => wf r1
  | _ => true
  end.

(** Equality of two strings up to the case of ASCII letters. *)
Fixpoint ci_equal (a b : jsstring) : bool :=
  match a, b with
  | [], [] => true
  | x :: a', y :: b' =>
      (toUpperAscii x =? toUpperAscii y)%N && ci_equal a' b'
  | _, _ => false
  end.

(** [p] starts [s], up to the case of ASCII letters. *)
Fixpoint starts_ci (p s : jsstring) : bool :=
  match p, s with
  | [], _ => true
  | x :: p', y :: s' =>
      (toUpperAscii x =? toUpperAscii y)%N && starts_ci p' s'
  | _ :: _, [] => false
  end.

(** [p] occurs somewhere in [s], in any letter case. *)
Fixpoint occurs_ci (p s : jsstring) : bool :=
  starts_ci p s
  || match s with
     | [] => false
     | _ :: s' => occurs_ci p s'
     end.

Definition suffix (b s : jsstring) : Prop := exists a, s = a ++ b.

(** The first character of the pattern occurs nowhere else in it. *)
Definition first_unique (p : jsstring) : bool :=
  match p with
  | [] => false
  | f :: p' =>
      forallb (fun c => negb (toUpperAscii c =? toUpperAscii f)%N) p'
  end.

End RegexSem.

(** ** Notions the properties are stated with *)

Module Spec.
Import JS Regex Num VoiceFormatter APIClient.

(** The markers of a reasoning span. *)
Definition OPEN : jsstring := js "<think>".
Definition CLOSE : jsstring := js "</think>".



(** Readable characters: [\w], [\s] and [. , ! ?]. *)
Definition readable (c : N) : bool :=
  isWordChar c || isSpace c
  || (c =? 46)%N || (c =? 44)%N || (c =? 33)%N || (c =? 63)%N.

(** Within the configured maximum length, if any. *)
Definition fits (config : VoiceFormatterConfig) (x : jsstring) : Prop :=
  match truthy_length (Config.maxLength config) with
  | Some n => (len x <= n)%Z
  | None => True
  end.

(** The message and the flag a retry comes back with: the cleaned reply,
    or the greeting when the call fails. *)
Definition retryMessage (out : Outcome) : jsstring :=
  match out with
  | Json data => cleanSimpleResponse (response data)
  | _ => GREETING
  end.

Definition retrySuccess (out : Outcome) : bool :=
  match out with Json _ => true | _ => false end.

Definition has_open_tag (s : jsstring) : bool :=
  test noflags (Lit OPEN_TAG) s.

(** The continuation token the primary reply leaves in the client. *)
Definition contextAfter (this : client) (out : Outcome) : list Z :=
  match out with
  | Json data =>
      match context data with
      | Some ctx => ctx
      | None => this_context this
      end
  | _ => this_context this
  end.

(** The range the client keeps its configuration in. *)
Definition config_ok (config : AIConfig) : Prop :=
  leb (of_Z 1500) (maxTokens config) = true
  /\ leb (dec 1 10) (temperature config) = true
  /\ leb (temperature config) (dec 12 10) = true.

(** Both numeric fields hold a number, not [NaN]. *)
Definition numeric (config : AIConfig) : Prop :=
  isNaN (maxTokens config) = false /\ isNaN (temperature config) = false.

(** Sample data. *)
Definition default_ai : AIConfig :=
  mkAIConfig (js "qwen2.5:0.5b") (dec 7 10) (of_Z 1000)
             (js "http://localhost:11434").

Definition nan_ai : AIConfig :=
  mkAIConfig (js "qwen2.5:0.5b") (dec 7 10) S754_nan
             (js "http://localhost:11434").

Definition raw_3_1 : jsstring := js "<think>a<think>b</think>c<think>d".

Definition stubborn_reply : OllamaResponse :=
  mkOllamaResponse raw_3_1 true None.

(** A backend that keeps opening reasoning spans. *)
Definition stubborn_backend (n : nat) (rq : RequestBody) : Outcome :=
  match n with
  | O => Json stubborn_reply
  | S _ => Json (mkOllamaResponse (js "<think>masih berpikir") true None)
  end.

Definition stubborn_world : world :=
  mkWorld [] stubborn_backend (fun _ => 0%Z).

(** A backend whose first reply holds CJK text and whose second call
    fails. *)
Definition cjk_reply : OllamaResponse :=
  mkOllamaResponse (js "Halo " ++ [0x4F60; 0x597D]%N) true
                   (Some [1; 2; 3]%Z).

Definition failing_backend (n : nat) (rq : RequestBody) : Outcome :=
  match n with
  | O => Json cjk_reply
  | S _ => HttpError 500 (js "overloaded")
  end.

Definition failing_world : world :=
  mkWorld [] failing_backend (fun _ => 0%Z).

End Spec.

(** ** Further notions *)

Module Notions.
Import JS Regex VoiceFormatter APIClient.

(** The symbols the cleanup stage drops. *)
Definition special (c : N) : bool :=
  existsb (N.eqb c) (js "#@$%^&*+=[]{}\|<>").

(** Double quote, apostrophe, backtick. *)
Definition quote (c : N) : bool :=
  (c =? 34)%N || (c =? 39)%N || (c =? 96)%N.

(** What the cleanup stage lets through: no dropped symbol, no quote,
    and no whitespace other than the plain space. *)
Definition speech_safe (c : N) : bool :=
  negb (special c) && negb (quote c)
  && (negb (isSpace c) || (c =? 32)%N).

(** What each of the first three reasoning patterns begins with. *)
Definition OPEN_STEM : jsstring := js "<think".

(** Basic Latin or the upper half of Latin-1. *)
Definition latin1 (c : N) : bool :=
  in_range 0 0x7F c || in_range 0xA0 0xFF c.

(** The two angle brackets. *)
Definition angle (c : N) : bool := (c =? 60)%N || (c =? 62)%N.

(** No [<] has a [>] anywhere after it. *)
Fixpoint tagless (s : jsstring) : bool :=
  match s with
  | [] => true
  | c :: s' =>
      (negb (c =? 60)%N || negb (existsb (N.eqb 62) s')) && tagless s'
  end.

(** The characters of [[<>{}[\]]]. *)
Definition problematic (c : N) : bool :=
  existsb (N.eqb c) (js "<>{}[]").

(** The word every reasoning pattern looks for. *)
Definition THINK : jsstring := js "think".

(** A pattern word none of whose letters is, in either case, a line
    terminator. *)
Definition wordy (q : jsstring) : bool :=
  forallb (fun x => negb (isLineTerminator (toUpperAscii x))) q.

(** No line terminator inside. *)
Definition termfree (s : jsstring) : bool :=
  forallb (fun c => negb (isLineTerminator c)) s.

(** At the end of a line: nothing follows, or a line terminator. *)
Definition line_end (s : jsstring) : bool :=
  match s with
  | [] => true
  | c :: _ => isLineTerminator c
  end.

(** [line_cut s o]: [o] is [s] with stretches cut out, each of them
    reaching to the end of a line. *)
Inductive line_cut : jsstring -> jsstring -> Prop :=
| cut_keep : forall c s o, line_cut s o -> line_cut (c :: s) (c :: o)
| cut_end : forall d, line_cut d []
| cut_line : forall d t s o,
    isLineTerminator t = true -> line_cut s o ->
    line_cut (d ++ t :: s) (t :: o).
End Notions.

(** ** Voice selection: [utils/config.ts] *)

Module Voices.
Import JS.

(** The fields of [SpeechSynthesisVoice]. *)
Record SpeechSynthesisVoice := mkVoice
  { voiceURI : jsstring;
    name : jsstring;
    lang : jsstring;
    localService : bool;
    default : bool }.

(** [getAvailableVoices]: the voices of [speechSynthesis], none where
    there is no [window] or no [speechSynthesis]. *)
Definition getAvailableVoices
           (speechSynthesis : option (list SpeechSynthesisVoice))
  : list SpeechSynthesisVoice :=
  match speechSynthesis with
  | None => []
  | Some voices => voices
  end.

Definition getBestVoiceForLanguage
           (speechSynthesis : option (list SpeechSynthesisVoice))
           (language : jsstring) : option SpeechSynthesisVoice :=
  let voices := getAvailableVoices speechSynthesis in
  (* exact match *)
  let voice := find (fun v => JS.eqb (lang v) language) voices in
  (* language match: language.split("-")[0] *)
  let voice :=
    match voice with
    | Some _ => voice
    | None =>
        let langCode := hd [] (JS.split language 45) in
        find (fun v => startsWith langCode (lang v)) voices
    end in
  (* the default voice, or the first one *)
  let voice :=
    match voice with
    | Some _ => voice
    | None =>
        if (0 <? List.length voices)%nat then
          match find default voices with
          | Some v => Some v
          | None => hd_error voices
          end
        else None
    end in
  voice.

End Voices.

(** ** The second formatter: [formatForTTS] and its companions *)

Module TTS.
Import JS Regex.

(** [VoiceFormatterOptions]: every field may be left out ([None]); a
    field that is present holds a truth value (an explicit
    [undefined] counts as false), [maxLength] a number or
    [undefined]. *)
Record VoiceFormatterOptions := mkOptions
  { removeThinkTags : option bool;
    removeMarkdown : option bool;
    removeEmojis : option bool;
    removeAIPrefix : option bool;
    normalizeWhitespace : option bool;
    maxLength : option (option Z) }.

Definition no_options : VoiceFormatterOptions :=
  mkOptions None None None None None None.

(** [{ ...DEFAULT_OPTIONS, ...options }] with the defaults [true] and
    [500]. *)
Definition flag (field : option bool) : bool :=
  match field with Some b => b | None => true end.

Definition limit (field : option (option Z)) : option Z :=
  match field with Some v => v | None => Some 500%Z end.

Definition LF : N := 10%N.

(** [/<think>[\s\S]*?<\/think>/gi] *)
Definition think_tags : regex :=
  seq [Lit (js "<think>"); lazy_star any; Lit (js "</think>")].

(** [/^(Asistenqu|AI|Assistant|Bot):\s*/gi] *)
Definition ai_prefix : regex :=
  seq [Bol;
       Group (Alt (Lit (js "Asistenqu"))
             (Alt (Lit (js "AI"))
             (Alt (Lit (js "Assistant")) (Lit (js "Bot")))));
       Lit (js ":"); star space].

(** [open(.*?)close] *)
Definition lazily_wrapped (open_ close_ : string) : regex :=
  seq [Lit (js open_); Group (lazy_star ADot); Lit (js close_)].

(** [/:[a-zA-Z0-9_+-]+:/g] *)
Definition shortcode : regex :=
  seq [Lit (js ":");
       plus (AClass false ([CRange 97 122; CRange 65 90; CRange 48 57]
                           ++ chars "_+-"));
       Lit (js ":")].

(** [/<[^>]*>/g] *)
Definition html_tag : regex :=
  seq [Lit (js "<"); star (none_of ">"); Lit (js ">")].

Definition stripMarkdown (formatted : jsstring) : jsstring :=
  let formatted :=
    replace noflags (lazily_wrapped "**" "**") [RGroup1] formatted in
  let formatted :=
    replace noflags (lazily_wrapped "__" "__") [RGroup1] formatted in
  let formatted :=
    replace noflags (lazily_wrapped "*" "*") [RGroup1] formatted in
  let formatted :=
    replace noflags (lazily_wrapped "_" "_") [RGroup1] formatted in
  (* /```[\s\S]*?```/g and /`([^`]+)`/g *)
  let formatted :=
    replace noflags (seq [Lit (js "```"); lazy_star any; Lit (js "```")])
            [] formatted in
  let formatted :=
    replace noflags
            (seq [Lit (js "`"); Group (plus (none_of "`")); Lit (js "`")])
            [RGroup1] formatted in
  (* /\[([^\]]+)\]\([^)]+\)/g *)
  let formatted :=
    replace noflags
            (seq [Lit (js "["); Group (plus (none_of "]")); Lit (js "](");
                  plus (none_of ")"); Lit (js ")")])
            [RGroup1] formatted in
  (* /^#{1,6}\s+/gm *)
  let formatted :=
    replace fl_m (seq [Bol; Rep true 1 (Some 6) (AChar 35); plus space])
            [] formatted in
  (* /^[\s]*[-*+]\s+/gm *)
  let formatted :=
    replace fl_m (seq [Bol; star space; Atom (one_of "-*+"); plus space])
            [] formatted in
  formatted.

Definition stripEmojis (formatted : jsstring) : jsstring :=
  let formatted := replace fl_u VoiceFormatter.emoji [] formatted in
  replace noflags shortcode [] formatted.

Definition squeezeWhitespace (formatted : jsstring) : jsstring :=
  (* /\s+/g, " " *)
  let formatted := replace noflags (plus space) [RText (js " ")] formatted in
  (* /\n\s*\n/g, "\n" *)
  let formatted :=
    replace noflags (seq [Lit [LF]; star space; Lit [LF]]) [RText [LF]]
            formatted in
  trim formatted.

(** Step 7: cut at the last complete word and mark the cut. *)
Definition truncate (text formatted : jsstring) (maxLength : Z)
  : jsstring :=
  let truncated := substring0 formatted maxLength in
  let lastSpace := lastIndexOf truncated (js " ") in
  let formatted :=
    if (lastSpace >? 0)%Z then substring0 truncated lastSpace
    else truncated in
  if (len formatted <? len text)%Z then formatted ++ js "..."
  else formatted.

Definition formatForTTS (text : jsstring) (options : VoiceFormatterOptions)
  : jsstring :=
  let formatted := text in
  let formatted :=
    if flag (removeThinkTags options)
    then replace fl_i think_tags [] formatted else formatted in
  let formatted :=
    if flag (removeAIPrefix options)
    then replace fl_i ai_prefix [] formatted else formatted in
  let formatted :=
    if flag (removeMarkdown options)
    then stripMarkdown formatted else formatted in
  let formatted :=
    if flag (removeEmojis options)
    then stripEmojis formatted else formatted in
  let formatted := replace noflags html_tag [] formatted in
  let formatted :=
    if flag (normalizeWhitespace options)
    then squeezeWhitespace formatted else formatted in
  match limit (maxLength options) with
  | Some n =>
      if negb (n =? 0)%Z && (len formatted >? n)%Z
      then truncate text formatted n
      else formatted
  | None => formatted
  end.

Definition formatForConversation (text : jsstring) : jsstring :=
  formatForTTS text
    (mkOptions (Some true) (Some false) (Some false) (Some true)
               (Some true) (Some None)).

Definition formatForDisplay (text : jsstring) : jsstring :=
  formatForTTS text
    (mkOptions (Some true) (Some false) (Some false) (Some false)
               (Some true) (Some None)).

(** [hasThinkTags]: the pattern literal is evaluated afresh at each
    call, so the test starts at the beginning of the text. *)
Definition hasThinkTags (text : jsstring) : bool :=
  test fl_i think_tags text.

Record TTSValidation := mkTTSValidation
  { isValid : bool; issues : list jsstring; cleaned : jsstring }.

Definition pushIf {A} (b : bool) (x : A) (l : list A) : list A :=
  if b then l ++ [x] else l.

Definition validateForTTS (text : jsstring) : TTSValidation :=
  let issues := [] in
  let issues := pushIf (hasThinkTags text) (js "Contains <think> tags") issues in
  let issues :=
    pushIf (len text >? 1000)%Z (js "Text too long for TTS") issues in
  (* /[<>{}[\]]/g *)
  let issues :=
    pushIf (test noflags (Atom (one_of "<>{}[]")) text)
           (js "Contains problematic characters") issues in
  let cleaned := formatForTTS text no_options in
  mkTTSValidation (List.length issues =? 0)%nat issues cleaned.

End TTS.

(** ** What is spoken: [speakAIMessage] of [VoiceCallInterface.tsx] *)

Module Speech.
Import JS VoiceFormatter.

(** The exported [formatForVoice(text)] without a configuration. *)
Definition formatForVoice (text : jsstring) : jsstring :=
  VoiceFormatter.formatForVoice voiceFormatter text.

Definition fallbackMessage : jsstring :=
  js "Maaf, saya tidak dapat memproses respons tersebut dengan baik.".

Definition noResponse : jsstring :=
  js "Maaf, tidak ada respons yang dapat saya berikan.".

(** The text handed to [SpeechSynthesisUtterance], where speech
    synthesis is available; [None] when the promise is rejected for
    want of content. *)
Definition textToSpeak (message : jsstring) : option jsstring :=
  let formattedMessage := formatForVoice message in
  let rejected :=
    if negb (isVoiceSuitable formattedMessage) then
      let finalMessage := formatForVoice fallbackMessage in
      isEmpty (trim finalMessage)
    else false in
  if rejected then None
  else Some (if isEmpty (trim formattedMessage) then noResponse
             else trim formattedMessage).

End Speech.

(** ** The shared client: [getAPIClient] of [utils/api.ts] *)

Module Singleton.
Import JS Num APIClient.

(** [getAPIClient(config?)] over the module variable [apiClient]: the
    client returned ([None] when it throws) and the new value of the
    variable.  The variable and the returned client are one object. *)
Definition getAPIClient (apiClient : option client)
           (config : option AIConfig)
  : option client * option client :=
  let apiClient :=
    match apiClient, config with
    | None, Some config => Some (constructor config)
    | Some this, Some config => Some (updateConfig this config)
    | _, None => apiClient
    end in
  match apiClient with
  | None => (None, None)
  | Some this => (Some this, Some this)
  end.

(** One turn of the call screen, [handleUserSpeech]:
    [getAPIClient(config.ai)] and then [sendMessage] on the shared
    client; [None] when [getAPIClient] throws.  The client that
    [sendMessage] leaves is the shared one. *)
Definition turn (apiClient : option client) (config : AIConfig)
           (w : world) (message : jsstring)
           (conversationHistory : list ChatMessage)
  : option (ChatResponse * option client * world) :=
  let '(returned, apiClient) := getAPIClient apiClient (Some config) in
  match returned with
  | Some this =>
      let '(response, this, w) :=
        sendMessage this w message conversationHistory in
      Some (response, Some this, w)
  | None => None
  end.

End Singleton.

(** ** Plain text, and what the patterns need to match *)

Module Plain.
Import JS Regex RegexSem VoiceFormatter.

Definition isLetter (c : N) : bool := in_range 65 90 c || in_range 97 122 c.

(** The characters of plain text: ASCII letters, whitespace, the
    punctuation [. , ! ?], and the code units beyond ASCII other than
    the surrogates and the symbols U+2600 to U+27BF. *)
Definition plain_char (c : N) : bool :=
  isLetter c || isSpace c
  || (c =? 46)%N || (c =? 44)%N || (c =? 33)%N || (c =? 63)%N
  || in_range 0x80 0x25FF c || in_range 0x27C0 0xD7FF c
  || in_range 0xE000 0xFFFF c.

(** What each of the reasoning-phrase patterns [Okay,...Let me],
    [I need to] and [First,...Then,] cannot match without: words of
    its literals that hold no whitespace. *)
Definition triggers : list (list jsstring) :=
  [ [js "Okay,"; js "Let"]; [js "need"]; [js "First,"; js "Then,"] ].

(** Of each pattern some word is missing, in every letter case. *)
Definition untriggered (x : jsstring) : bool :=
  forallb (existsb (fun w => negb (occurs_ci w x))) triggers.

(** [w] is read from the start of [s] on, in any letter case, and what
    follows it is not a word character. *)
Fixpoint word_here (w s : jsstring) : bool :=
  match w with
  | [] => negb (is_word (hd_error s))
  | x :: w' =>
      match s with
      | [] => false
      | y :: s' => (toUpperAscii x =? toUpperAscii y)%N && word_here w' s'
      end
  end.

(** [w] stands somewhere in [s] as a whole word; [after_word] says
    whether a word character comes right before [s]. *)
Fixpoint word_from (w : jsstring) (after_word : bool) (s : jsstring)
  : bool :=
  match s with
  | [] => false
  | c :: s' =>
      (negb after_word && word_here w s) || word_from w (isWordChar c) s'
  end.

Definition has_word (w s : jsstring) : bool := word_from w false s.

(** Plain text: plain characters only, no reasoning phrase, none of
    the abbreviations as a whole word. *)
Definition plain (x : jsstring) : bool :=
  forallb plain_char x
  && untriggered x
  && forallb (fun e => negb (has_word (js (fst e)) x)) abbreviations.

(** Plain text after a pass: the only whitespace is the single plain
    space. *)
Definition single_spaced (y : jsstring) : bool :=
  forallb (fun c => negb (isSpace c) || (c =? 32)%N) y
  && negb (occurs_ci (js "  ") y).

(** No run of marks that [normalizePunctuation] would shorten. *)
Definition calm (y : jsstring) : bool :=
  forallb (fun w => negb (occurs_ci w y)) [js "!!"; js "??"; js "...."].

(** *** What a pattern cannot match without *)

Definition digits : jsstring := js "0123456789".

Definition outside_item (safe : N -> bool) (it : citem) : bool :=
  match it with
  | CChar c => negb (safe c)
  | CDigit => forallb (fun c => negb (safe c)) digits
  | _ => false
  end.

(** Whatever the atom matches lies outside [safe]. *)
Definition outside_atom (safe : N -> bool) (a : atom) : bool :=
  match a with
  | AChar c => negb (safe c)
  | AClass false items => forallb (outside_item safe) items
  | _ => false
  end.

(** Every match of [r] goes over a character outside [safe]; [ic] is
    the [i] flag. *)
Fixpoint needs_outside (safe : N -> bool) (ic : bool) (r : regex) : bool :=
  match r with
  | Lit p => existsb (fun c => negb (safe (toUpperAscii c))) p
  | Atom a => negb ic && outside_atom safe a
  | Rep _ (S _) _ a => negb ic && outside_atom safe a
  | Seq r1 r2 => needs_outside safe ic r1 || needs_outside safe ic r2
  | Alt r1 r2 => needs_outside safe ic r1 && needs_outside safe ic r2
  | Group r1 => needs_outside safe ic r1
  | _ => false
  end.

(** Every match of [r] goes over the text [p], in some letter case. *)
Fixpoint needs_word (p : jsstring) (r : regex) : bool :=
  match r with
  | Lit q => occurs_ci p q
  | Seq r1 r2 => needs_word p r1 || needs_word p r2
  | Alt r1 r2 => needs_word p r1 && needs_word p r2
  | Group r1 => needs_word p r1
  | _ => false
  end.

(** [squeeze q s o]: [o] is [s] with some runs of [q]-characters
    replaced by shorter or equally long runs of [q]-characters, none
    of them empty. *)
Inductive squeeze (q : N -> bool) : jsstring -> jsstring -> Prop :=
| sq_nil : squeeze q [] []
| sq_keep : forall c s o, squeeze q s o -> squeeze q (c :: s) (c :: o)
| sq_run : forall d t s o,
    t <> [] -> forallb q d = true -> forallb q t = true ->
    List.length t <= List.length d ->
    squeeze q s o -> squeeze q (d ++ s) (t ++ o).

(** Whether a position is at the start of a line, from the code unit
    before it. *)
Definition line_start (prev : option N) : bool :=
  match prev with
  | None => true
  | Some c => isLineTerminator c
  end.

(** [line_drop b s o]: [o] is [s] with stretches dropped, each of them
    from the start of a line up to a line terminator or to the end;
    [b] says whether [s] begins a line. *)
Inductive line_drop : bool -> jsstring -> jsstring -> Prop :=
| drop_nil : forall b, line_drop b [] []
| drop_keep : forall b c s o,
    line_drop (isLineTerminator c) s o -> line_drop b (c :: s) (c :: o)
| drop_end : forall d, line_drop true d []
| drop_line : forall d t s o,
    isLineTerminator t = true -> line_drop true s o ->
    line_drop true (d ++ t :: s) (t :: o).

(** *** Proof steps *)

(** What a fact about a character class says of the code unit. *)
Ltac ranges H :=
  unfold plain_char, isLetter, isSpace, isWordChar, isDigit, in_range in H;
  rewrite ?orb_true_iff, ?andb_true_iff, ?N.eqb_eq, ?N.leb_le in H.

Ltac out_of_range :=
  unfold isHighSurrogate, in_range; apply andb_false_iff;
  rewrite !N.leb_gt; lia.

(** One pass over [v] that the lemma [L] shows to change nothing. *)
Ltac pass_by L v H :=
  match goal with
  | |- context [replace ?fl ?r ?tpl v] =>
      rewrite (L fl r tpl v eq_refl eq_refl eq_refl H)
  end.

Ltac word_pass_by L p v H :=
  match goal with
  | |- context [replace ?fl ?r ?tpl v] =>
      rewrite (L fl p r tpl v eq_refl eq_refl eq_refl H)
  end.

End Plain.

(** * Properties *)

Module RegexFacts.
Import JS Regex RegexSem.

Lemma orelse_some_inv : forall a b r,
  orelse a b = Some r -> a = Some r \/ (a = None /\ b = Some r).
Proof. intros [x|] b r H; simpl in H; auto. Qed.

Lemma orelse_not_none : forall a b,
  a <> None \/ b <> None -> orelse a b <> None.
Proof. intros [x|] b [H|H]; simpl; congruence. Qed.

(** A step consumes one or two code units. *)
Lemma step_inv : forall fl a st st',
  step fl a st = Some st' ->
  exists ch w, next_char fl (st_rest st) = Some (ch, w)
               /\ atom_match fl a ch = true /\ st' = consume w st.
Proof.
  intros fl a st st' H. unfold step in H.
  destruct (next_char fl (st_rest st)) as [[ch w]|]; [|discriminate].
  destruct (atom_match fl a ch) eqn:E; [|discriminate].
  inversion H; subst. eauto.
Qed.

Lemma next_char_width : forall fl s ch w,
  next_char fl s = Some (ch, w) -> 1 <= w <= List.length s.
Proof.
  intros fl [|h t] ch w H; simpl in H; [discriminate|].
  destruct (unicode fl && isHighSurrogate h).
  - destruct t as [|l t'].
    + inversion H; subst; simpl; lia.
    + destruct (isLowSurrogate l); inversion H; subst; simpl; lia.
  - inversion H; subst; simpl; lia.
Qed.

Lemma step_shorter : forall fl a st st',
  step fl a st = Some st' ->
  List.length (st_rest st') < List.length (st_rest st).
Proof.
  intros fl a st st' H.
  apply step_inv in H. destruct H as (ch & w & Hn & _ & ->).
  apply next_char_width in Hn. simpl. rewrite length_skipn. lia.
Qed.

Section Sound.
Variable fl : flags.

Lemma rep_sound : forall a g k fuel mn mx st res,
  (forall x, mx = Some x -> mn <= x) ->
  rep fl a g k fuel mn mx st = Some res ->
  exists n st', steps fl a n st st' /\ mn <= n
                /\ (forall x, mx = Some x -> n <= x)
                /\ k st' = Some res.
Proof.
  intros a g k fuel.
  induction fuel as [|fuel IH]; intros mn mx st res Hwf H; simpl in H.
  - destruct mn; [|discriminate].
    exists 0, st. repeat split; auto using steps_O; lia.
  - destruct (max_done mx) eqn:Hd.
    + destruct mx as [[|x]|]; try discriminate.
      specialize (Hwf 0 eq_refl).
      exists 0, st. repeat split; auto using steps_O; try lia.
    + assert (Hmore : forall r,
                match step fl a st with
                | Some st' => rep fl a g k fuel (pred mn) (max_pred mx) st'
                | None => None
                end = Some r ->
                exists n st', steps fl a n st st' /\ mn <= n
                              /\ (forall x, mx = Some x -> n <= x)
                              /\ k st' = Some r).
      { intros r Hr. destruct (step fl a st) as [st1|] eqn:Hs; [|discriminate].
        apply IH in Hr.
        - destruct Hr as (n & st' & Hst & Hmn & Hmx & Hk).
          exists (S n), st'. repeat split; eauto using steps_S; try lia.
          intros x ->. simpl in Hmx. specialize (Hmx _ eq_refl).
          destruct x; [discriminate|]. simpl in Hmx. lia.
        - intros x Hx. destruct mx as [y|]; [|discriminate].
          inversion Hx; subst. specialize (Hwf _ eq_refl). lia. }
      destruct mn as [|mn'].
      * destruct g; apply orelse_some_inv in H;
          destruct H as [H|[_ H]]; auto;
          exists 0, st; repeat split; auto using steps_O; try lia;
          intros x Hx; lia.
      * auto.
Qed.

Lemma rep_complete : forall a g k n st st',
  steps fl a n st st' ->
  forall fuel mn mx,
  mn <= n -> (forall x, mx = Some x -> n <= x) ->
  List.length (st_rest st) < fuel ->
  k st' <> None ->
  rep fl a g k fuel mn mx st <> None.
Proof.
  intros a g k n st st' Hs.
  induction Hs as [st|n st st1 st2 Hstep Hs IH];
    intros fuel mn mx Hmn Hmx Hfuel Hk.
  - destruct fuel as [|fuel]; [lia|]. simpl.
    assert (mn = 0) by lia. subst mn.
    destruct (max_done mx); auto.
    destruct g; apply orelse_not_none; auto.
  - destruct fuel as [|fuel]; [lia|]. simpl.
    destruct (max_done mx) eqn:Hd.
    { destruct mx as [[|x]|]; try discriminate.
      specialize (Hmx _ eq_refl). lia. }
    rewrite Hstep.
    assert (Hmore : rep fl a g k fuel (pred mn) (max_pred mx) st1 <> None).
    { apply IH; auto; try lia.
      - intros x Hx. destruct mx as [y|]; [|discriminate].
        inversion Hx; subst. specialize (Hmx _ eq_refl). lia.
      - apply step_shorter in Hstep. lia. }
    destruct mn; auto.
    destruct g; apply orelse_not_none; auto.
Qed.

Local Arguments rep : simpl never.

Lemma m_sound : forall r k st res,
  wf r = true ->
  m fl r k st = Some res ->
  exists st', matches fl r st st' /\ k st' = Some res.
Proof.
  induction r; intros k st res Hwf H; simpl in *.
  - eauto.
  - destruct (lit_match fl s st) eqn:E; [|discriminate]. eauto.
  - destruct (step fl a st) eqn:E; [|discriminate]. eauto.
  - apply andb_prop in Hwf. destruct Hwf as [W1 W2].
    apply IHr1 in H; auto. destruct H as (st1 & M1 & H).
    apply IHr2 in H; auto. destruct H as (st2 & M2 & H). eauto.
  - apply andb_prop in Hwf. destruct Hwf as [W1 W2].
    apply orelse_some_inv in H. destruct H as [H|[_ H]].
    + apply IHr1 in H; auto. destruct H as (st1 & M1 & H). eauto.
    + apply IHr2 in H; auto. destruct H as (st1 & M1 & H). eauto.
  - apply rep_sound in H.
    + destruct H as (n & st' & Hs & Hmn & Hmx & Hk). exists st'. eauto 6.
    + intros x ->. apply Nat.leb_le in Hwf. exact Hwf.
  - apply IHr in H; auto. destruct H as (st1 & M1 & H). eauto.
  - destruct (at_bol fl st) eqn:E; [|discriminate]. eauto.
  - destruct (at_eol fl st) eqn:E; [|discriminate]. eauto.
  - destruct (at_word_boundary st) eqn:E; [|discriminate]. eauto.
  - destruct (m fl r Some st) eqn:E; [|discriminate].
    apply IHr in E; auto. destruct E as (st1 & M1 & _). eauto.
Qed.

Lemma m_complete : forall r st st',
  matches fl r st st' ->
  forall k, k st' <> None -> m fl r k st <> None.
Proof.
  induction r; intros st st' M k Hk; simpl in *.
  - subst. auto.
  - rewrite M. auto.
  - rewrite M. auto.
  - destruct M as (st1 & M1 & M2). eapply IHr1; eauto.
  - apply orelse_not_none. destruct M as [M|M]; [left|right]; eauto.
  - destruct M as (n & Hs & Hmn & Hmx).
    eapply rep_complete; eauto.
  - destruct M as (st1 & M1 & ->). eapply IHr; eauto.
  - destruct M as [E ->]. rewrite E. auto.
  - destruct M as [E ->]. rewrite E. auto.
  - destruct M as [E ->]. rewrite E. auto.
  - destruct M as [(st1 & M1) ->].
    destruct (m fl r Some st) eqn:E; auto.
    exfalso. revert E. eapply IHr; eauto. discriminate.
Qed.
End Sound.
End RegexFacts.

Module ScanFacts.
Import JS Regex RegexSem RegexFacts.

Lemma last_or_nil : forall d, last_or d [] = d.
Proof. reflexivity. Qed.

Lemma last_or_app_cons : forall d a c,
  last_or d (a ++ [c]) = Some c.
Proof. intros. unfold last_or. rewrite rev_app_distr. reflexivity. Qed.

Lemma last_or_cons : forall d c a,
  last_or d (c :: a) = last_or (Some c) a.
Proof.
  intros d c a. destruct a as [|x a'] using rev_ind.
  - reflexivity.
  - rewrite app_comm_cons, !last_or_app_cons. reflexivity.
Qed.

Lemma last_or_app : forall d a b,
  last_or d (a ++ b) = last_or (last_or d a) b.
Proof.
  intros d a. revert d. induction a as [|c a IH]; intros d b.
  - reflexivity.
  - simpl. rewrite !last_or_cons. apply IH.
Qed.

Section Scan.
Variables (fl : flags) (r : regex).

(** Where no attempt succeeds the scan keeps every code unit. *)
Lemma scan_no_match : forall s keep prev,
  (forall a b, s = a ++ b -> exec_at fl r (last_or prev a) b = None) ->
  scan fl r 0 keep prev s = List.map Kept s.
Proof.
  induction s as [|c s IH]; intros keep prev H.
  - simpl. destruct keep; auto.
    pose proof (H [] [] eq_refl) as E0. cbn in E0. rewrite E0. reflexivity.
  - simpl. destruct keep as [|k].
    + pose proof (H [] (c :: s) eq_refl) as E0. cbn in E0. rewrite E0.
      rewrite ?advance_no_u. f_equal. apply IH.
      intros a b E. specialize (H (c :: a) b). rewrite last_or_cons in H.
      apply H. simpl. congruence.
    + f_equal. apply IH.
      intros a b E. specialize (H (c :: a) b). rewrite last_or_cons in H.
      apply H. simpl. congruence.
Qed.

Lemma scan_drop_all : forall s prev,
  (forall p, exec_at fl r p [] = None) ->
  scan fl r (List.length s) 0 prev s = [].
Proof.
  induction s as [|c s IH]; intros prev H; simpl.
  - rewrite H. reflexivity.
  - apply IH. exact H.
Qed.

Lemma advance_no_u : forall s, unicode fl = false -> advance fl s = 1.
Proof.
  intros s U. unfold advance, next_char. rewrite U.
  destruct s; reflexivity.
Qed.

(** No attempt succeeds inside [pre], and the one at its end covers
    the whole remainder. *)
Lemma scan_prefix_then_all : forall pre rest prev cap,
  unicode fl = false ->
  (forall p, exec_at fl r p [] = None) ->
  (forall a b, pre = a ++ b -> b <> [] ->
               exec_at fl r (last_or prev a) (b ++ rest) = None) ->
  exec_at fl r (last_or prev pre) rest = Some (List.length rest, cap) ->
  rest <> [] ->
  scan fl r 0 0 prev (pre ++ rest) = List.map Kept pre ++ [Found rest cap].
Proof.
  induction pre as [|c pre IH]; intros rest prev cap U He Hno Hyes Hne.
  - simpl in *. destruct rest as [|c s]; [congruence|].
    cbn in Hyes. cbn [app List.map scan]. rewrite Hyes.
    cbn [List.length]. rewrite scan_drop_all by assumption.
    change (S (List.length s)) with (List.length (c :: s)).
    rewrite firstn_all. reflexivity.
  - simpl.
    pose proof (Hno [] (c :: pre) eq_refl) as E0. cbn in E0.
    rewrite E0 by discriminate.
    rewrite advance_no_u by assumption. simpl. f_equal.
    apply IH; auto.
    + intros a b E Hb. specialize (Hno (c :: a) b).
      rewrite last_or_cons in Hno. apply Hno; auto. simpl. congruence.
    + rewrite last_or_cons in Hyes. exact Hyes.
Qed.

(** [test]: some position admits a match. *)
Lemma scan_found_iff : forall s prev,
  unicode fl = false ->
  existsb is_found (scan fl r 0 0 prev s) = true <->
  exists a b, s = a ++ b /\ exec_at fl r (last_or prev a) b <> None.
Proof.
  induction s as [|c s IH]; intros prev U.
  - simpl. destruct (exec_at fl r prev []) as [[n cap]|] eqn:E0; simpl.
    + split; auto. intros _. exists [], []. split; auto.
      cbn. rewrite E0. discriminate.
    + split; [discriminate|].
      intros (a & b & E & H). symmetry in E.
      apply app_eq_nil in E. destruct E; subst. cbn in H. congruence.
  - simpl. destruct (exec_at fl r prev (c :: s)) as [[[|n] cap]|] eqn:E.
    + simpl. split; auto. intros _. exists [], (c :: s). split; auto.
      cbn. rewrite E. discriminate.
    + simpl. split; auto. intros _. exists [], (c :: s). split; auto.
      cbn. rewrite E. discriminate.
    + rewrite advance_no_u by assumption. simpl. rewrite IH by assumption.
      split.
      * intros (a & b & Es & H). exists (c :: a), b. split.
        -- simpl. congruence.
        -- rewrite last_or_cons. exact H.
      * intros (a & b & Es & H). destruct a as [|x a].
        -- cbn in Es, H. subst b. congruence.
        -- simpl in Es. inversion Es; subst. exists a, b. split; auto.
           rewrite last_or_cons in H. exact H.
Qed.
End Scan.

Lemma flat_map_kept : forall tpl s, flat_map (render tpl) (List.map Kept s) = s.
Proof. induction s as [|c s IH]; simpl; congruence. Qed.

Lemma replace_no_match : forall fl r tpl s,
  (forall a b, s = a ++ b -> exec_at fl r (last_or None a) b = None) ->
  replace fl r tpl s = s.
Proof.
  intros fl r tpl s H. unfold replace. rewrite scan_no_match by assumption.
  apply flat_map_kept.
Qed.

Lemma replace_prefix_then_all : forall fl r pre rest cap,
  unicode fl = false ->
  (forall p, exec_at fl r p [] = None) ->
  (forall a b, pre = a ++ b -> b <> [] ->
               exec_at fl r (last_or None a) (b ++ rest) = None) ->
  exec_at fl r (last_or None pre) rest = Some (List.length rest, cap) ->
  rest <> [] ->
  replace fl r [] (pre ++ rest) = pre.
Proof.
  intros. unfold replace.
  erewrite scan_prefix_then_all; eauto.
  rewrite flat_map_app, flat_map_kept. simpl. apply app_nil_r.
Qed.

Lemma test_iff : forall fl r s,
  unicode fl = false ->
  test fl r s = true <->
  exists a b, s = a ++ b /\ exec_at fl r (last_or None a) b <> None.
Proof. intros. unfold test. apply scan_found_iff. assumption. Qed.

(** An attempt succeeds exactly when the pattern matches from there. *)
Lemma exec_at_some : forall fl r prev s,
  wf r = true ->
  exec_at fl r prev s <> None <->
  exists st', matches fl r (mkState prev s None) st'.
Proof.
  intros fl r prev s W. unfold exec_at. split.
  - destruct (m fl r Some (mkState prev s None)) eqn:E; [|congruence].
    intros _. apply m_sound in E; auto. destruct E as (st' & M & _). eauto.
  - intros (st' & M).
    destruct (m fl r Some (mkState prev s None)) eqn:E; [congruence|].
    exfalso. revert E. eapply m_complete; eauto. discriminate.
Qed.

Lemma exec_at_inv : forall fl r prev s n cap,
  wf r = true ->
  exec_at fl r prev s = Some (n, cap) ->
  exists st', matches fl r (mkState prev s None) st'
              /\ n = List.length s - List.length (st_rest st')
              /\ cap = st_cap st'.
Proof.
  intros fl r prev s n cap W H. unfold exec_at in H.
  destruct (m fl r Some (mkState prev s None)) eqn:E; [|discriminate].
  apply m_sound in E; auto. destruct E as (st' & M & Hk).
  inversion Hk; subst. inversion H; subst. eauto.
Qed.
End ScanFacts.

Module StringFacts.
Import JS Regex RegexSem RegexFacts ScanFacts.

Lemma suffix_refl : forall s, suffix s s.
Proof. intros s. exists []. reflexivity. Qed.

Lemma suffix_trans : forall a b c, suffix a b -> suffix b c -> suffix a c.
Proof.
  intros a b c [x ->] [y ->]. exists (y ++ x). apply app_assoc.
Qed.

Lemma suffix_skipn : forall n (s : jsstring), suffix (skipn n s) s.
Proof. intros n s. exists (firstn n s). symmetry. apply firstn_skipn. Qed.

Lemma suffix_length : forall b s, suffix b s -> List.length b <= List.length s.
Proof. intros b s [a ->]. rewrite length_app. lia. Qed.

Lemma step_suffix : forall fl a st st',
  step fl a st = Some st' -> suffix (st_rest st') (st_rest st).
Proof.
  intros fl a st st' H. apply step_inv in H.
  destruct H as (ch & w & _ & _ & ->). simpl. apply suffix_skipn.
Qed.

Lemma steps_suffix : forall fl a n st st',
  steps fl a n st st' -> suffix (st_rest st') (st_rest st).
Proof.
  induction 1 as [st|n st st1 st2 Hs _ IH].
  - apply suffix_refl.
  - eapply suffix_trans; eauto using step_suffix.
Qed.

Lemma lit_match_suffix : forall fl p st st',
  lit_match fl p st = Some st' -> suffix (st_rest st') (st_rest st).
Proof.
  intros fl p. induction p as [|c p IH]; intros st st' H; simpl in H.
  - inversion H. apply suffix_refl.
  - destruct (step fl (AChar c) st) as [st1|] eqn:E; [|discriminate].
    eapply suffix_trans; eauto using step_suffix.
Qed.

(** Matching only moves forward in the input. *)
Lemma matches_suffix : forall fl r st st',
  matches fl r st st' -> suffix (st_rest st') (st_rest st).
Proof.
  intros fl r. induction r; intros st st' M; simpl in M.
  - subst. apply suffix_refl.
  - eauto using lit_match_suffix.
  - eauto using step_suffix.
  - destruct M as (st1 & M1 & M2). eapply suffix_trans; eauto.
  - destruct M; eauto.
  - destruct M as (n & Hs & _). eauto using steps_suffix.
  - destruct M as (st1 & M1 & ->). simpl. eauto.
  - destruct M as [_ ->]. apply suffix_refl.
  - destruct M as [_ ->]. apply suffix_refl.
  - destruct M as [_ ->]. apply suffix_refl.
  - destruct M as [_ ->]. apply suffix_refl.
Qed.

(** *** Without the [u] flag *)

Lemma step_no_u : forall fl a st,
  unicode fl = false ->
  step fl a st =
  match st_rest st with
  | c :: t => if atom_match fl a c
              then Some (mkState (Some c) t (st_cap st)) else None
  | [] => None
  end.
Proof.
  intros fl a [p s cap] U. unfold step, next_char. simpl. rewrite U. simpl.
  destruct s as [|c t]; reflexivity.
Qed.

Lemma lit_match_starts_ci : forall fl p st,
  unicode fl = false -> ignoreCase fl = true ->
  (lit_match fl p st <> None <-> starts_ci p (st_rest st) = true).
Proof.
  intros fl p. induction p as [|c p IH]; intros st U I; simpl.
  - split; [reflexivity|discriminate].
  - rewrite step_no_u by assumption.
    destruct (st_rest st) as [|x t] eqn:E.
    + split; [congruence|discriminate].
    + simpl. unfold canon. rewrite I. rewrite (N.eqb_sym (toUpperAscii x)).
      destruct (toUpperAscii c =? toUpperAscii x)%N; simpl.
      * rewrite IH by assumption. reflexivity.
      * split; [congruence|discriminate].
Qed.

Lemma lit_match_rest : forall fl p st st',
  unicode fl = false ->
  lit_match fl p st = Some st' ->
  st_rest st' = skipn (List.length p) (st_rest st)
  /\ List.length p <= List.length (st_rest st).
Proof.
  intros fl p. induction p as [|c p IH]; intros st st' U H; simpl in H.
  - inversion H; subst. simpl. split; [reflexivity|lia].
  - rewrite step_no_u in H by assumption.
    destruct (st_rest st) as [|x t] eqn:E; [discriminate|].
    destruct (atom_match fl (AChar c) x); [|discriminate].
    apply IH in H; auto. simpl in H. simpl. destruct H. split; [auto|lia].
Qed.

Lemma atom_match_any : forall fl c, atom_match fl any c = true.
Proof. intros fl c. simpl. destruct (isSpace c); reflexivity. Qed.

(** [[\s\S]*] can run over any stretch of input. *)
Lemma steps_any : forall fl ws prev t cap,
  unicode fl = false ->
  steps fl any (List.length ws) (mkState prev (ws ++ t) cap)
        (mkState (last_or prev ws) t cap).
Proof.
  intros fl ws. induction ws as [|c ws IH]; intros prev t cap U.
  - apply steps_O.
  - simpl. eapply steps_S.
    + rewrite step_no_u by assumption. simpl.
      destruct (isSpace c); reflexivity.
    + rewrite last_or_cons. apply IH. assumption.
Qed.

(** *** Occurrences *)

Lemma starts_ci_app : forall p s t,
  starts_ci p s = true -> starts_ci p (s ++ t) = true.
Proof.
  induction p as [|x p IH]; intros s t H; [reflexivity|].
  destruct s as [|y s]; [discriminate|]. simpl in *.
  apply andb_prop in H. destruct H as [H1 H2].
  rewrite H1. simpl. apply IH. exact H2.
Qed.

Lemma starts_ci_app_long : forall p s t,
  List.length p <= List.length s ->
  starts_ci p (s ++ t) = starts_ci p s.
Proof.
  induction p as [|x p IH]; intros s t H; [reflexivity|].
  destruct s as [|y s]; simpl in *; [lia|].
  rewrite IH by lia. reflexivity.
Qed.

Lemma starts_ci_length : forall p s,
  starts_ci p s = true -> List.length p <= List.length s.
Proof.
  induction p as [|x p IH]; intros s H; simpl; [lia|].
  destruct s as [|y s]; [discriminate|]. simpl in *.
  apply andb_prop in H. destruct H as [_ H]. apply IH in H. lia.
Qed.

Lemma occurs_ci_suffix : forall p b s,
  suffix b s -> starts_ci p b = true -> occurs_ci p s = true.
Proof.
  intros p b s [a ->] H. induction a as [|c a IH]; simpl.
  - destruct b; simpl in *; rewrite H; reflexivity.
  - rewrite IH. apply orb_true_r.
Qed.

Lemma occurs_ci_app_l : forall p a b,
  occurs_ci p a = true -> occurs_ci p (a ++ b) = true.
Proof.
  intros p a b. induction a as [|c a IH]; intros H.
  - simpl in H. rewrite orb_false_r in H.
    destruct p; [|discriminate]. destruct b; reflexivity.
  - simpl in H. apply orb_prop in H. destruct H as [H|H].
    + change ((c :: a) ++ b) with (c :: (a ++ b)).
      cbn [occurs_ci].
      change (c :: (a ++ b)) with ((c :: a) ++ b).
      rewrite (@starts_ci_app _ _ _ H). reflexivity.
    + simpl. rewrite IH by assumption. apply orb_true_r.
Qed.

Lemma occurs_ci_app_r : forall p a b,
  occurs_ci p b = true -> occurs_ci p (a ++ b) = true.
Proof.
  intros p a b H. induction a as [|c a IH]; simpl; auto.
  rewrite IH. apply orb_true_r.
Qed.

Lemma starts_ci_nth : forall p s,
  starts_ci p s = true ->
  forall j, j < List.length p ->
  toUpperAscii (nth j p 0%N) = toUpperAscii (nth j s 0%N).
Proof.
  induction p as [|x p IH]; intros s H j Hj; simpl in Hj; [lia|].
  destruct s as [|y s]; [discriminate|]. simpl in H.
  apply andb_prop in H. destruct H as [H1 H2].
  destruct j as [|j]; simpl.
  - apply N.eqb_eq. exact H1.
  - apply IH; auto. lia.
Qed.

Lemma ci_equal_starts : forall a b,
  ci_equal a b = true -> starts_ci b a = true /\ List.length a = List.length b.
Proof.
  induction a as [|x a IH]; intros [|y b] H; simpl in *;
    try discriminate; auto.
  apply andb_prop in H. destruct H as [H1 H2].
  rewrite N.eqb_sym, H1. simpl. apply IH in H2. destruct H2. auto.
Qed.

Lemma first_unique_nth : forall p j,
  first_unique p = true -> 0 < j < List.length p ->
  toUpperAscii (nth j p 0%N) <> toUpperAscii (nth 0 p 0%N).
Proof.
  intros [|f p] j H Hj; [discriminate|]. simpl in *.
  destruct j as [|j]; [lia|]. simpl.
  rewrite forallb_forall in H.
  assert (In (nth j p 0%N) p) by (apply nth_In; lia).
  apply H in H0. apply negb_true_iff in H0. apply N.eqb_neq in H0. exact H0.
Qed.

(** An occurrence cannot begin before a marker and run into it. *)
Lemma starts_ci_straddle : forall p b mk t,
  first_unique p = true -> ci_equal mk p = true ->
  b <> [] -> List.length b < List.length p ->
  starts_ci p (b ++ mk ++ t) = false.
Proof.
  intros p b mk t Hu Hmk Hb Hlen.
  destruct (starts_ci p (b ++ mk ++ t)) eqn:E; [exfalso|reflexivity].
  pose proof (@starts_ci_nth _ _ E (List.length b) Hlen) as Hn.
  rewrite app_nth2 in Hn by lia. rewrite Nat.sub_diag in Hn.
  apply ci_equal_starts in Hmk. destruct Hmk as [Hs Hl].
  assert (Hp : 0 < List.length p) by (destruct b; [congruence|simpl in *; lia]).
  pose proof (@starts_ci_nth _ _ (@starts_ci_app _ _ t Hs) 0 Hp) as H0.
  assert (Hr : 0 < List.length b < List.length p).
  { split; [|assumption]. destruct b; [congruence|simpl; lia]. }
  apply (@first_unique_nth p (List.length b) Hu Hr). congruence.
Qed.

(** Before a marker, with no earlier occurrence, no occurrence
    begins. *)
Lemma no_start_before : forall p pre mk t a b,
  first_unique p = true -> ci_equal mk p = true ->
  occurs_ci p pre = false ->
  pre = a ++ b -> b <> [] ->
  starts_ci p (b ++ mk ++ t) = false.
Proof.
  intros p pre mk t a b Hu Hmk Hno -> Hb.
  destruct (Nat.lt_ge_cases (List.length b) (List.length p)) as [Hl|Hl].
  - apply starts_ci_straddle; auto.
  - rewrite starts_ci_app_long by assumption.
    destruct (starts_ci p b) eqn:E; [|reflexivity].
    rewrite (@occurs_ci_suffix p b (a ++ b)) in Hno; auto.
    exists a. reflexivity.
Qed.
End StringFacts.

Module AtomFacts.
Import JS Regex RegexSem RegexFacts ScanFacts StringFacts.

Lemma exec_at_atom : forall fl a prev c s,
  unicode fl = false ->
  exec_at fl (Atom a) prev (c :: s) =
  if atom_match fl a c then Some (1, None) else None.
Proof.
  intros fl a prev c s U. unfold exec_at. cbn [m].
  rewrite step_no_u by assumption. cbn [st_rest st_cap].
  destruct (atom_match fl a c); [|reflexivity].
  cbn [st_rest st_cap List.length]. f_equal. f_equal. lia.
Qed.

Lemma exec_at_atom_nil : forall fl a prev, exec_at fl (Atom a) prev [] = None.
Proof. reflexivity. Qed.

(** Deleting the matches of a one-character pattern is a filter. *)
Lemma scan_atom : forall fl a s prev,
  unicode fl = false ->
  flat_map (render []) (scan fl (Atom a) 0 0 prev s)
  = filter (fun c => negb (atom_match fl a c)) s.
Proof.
  intros fl a s. induction s as [|c s IH]; intros prev U.
  - reflexivity.
  - cbn [scan]. rewrite exec_at_atom by assumption.
    destruct (atom_match fl a c) eqn:E; cbn [filter negb]; rewrite ?E; cbn.
    + destruct s as [|d s'].
      * reflexivity.
      * rewrite <- (IH (Some c) U). reflexivity.
    + rewrite advance_no_u by assumption. cbn. f_equal. apply IH; auto.
Qed.

Lemma replace_atom_del : forall fl a s,
  unicode fl = false ->
  replace fl (Atom a) [] s = filter (fun c => negb (atom_match fl a c)) s.
Proof. intros. unfold replace. apply scan_atom. assumption. Qed.
End AtomFacts.

Module StepsFacts.
Import JS Regex RegexSem RegexFacts ScanFacts StringFacts.


Lemma steps_inv_no_u : forall fl a n st st',
  unicode fl = false ->
  steps fl a n st st' ->
  exists ws, st_rest st = ws ++ st_rest st'
             /\ forallb (atom_match fl a) ws = true
             /\ List.length ws = n.
Proof.
  intros fl a n st st' U H.
  induction H as [st|n st st1 st2 Hs _ IH].
  - exists []. auto.
  - destruct IH as (ws & E & F & L).
    rewrite step_no_u in Hs by assumption.
    destruct (st_rest st) as [|c t] eqn:R; [discriminate|].
    destruct (atom_match fl a c) eqn:A; [|discriminate].
    inversion Hs; subst st1. cbn [st_rest] in E.
    exists (c :: ws). cbn. rewrite A, F, E. auto.
Qed.

Lemma steps_intro : forall fl a ws prev t cap,
  unicode fl = false ->
  forallb (atom_match fl a) ws = true ->
  steps fl a (List.length ws) (mkState prev (ws ++ t) cap)
        (mkState (last_or prev ws) t cap).
Proof.
  intros fl a ws. induction ws as [|c ws IH]; intros prev t cap U F.
  - apply steps_O.
  - cbn in F. apply andb_prop in F. destruct F as [A F].
    cbn [List.length app]. eapply steps_S.
    + rewrite step_no_u by assumption. cbn [st_rest st_cap]. rewrite A.
      reflexivity.
    + rewrite last_or_cons. apply IH; assumption.
Qed.
End StepsFacts.

Module ThinkFacts.
Import JS Regex RegexSem RegexFacts ScanFacts StringFacts VoiceFormatter Spec.

Lemma think_block_needs_close : forall prev b,
  exec_at fl_i think_block prev b <> None -> occurs_ci CLOSE b = true.
Proof.
  intros prev b H. apply exec_at_some in H; [|reflexivity].
  destruct H as (st' & st1 & M1 & st2 & M2 & M3).
  apply matches_suffix in M1. apply matches_suffix in M2. cbn [st_rest] in M1.
  assert (S : starts_ci CLOSE (st_rest st2) = true).
  { apply (@lit_match_starts_ci fl_i CLOSE st2 eq_refl eq_refl).
    change (lit_match fl_i CLOSE st2 = Some st') in M3. congruence. }
  apply (@occurs_ci_suffix CLOSE (st_rest st2) b); [|exact S].
  eapply suffix_trans; eauto.
Qed.

Lemma think_block_attrs_needs_close : forall prev b,
  exec_at fl_i think_block_attrs prev b <> None -> occurs_ci CLOSE b = true.
Proof.
  intros prev b H. apply exec_at_some in H; [|reflexivity].
  destruct H as (st' & st1 & M1 & st2 & M2 & st3 & M3 & st4 & M4 & M5).
  apply matches_suffix in M1, M2, M3, M4. cbn [st_rest] in M1.
  assert (S : starts_ci CLOSE (st_rest st4) = true).
  { apply (@lit_match_starts_ci fl_i CLOSE st4 eq_refl eq_refl).
    change (lit_match fl_i CLOSE st4 = Some st') in M5. congruence. }
  apply (@occurs_ci_suffix CLOSE (st_rest st4) b); [|exact S].
  eapply suffix_trans; [exact M4|]. eapply suffix_trans; [exact M3|].
  eapply suffix_trans; [exact M2|exact M1].
Qed.

Lemma think_unclosed_inv : forall prev b n cap,
  exec_at fl_i think_unclosed prev b = Some (n, cap) ->
  starts_ci OPEN b = true /\ n = List.length b.
Proof.
  intros prev b n cap H. apply exec_at_inv in H; [|reflexivity].
  destruct H as (st' & (st1 & M1 & st2 & M2 & M3) & -> & _).
  split.
  - apply (@lit_match_starts_ci fl_i OPEN (mkState prev b None) eq_refl eq_refl).
    change (lit_match fl_i OPEN (mkState prev b None) = Some st1) in M1.
    congruence.
  - cbn [matches] in M3. destruct M3 as [E ->]. unfold at_eol in E. simpl in E.
    destruct (st_rest st2); [simpl; lia|discriminate].
Qed.

Lemma think_unclosed_complete : forall prev b,
  starts_ci OPEN b = true -> exec_at fl_i think_unclosed prev b <> None.
Proof.
  intros prev b H. apply exec_at_some; [reflexivity|].
  apply (@lit_match_starts_ci fl_i OPEN (mkState prev b None) eq_refl eq_refl) in H.
  destruct (lit_match fl_i OPEN (mkState prev b None)) as [[p1 s1 c1]|] eqn:E;
    [|congruence].
  exists (mkState (last_or p1 s1) [] c1), (mkState p1 s1 c1). split; [exact E|].
  exists (mkState (last_or p1 s1) [] c1). split.
  - exists (List.length s1). split; [|split; [lia|discriminate]].
    pose proof (@steps_any fl_i s1 p1 [] c1 eq_refl) as Hs.
    rewrite app_nil_r in Hs. exact Hs.
  - split; reflexivity.
Qed.

Lemma think_unclosed_all : forall prev b,
  starts_ci OPEN b = true ->
  exists cap, exec_at fl_i think_unclosed prev b = Some (List.length b, cap).
Proof.
  intros prev b H. pose proof (think_unclosed_complete prev b H) as Hc.
  destruct (exec_at fl_i think_unclosed prev b) as [[n cap]|] eqn:E;
    [|congruence].
  apply think_unclosed_inv in E. destruct E as [_ ->]. eauto.
Qed.

Section Unterminated.
Variables pre mk post : jsstring.
Hypothesis Hmk : ci_equal mk OPEN = true.
Hypothesis Hpre : occurs_ci OPEN pre = false.
Hypothesis Hclose : occurs_ci CLOSE (pre ++ mk ++ post) = false.


Lemma no_close_suffix : forall a b,
  (pre ++ mk ++ post) = a ++ b -> occurs_ci CLOSE b = false.
Proof.
  intros a b E. destruct (occurs_ci CLOSE b) eqn:O; [|reflexivity].
  rewrite E in Hclose.
  rewrite occurs_ci_app_r in Hclose; auto.
Qed.

Lemma block_id_text : replace fl_i think_block del (pre ++ mk ++ post) = (pre ++ mk ++ post).
Proof.
  apply replace_no_match. intros a b E.
  destruct (exec_at fl_i think_block (last_or None a) b) eqn:X; auto.
  assert (H : exec_at fl_i think_block (last_or None a) b <> None)
    by congruence.
  apply think_block_needs_close in H.
  rewrite (no_close_suffix _ _ E) in H. discriminate.
Qed.

Lemma attrs_id_text : replace fl_i think_block_attrs del (pre ++ mk ++ post) = (pre ++ mk ++ post).
Proof.
  apply replace_no_match. intros a b E.
  destruct (exec_at fl_i think_block_attrs (last_or None a) b) eqn:X; auto.
  assert (H : exec_at fl_i think_block_attrs (last_or None a) b <> None)
    by congruence.
  apply think_block_attrs_needs_close in H.
  rewrite (no_close_suffix _ _ E) in H. discriminate.
Qed.

Lemma unclosed_text : replace fl_i think_unclosed del (pre ++ mk ++ post) = pre.
Proof.
  assert (Hs : starts_ci OPEN (mk ++ post) = true).
  { apply starts_ci_app. apply ci_equal_starts in Hmk. tauto. }
  destruct (think_unclosed_all (last_or None pre) _ Hs) as [cap Hc].
  eapply replace_prefix_then_all; eauto.
  - intros a b E Hb.
    destruct (exec_at fl_i think_unclosed (last_or None a)
                      (b ++ mk ++ post)) as [[n c]|] eqn:X; auto.
    apply think_unclosed_inv in X. destruct X as [X _].
    rewrite (@no_start_before OPEN pre mk post a b) in X; auto.
    discriminate.
  - destruct mk; [discriminate|]. discriminate.
Qed.

Lemma occurs_close_pre : occurs_ci CLOSE pre = false.
Proof.
  destruct (occurs_ci CLOSE pre) eqn:O; [|reflexivity].
  rewrite occurs_ci_app_l in Hclose; auto.
Qed.

Lemma block_id_pre : replace fl_i think_block del pre = pre.
Proof.
  apply replace_no_match. intros a b E.
  destruct (exec_at fl_i think_block (last_or None a) b) eqn:X; auto.
  assert (H : exec_at fl_i think_block (last_or None a) b <> None)
    by congruence.
  apply think_block_needs_close in H.
  pose proof occurs_close_pre as O. rewrite E in O.
  rewrite occurs_ci_app_r in O; auto. discriminate.
Qed.

Lemma attrs_id_pre : replace fl_i think_block_attrs del pre = pre.
Proof.
  apply replace_no_match. intros a b E.
  destruct (exec_at fl_i think_block_attrs (last_or None a) b) eqn:X; auto.
  assert (H : exec_at fl_i think_block_attrs (last_or None a) b <> None)
    by congruence.
  apply think_block_attrs_needs_close in H.
  pose proof occurs_close_pre as O. rewrite E in O.
  rewrite occurs_ci_app_r in O; auto. discriminate.
Qed.

Lemma unclosed_id_pre : replace fl_i think_unclosed del pre = pre.
Proof.
  apply replace_no_match. intros a b E.
  destruct (exec_at fl_i think_unclosed (last_or None a) b)
    as [[n c]|] eqn:X; auto.
  apply think_unclosed_inv in X. destruct X as [X _].
  assert (O : occurs_ci OPEN (a ++ b) = true)
    by (apply (@occurs_ci_suffix OPEN b); [exists a; reflexivity|exact X]).
  rewrite E in Hpre. congruence.
Qed.

Lemma removeThinkTags_unterminated :
  removeThinkTags (pre ++ mk ++ post) = removeThinkTags pre.
Proof.
  unfold removeThinkTags, thinkPatterns.
  assert (Ht : isEmpty (pre ++ mk ++ post) = false).
  { destruct pre; [|reflexivity].
    destruct mk; [discriminate|reflexivity]. }
  rewrite Ht. cbn [fold_left fst snd].
  rewrite block_id_text, attrs_id_text, unclosed_text.
  destruct (isEmpty pre) eqn:Ep.
  - destruct pre; [reflexivity|discriminate].
  - rewrite block_id_pre, attrs_id_pre, unclosed_id_pre. reflexivity.
Qed.
End Unterminated.
End ThinkFacts.

Module SpanFacts.
Import JS Regex RegexSem RegexFacts ScanFacts StringFacts VoiceFormatter.
Import ThinkFacts Spec.

Lemma suffix_app_cases : forall (u x y : jsstring),
  suffix u (x ++ y) ->
  (exists a b, x = a ++ b /\ b <> [] /\ u = b ++ y) \/ suffix u y.
Proof.
  intros u x. revert u. induction x as [|c x IH]; intros u y [a E].
  - right. exists a. exact E.
  - destruct a as [|d a].
    + left. exists [], (c :: x). cbn in E. subst u.
      split; [reflexivity|]. split; [discriminate|reflexivity].
    + cbn in E. inversion E; subst d.
      destruct (IH u y) as [(a' & b & -> & Hb & ->)|S].
      * exists a. assumption.
      * left. exists (c :: a'), b. auto.
      * right. exact S.
Qed.

Lemma suffix_same_length : forall (u s : jsstring),
  suffix u s -> List.length s <= List.length u -> u = s.
Proof.
  intros u s [a ->] H. rewrite length_app in H.
  destruct a; [reflexivity|]. simpl in H. lia.
Qed.

Section Span.
Variables mo body mc : jsstring.
Hypothesis Hmo : ci_equal mo OPEN = true.
Hypothesis Hmc : ci_equal mc CLOSE = true.
Hypothesis Hbody : occurs_ci CLOSE body = false.


(** The only end marker in [body ++ mc] is [mc]. *)
Lemma close_only_at_end : forall u,
  suffix u (body ++ mc) -> starts_ci CLOSE u = true -> u = mc.
Proof.
  intros u S H. apply suffix_app_cases in S.
  destruct S as [(a & b & E & Hb & ->)|S].
  - pose proof (@no_start_before CLOSE body mc [] a b eq_refl Hmc Hbody E Hb)
      as N.
    rewrite app_nil_r in N. congruence.
  - apply suffix_same_length; auto.
    apply starts_ci_length in H. apply ci_equal_starts in Hmc.
    destruct Hmc as [_ L]. lia.
Qed.

Lemma think_block_whole : forall prev,
  exists cap,
    exec_at fl_i think_block prev (mo ++ body ++ mc) = Some (List.length (mo ++ body ++ mc), cap).
Proof.
  intros prev.
  pose proof (ci_equal_starts _ _ Hmo) as [So Lo].
  pose proof (ci_equal_starts _ _ Hmc) as [Sc Lc].
  assert (Hc : exec_at fl_i think_block prev (mo ++ body ++ mc) <> None).
  { apply exec_at_some; [reflexivity|].
    destruct (lit_match fl_i OPEN (mkState prev (mo ++ body ++ mc) None))
      as [[p1 s1 c1]|] eqn:E1.
    2:{ exfalso. revert E1.
        apply (@lit_match_starts_ci fl_i OPEN (mkState prev (mo ++ body ++ mc) None)
                 eq_refl eq_refl).
        apply starts_ci_app. exact So. }
    pose proof (@lit_match_rest fl_i OPEN _ _ eq_refl E1) as [R1 _].
    cbn [st_rest] in R1. 
    rewrite <- Lo, skipn_app, skipn_all, Nat.sub_diag in R1.
    cbn [skipn app] in R1. subst s1.
    destruct (lit_match fl_i CLOSE (mkState (last_or p1 body) mc c1))
      as [st3|] eqn:E3.
    2:{ exfalso. revert E3.
        apply (@lit_match_starts_ci fl_i CLOSE
                 (mkState (last_or p1 body) mc c1) eq_refl eq_refl).
        exact Sc. }
    exists st3, (mkState p1 (body ++ mc) c1). split; [exact E1|].
    exists (mkState (last_or p1 body) mc c1). split; [|exact E3].
    exists (List.length body). split; [|split; [lia|discriminate]].
    apply steps_any. reflexivity. }
  destruct (exec_at fl_i think_block prev (mo ++ body ++ mc)) as [[n cap]|] eqn:E;
    [|congruence].
  exists cap. f_equal. f_equal.
  apply exec_at_inv in E; [|reflexivity].
  destruct E as (st' & (st1 & M1 & st2 & M2 & M3) & -> & _).
  change (lit_match fl_i OPEN (mkState prev (mo ++ body ++ mc) None) = Some st1) in M1.
  change (lit_match fl_i CLOSE st2 = Some st') in M3.
  pose proof (@lit_match_rest fl_i OPEN _ _ eq_refl M1) as [R1 _].
  cbn [st_rest] in R1. 
  rewrite <- Lo, skipn_app, skipn_all, Nat.sub_diag in R1.
  cbn [skipn app] in R1.
  apply matches_suffix in M2. rewrite R1 in M2.
  assert (S2 : starts_ci CLOSE (st_rest st2) = true).
  { apply (@lit_match_starts_ci fl_i CLOSE st2 eq_refl eq_refl).
    congruence. }
  pose proof (close_only_at_end M2 S2) as E2.
  pose proof (@lit_match_rest fl_i CLOSE _ _ eq_refl M3) as [R3 _].
  rewrite E2, <- Lc, skipn_all in R3. rewrite R3. cbn [List.length]. lia.
Qed.

Lemma think_block_removes_span : replace fl_i think_block del (mo ++ body ++ mc) = [].
Proof.
  destruct (think_block_whole None) as [cap H].
  change (mo ++ body ++ mc) with ([] ++ (mo ++ body ++ mc)).
  eapply replace_prefix_then_all; eauto.
  - intros a b E. symmetry in E. apply app_eq_nil in E.
    destruct E; subst. congruence.
  - destruct mo; [discriminate|discriminate].
Qed.

Lemma removeThinkTags_span : removeThinkTags (mo ++ body ++ mc) = [].
Proof.
  unfold removeThinkTags, thinkPatterns.
  assert (Ht : isEmpty (mo ++ body ++ mc) = false).
  { destruct mo; [discriminate|reflexivity]. }
  rewrite Ht. cbn [fold_left fst snd].
  rewrite think_block_removes_span. reflexivity.
Qed.
End Span.
End SpanFacts.

Module LengthFacts.
Import JS Regex VoiceFormatter.

Lemma len_app : forall a b, len (a ++ b) = (len a + len b)%Z.
Proof. intros a b. unfold len. rewrite length_app. lia. Qed.

Lemma len_nonneg : forall a, (0 <= len a)%Z.
Proof. intros a. unfold len. lia. Qed.

Lemma trimStart_length : forall s,
  List.length (trimStart s) <= List.length s.
Proof.
  induction s as [|c s IH]; simpl; [lia|].
  destruct (isSpace c); simpl; lia.
Qed.

Lemma trim_length : forall s, (len (trim s) <= len s)%Z.
Proof.
  intros s. unfold len, trim, trimEnd. rewrite length_rev.
  pose proof (trimStart_length (rev (trimStart s))) as H1.
  rewrite length_rev in H1. pose proof (trimStart_length s). lia.
Qed.

Lemma sep_len : forall result : jsstring,
  (len (if isEmpty result then [] else js " ") <= 1)%Z.
Proof. intros [|c r]; cbn; lia. Qed.

(** The sentence loop checks the length without the joining space, so
    its result may exceed the limit by that one space. *)
Lemma sentence_loop_bound : forall maxLength sentences result,
  (len result <= maxLength + 1)%Z ->
  (len (sentence_loop maxLength sentences result) <= maxLength + 1)%Z.
Proof.
  intros maxLength sentences.
  induction sentences as [|s rest IH]; intros result H;
    cbn [sentence_loop]; [exact H|].
  destruct (isEmpty (trim s)); [apply IH; exact H|].
  destruct (len (result ++ trim s ++ js ".") >? maxLength)%Z eqn:E;
    [exact H|].
  apply IH. rewrite Z.gtb_ltb in E. apply Z.ltb_ge in E.
  destruct (isEmpty result); rewrite !len_app in *;
    change (len (js ".")) with 1%Z in *;
    change (len (js " ")) with 1%Z in *;
    change (len []) with 0%Z in *; lia.
Qed.

Lemma word_loop_bound : forall maxLength words result,
  (len result <= maxLength)%Z ->
  (len (word_loop maxLength words result) <= maxLength)%Z.
Proof.
  intros maxLength words.
  induction words as [|wd rest IH]; intros result H;
    cbn [word_loop]; [exact H|].
  destruct (len result <? maxLength)%Z; [|exact H].
  destruct (len (result ++ js " " ++ wd) >? maxLength)%Z eqn:E; [exact H|].
  apply IH. rewrite Z.gtb_ltb in E. apply Z.ltb_ge in E.
  destruct (isEmpty result); rewrite !len_app in *;
    change (len (js " ")) with 1%Z in *;
    change (len []) with 0%Z in *; pose proof (len_nonneg wd); lia.
Qed.

Lemma substring0_bound : forall s n,
  (0 <= n)%Z -> (len (substring0 s n) <= n)%Z.
Proof.
  intros s n H. unfold len, substring0. rewrite length_firstn. lia.
Qed.

Lemma limitLength_bound : forall text maxLength,
  (0 <= maxLength)%Z ->
  (len (limitLength text maxLength) <= maxLength + 1)%Z.
Proof.
  intros text maxLength H. unfold limitLength.
  destruct (len text <=? maxLength)%Z eqn:E.
  - apply Z.leb_le in E. lia.
  - set (sentences := Regex.split _ _ _).
    pose proof (@sentence_loop_bound maxLength sentences []) as HS.
    set (r1 := sentence_loop maxLength sentences []) in *.
    assert (HR : (len (if (len r1 =? 0)%Z
                       then word_loop maxLength (JS.split text 32) r1
                              ++ js "."
                       else r1) <= maxLength + 1)%Z).
    { destruct (len r1 =? 0)%Z eqn:E0.
      - rewrite len_app. change (len (js ".")) with 1%Z.
        apply Z.eqb_eq in E0.
        pose proof (@word_loop_bound maxLength (JS.split text 32) r1).
        lia.
      - apply HS. cbn. lia. }
    destruct (isEmpty _); [|exact HR].
    pose proof (@substring0_bound text maxLength H). lia.
Qed.
End LengthFacts.

Module ValidateFacts.
Import JS Regex RegexSem RegexFacts ScanFacts StringFacts StepsFacts.
Import APIClient Spec.


Lemma space_class : forall c, atom_match noflags space c = isSpace c.
Proof. intros c. cbn. apply orb_false_r. Qed.



Lemma eqb_eq : forall a b, JS.eqb a b = true <-> a = b.
Proof.
  intros a b. unfold JS.eqb.
  destruct (list_eq_dec N.eq_dec a b); split; congruence.
Qed.

Lemma in_pushIf : forall (b : bool) (x y : jsstring) l,
  In x (pushIf b y l) <-> In x l \/ (b = true /\ x = y).
Proof.
  intros b x y l. unfold pushIf. destruct b.
  - rewrite in_app_iff. simpl. intuition.
  - intuition. discriminate.
Qed.

Lemma issues_distinct :
  INCOMPLETE_THINK <> NON_INDONESIAN /\ INCOMPLETE_THINK <> TRUNCATED
  /\ NON_INDONESIAN <> TRUNCATED.
Proof. repeat split; intro H; vm_compute in H; discriminate H. Qed.
End ValidateFacts.

Module NumFacts.
Import Num APIClient Spec.

Lemma SFcompare_refl : forall a,
  isNaN a = false -> SFcompare a a = Some Eq.
Proof.
  intros [[]|[]| |[] m e] H; try discriminate; cbn; try reflexivity;
    rewrite Z.compare_refl, Pos.compare_cont_refl; reflexivity.
Qed.

Lemma SFcompare_antisym : forall a b,
  SFcompare b a = option_map CompOpp (SFcompare a b).
Proof.
  intros [[]|[]| |[] ma ea] [[]|[]| |[] mb eb]; cbn; try reflexivity;
    rewrite (Z.compare_antisym ea eb);
    destruct (Z.compare ea eb); cbn; try reflexivity;
    rewrite (Pos.compare_cont_antisym ma mb Eq); cbn;
    destruct (Pos.compare_cont Eq ma mb); reflexivity.
Qed.

Lemma SFcompare_some : forall a b,
  isNaN a = false -> isNaN b = false -> exists c, SFcompare a b = Some c.
Proof.
  intros [[]|[]| |[] ma ea] [[]|[]| |[] mb eb] Ha Hb;
    try discriminate; cbn; eauto.
Qed.

Lemma leb_refl : forall a, isNaN a = false -> leb a a = true.
Proof.
  intros a H. unfold leb, SFleb. rewrite SFcompare_refl by assumption.
  reflexivity.
Qed.

Lemma not_ltb_leb : forall a b,
  isNaN a = false -> isNaN b = false -> ltb a b = false -> leb b a = true.
Proof.
  intros a b Ha Hb H. unfold ltb, leb, SFltb, SFleb in *.
  rewrite SFcompare_antisym.
  destruct (SFcompare_some a b Ha Hb) as [c E]. rewrite E in *. cbn.
  destruct c; try reflexivity. discriminate.
Qed.

Lemma ltb_leb : forall a b, ltb a b = true -> leb a b = true.
Proof.
  intros a b H. unfold ltb, leb, SFltb, SFleb in *.
  destruct (SFcompare a b) as [[]|]; try discriminate; reflexivity.
Qed.

Lemma Math_max_not_nan : forall a b,
  isNaN a = false -> isNaN b = false -> isNaN (Math_max a b) = false.
Proof.
  intros a b Ha Hb. unfold Math_max. rewrite Ha, Hb. cbn [orb].
  destruct a as [[]|[]| |[] ma ea], b as [[]|[]| |[] mb eb];
    try discriminate; try reflexivity;
    match goal with |- context [ltb ?x ?y] => destruct (ltb x y) end;
    reflexivity.
Qed.

Lemma Math_min_not_nan : forall a b,
  isNaN a = false -> isNaN b = false -> isNaN (Math_min a b) = false.
Proof.
  intros a b Ha Hb. unfold Math_min. rewrite Ha, Hb. cbn [orb].
  destruct a as [[]|[]| |[] ma ea], b as [[]|[]| |[] mb eb];
    try discriminate; try reflexivity;
    match goal with |- context [ltb ?x ?y] => destruct (ltb x y) end;
    reflexivity.
Qed.

(** [Math.max(a, b)] is at least [b], and [Math.min(a, b)] at most [b]. *)
Lemma Math_max_ge : forall a b,
  isNaN a = false -> isNaN b = false -> leb b (Math_max a b) = true.
Proof.
  intros a b Ha Hb. unfold Math_max. rewrite Ha, Hb. cbn [orb].
  assert (G : leb b (if ltb a b then b else a) = true).
  { destruct (ltb a b) eqn:E.
    - apply leb_refl; assumption.
    - apply not_ltb_leb; assumption. }
  destruct a as [[]|[]| |[] ma ea]; try exact G;
    destruct b as [[]|[]| |[] mb eb]; try exact G; reflexivity.
Qed.

Lemma Math_min_le : forall a b,
  isNaN a = false -> isNaN b = false -> leb (Math_min a b) b = true.
Proof.
  intros a b Ha Hb. unfold Math_min. rewrite Ha, Hb. cbn [orb].
  assert (G : leb (if ltb b a then b else a) b = true).
  { destruct (ltb b a) eqn:E.
    - apply leb_refl; assumption.
    - apply not_ltb_leb; assumption. }
  destruct a as [[]|[]| |[] ma ea]; try exact G;
    destruct b as [[]|[]| |[] mb eb]; try exact G; reflexivity.
Qed.

(** [Math.min(a, b)] stays above a bound that both [a] and [b] are
    above. *)
Lemma Math_min_ge : forall lo a b,
  isNaN a = false -> isNaN b = false ->
  leb lo a = true -> leb lo b = true -> leb lo (Math_min a b) = true.
Proof.
  intros lo a b Ha Hb La Lb. unfold Math_min. rewrite Ha, Hb. cbn [orb].
  assert (G : leb lo (if ltb b a then b else a) = true)
    by (destruct (ltb b a); assumption).
  destruct a as [[]|[]| |[] ma ea]; try exact G;
    destruct b as [[]|[]| |[] mb eb]; try exact G; assumption.
Qed.

Lemma validateConfig_ok : forall config,
  numeric config -> config_ok (validateConfig config).
Proof.
  intros config [Hm Ht]. unfold config_ok, validateConfig.
  cbn [maxTokens temperature]. repeat split.
  - apply Math_max_ge; auto.
  - apply Math_min_ge; auto.
    + apply Math_max_not_nan; auto.
    + apply Math_max_ge; auto.
  - apply Math_min_le; auto. apply Math_max_not_nan; auto.
Qed.
End NumFacts.

Module SanitizerFacts.
Import JS Regex RegexSem VoiceFormatter Spec AtomFacts LengthFacts.

Lemma when_nil : forall b f, f [] = [] -> when b f [] = [].
Proof. intros [] f H; simpl; auto. Qed.

(** Nothing comes of the empty text. *)
Lemma formatForVoice_nil : forall config,
  (forall n, Config.maxLength config = Some n -> (0 <= n)%Z) ->
  formatForVoice config [] = [].
Proof.
  intros config Hn. unfold formatForVoice.
  repeat rewrite when_nil by reflexivity.
  replace (cleanupText []) with (@nil N) by reflexivity.
  destruct (Config.maxLength config) as [n|]; [|reflexivity].
  specialize (Hn n eq_refl). cbn [truthy_length].
  destruct (n =? 0)%Z; [reflexivity|].
  unfold limitLength. change (len []) with 0%Z.
  apply Z.leb_le in Hn. rewrite Hn. reflexivity.
Qed.

(** The exported singleton differs from the default configuration in
    its [debug] flag only, which the result does not depend on. *)
Lemma formatForVoice_singleton : forall text,
  formatForVoice voiceFormatter text
  = formatForVoice DEFAULT_VOICE_CONFIG text.
Proof. intros text. reflexivity. Qed.

Lemma readableChars_count : forall s,
  readableChars s = len (filter readable s).
Proof.
  intros s. unfold readableChars. rewrite replace_atom_del by reflexivity.
  f_equal. apply filter_ext. intros c. cbn. unfold readable.
  destruct (isWordChar c), (isSpace c), (c =? 46)%N, (c =? 44)%N,
    (c =? 33)%N, (c =? 63)%N; reflexivity.
Qed.

Lemma trim_nil_iff : forall s, isEmpty (trim s) = true <-> trim s = [].
Proof. intros s. destruct (trim s); simpl; split; congruence. Qed.

Lemma isEmpty_iff : forall s, isEmpty s = true <-> s = [].
Proof. intros [|c s]; simpl; split; congruence. Qed.
End SanitizerFacts.

Module RetryFacts.
Import JS Regex Num APIClient Spec ValidateFacts.

Lemma includes_iff : forall l x, includes l x = true <-> In x l.
Proof.
  intros l x. unfold includes. rewrite existsb_exists. split.
  - intros (y & Hy & E). apply eqb_eq in E. subst. exact Hy.
  - intros H. exists x. split; auto. apply eqb_eq. reflexivity.
Qed.

Lemma seriousIssues_iff : forall response,
  seriousIssues (validateResponse response) = true <->
  In INCOMPLETE_THINK (issues (validateResponse response))
  \/ In NON_INDONESIAN (issues (validateResponse response)).
Proof.
  intros response. unfold seriousIssues.
  rewrite andb_true_iff, orb_true_iff, !includes_iff. split; [tauto|].
  intros H. split; auto.
  apply negb_true_iff. unfold validateResponse at 1. cbn [isComplete].
  apply Nat.eqb_neq. intros E. apply length_zero_iff_nil in E.
  fold (issues (validateResponse response)) in E.
  cbn [issues validateResponse] in H. rewrite E in H.
  destruct H as [[]|[]].
Qed.

Lemma incomplete_flagged : forall response,
  (closeThinkTags response < openThinkTags response)%nat ->
  In INCOMPLETE_THINK (issues (validateResponse response)).
Proof.
  intros response H. unfold validateResponse. cbn [issues].
  rewrite !in_pushIf. left. left. right. split; auto.
  apply Nat.ltb_lt. exact H.
Qed.

(** The retry: one request, the client untouched. *)
Lemma sendSimpleMessage_spec : forall this w msg history,
  sent (snd (sendSimpleMessage this w msg history))
  = sent w ++ [simpleRequest this msg]
  /\ snd (fst (sendSimpleMessage this w msg history)) = this
  /\ message (fst (fst (sendSimpleMessage this w msg history)))
     = retryMessage (backend w (List.length (sent w))
                             (simpleRequest this msg))
  /\ success (fst (fst (sendSimpleMessage this w msg history)))
     = retrySuccess (backend w (List.length (sent w))
                             (simpleRequest this msg)).
Proof.
  intros this w msg history.
  unfold sendSimpleMessage. cbn [fetch].
  destruct (backend w _ _); cbn; auto.
Qed.

Section Turn.
Variables (this : client) (w : world) (msg : jsstring)
          (history : list ChatMessage) (data : OllamaResponse).

Hypothesis Hout :
  backend w (List.length (sent w))
          (primaryRequest this (random w (List.length (sent w)))
                          msg history)
  = Json data.

Lemma sendMessage_json :
  sendMessage this w msg history =
  if seriousIssues (validateResponse (response data))
  then sendSimpleMessage
         (updateContext this data)
         (snd (fetch w (primaryRequest
                          this (random w (List.length (sent w)))
                          msg history)))
         msg history
  else (mkChatResponse (cleaned (validateResponse (response data)))
                       true None,
        updateContext this data,
        snd (fetch w (primaryRequest
                        this (random w (List.length (sent w)))
                        msg history))).
Proof.
  unfold sendMessage. cbn [fetch snd]. rewrite Hout. reflexivity.
Qed.

(** A flagged reply: one retry, whose result is the result. *)
Lemma sendMessage_retry :
  In INCOMPLETE_THINK (issues (validateResponse (response data)))
  \/ In NON_INDONESIAN (issues (validateResponse (response data))) ->
  sent (snd (sendMessage this w msg history))
  = sent w ++ [primaryRequest this (random w (List.length (sent w)))
                              msg history;
               simpleRequest (updateContext this data) msg]
  /\ message (fst (fst (sendMessage this w msg history)))
     = retryMessage
         (backend w (S (List.length (sent w)))
                  (simpleRequest (updateContext this data) msg))
  /\ success (fst (fst (sendMessage this w msg history)))
     = retrySuccess
         (backend w (S (List.length (sent w)))
                  (simpleRequest (updateContext this data) msg)).
Proof.
  intros H. apply seriousIssues_iff in H.
  rewrite sendMessage_json, H.
  match goal with
    |- context [sendSimpleMessage ?t ?w' ?m ?h] =>
      pose proof (sendSimpleMessage_spec t w' m h) as S
  end.
  cbn [fetch snd sent backend] in S. cbn [fetch snd].
  rewrite length_app in S. cbn [List.length] in S.
  rewrite Nat.add_1_r in S.
  destruct S as (S1 & _ & S3 & S4).
  split; [rewrite S1, <- app_assoc; reflexivity|]. split; assumption.
Qed.

(** Any other reply: no retry. *)
Lemma sendMessage_plain :
  ~ (In INCOMPLETE_THINK (issues (validateResponse (response data)))
     \/ In NON_INDONESIAN (issues (validateResponse (response data)))) ->
  sendMessage this w msg history
  = (mkChatResponse (cleaned (validateResponse (response data)))
                    true None,
     updateContext this data,
     snd (fetch w (primaryRequest
                     this (random w (List.length (sent w)))
                     msg history))).
Proof.
  intros H. rewrite <- seriousIssues_iff in H.
  apply not_true_is_false in H.
  rewrite sendMessage_json, H. reflexivity.
Qed.
End Turn.
End RetryFacts.

(** ** The sanitizer *)

Module SanitizerProps.
Import JS Regex RegexSem VoiceFormatter Spec.
Import ThinkFacts SpanFacts LengthFacts SanitizerFacts.

(** C1.  An unterminated reasoning span: the text holds a start marker
    [mk] (the first one, written in any letter case, as the sanitizer
    recognizes it) and no end marker.  With reasoning-span removal
    enabled the sanitizer returns exactly what it returns for the text
    before the marker: everything from the marker to the end is
    removed, and nothing after the marker has any influence.  When
    nothing precedes the marker the output is empty. *)
Theorem unterminated_span_removed : forall config pre mk post,
  Config.removeThinkTags config = true ->
  ci_equal mk OPEN = true ->
  occurs_ci OPEN pre = false ->
  occurs_ci CLOSE (pre ++ mk ++ post) = false ->
  formatForVoice config (pre ++ mk ++ post) = formatForVoice config pre
  /\ (pre = [] ->
      (forall n, Config.maxLength config = Some n -> (0 <= n)%Z) ->
      formatForVoice config (pre ++ mk ++ post) = []).
Proof.
  intros config pre mk post Hcfg Hmk Hpre Hclose.
  assert (E : formatForVoice config (pre ++ mk ++ post)
              = formatForVoice config pre).
  { unfold formatForVoice. rewrite Hcfg.
    change (when true removeThinkTags (pre ++ mk ++ post))
      with (removeThinkTags (pre ++ mk ++ post)).
    change (when true removeThinkTags pre) with (removeThinkTags pre).
    rewrite (removeThinkTags_unterminated pre mk post Hmk Hpre Hclose).
    reflexivity. }
  split; [exact E|].
  intros -> Hn. rewrite E. apply formatForVoice_nil. exact Hn.
Qed.

Lemma unterminated_span_removed_witness :
  Config.removeThinkTags DEFAULT_VOICE_CONFIG = true
  /\ ci_equal OPEN OPEN = true
  /\ occurs_ci OPEN (js "Halo, apa kabar? ") = false
  /\ occurs_ci CLOSE (js "Halo, apa kabar? " ++ OPEN ++ js "user menyapa")
     = false
  /\ formatForVoice DEFAULT_VOICE_CONFIG
       (js "Halo, apa kabar? " ++ OPEN ++ js "user menyapa")
     = formatForVoice DEFAULT_VOICE_CONFIG (js "Halo, apa kabar? ").
Proof.
  repeat (split; [reflexivity|]).
  apply (unterminated_span_removed DEFAULT_VOICE_CONFIG
           (js "Halo, apa kabar? ") OPEN (js "user menyapa"));
    reflexivity.
Defined.

(** C5.  With a maximum length [N >= 1] configured, the sanitized text
    is at most [N + 1] code units long: the sentence stage may exceed
    the limit by the one joining space it does not count, the word
    stage by its closing period, and the hard truncation not at all. *)
Theorem formatForVoice_length : forall config text N,
  Config.maxLength config = Some N -> (1 <= N)%Z ->
  (len (formatForVoice config text) <= N + 1)%Z.
Proof.
  intros config text N Hmax HN. unfold formatForVoice. rewrite Hmax.
  unfold truthy_length. destruct (N =? 0)%Z eqn:E0.
  - apply Z.eqb_eq in E0. lia.
  - eapply Z.le_trans; [apply trim_length|].
    apply limitLength_bound. lia.
Qed.

Lemma formatForVoice_length_witness :
  Config.maxLength DEFAULT_VOICE_CONFIG = Some 500%Z
  /\ (1 <= 500)%Z
  /\ (len (formatForVoice DEFAULT_VOICE_CONFIG (js "Halo! Apa kabar?"))
      <= 500 + 1)%Z.
Proof.
  split; [reflexivity|]. split; [lia|].
  apply (formatForVoice_length DEFAULT_VOICE_CONFIG
           (js "Halo! Apa kabar?") (N:=500%Z)); [reflexivity|lia].
Defined.

(** The bound of C5 is reached. *)
Example formatForVoice_length_tight :
  formatForVoice (Config.mk false false false false false (Some 4%Z) false)
                 (js "a. b. c") = js "a. b.".
Proof. vm_compute. reflexivity. Qed.

(** C6.  [isVoiceSuitable] is false exactly when the text sanitized
    under the default configuration is empty or only whitespace, or
    when at most half of its code units are readable (word
    characters, whitespace, [. , ! ?]).  The empty text is unsuitable,
    and so is a text that is one reasoning span and nothing else: it
    sanitizes to the empty text. *)
Theorem isVoiceSuitable_false_iff :
  (forall text,
     isVoiceSuitable text = false <->
     trim (formatForVoice DEFAULT_VOICE_CONFIG text) = []
     \/ (2 * len (filter readable
                         (formatForVoice DEFAULT_VOICE_CONFIG text))
         <= len (formatForVoice DEFAULT_VOICE_CONFIG text))%Z)
  /\ isVoiceSuitable [] = false
  /\ (forall body,
        occurs_ci CLOSE body = false ->
        formatForVoice DEFAULT_VOICE_CONFIG (OPEN ++ body ++ CLOSE) = []
        /\ isVoiceSuitable (OPEN ++ body ++ CLOSE) = false).
Proof.
  split; [|split].
  - intros text. unfold isVoiceSuitable, isSuitableForVoice.
    rewrite formatForVoice_singleton.
    generalize (formatForVoice DEFAULT_VOICE_CONFIG text). intros cleaned.
    rewrite readableChars_count.
    destruct (isEmpty (trim cleaned)) eqn:E.
    + apply trim_nil_iff in E. tauto.
    + assert (N : trim cleaned <> []).
      { intros H. rewrite H in E. discriminate. }
      assert (P : (0 < len cleaned)%Z).
      { pose proof (trim_length cleaned).
        destruct (trim cleaned); [congruence|]. unfold len in *.
        cbn [List.length] in *. lia. }
      rewrite andb_false_iff, !Z.gtb_ltb, !Z.ltb_ge. split.
      * intros [H|H]; [lia|auto].
      * intros [H|H]; [contradiction|auto].
  - reflexivity.
  - intros body Hbody.
    assert (E : formatForVoice DEFAULT_VOICE_CONFIG
                  (OPEN ++ body ++ CLOSE) = []).
    { unfold formatForVoice, DEFAULT_VOICE_CONFIG, when.
      cbn [Config.removeThinkTags Config.removeMarkdown
           Config.removeEmoticons Config.normalizeNumbers
           Config.normalizePunctuation Config.maxLength].
      rewrite (@removeThinkTags_span OPEN body CLOSE
                 eq_refl eq_refl Hbody).
      reflexivity. }
    split; [exact E|].
    unfold isVoiceSuitable, isSuitableForVoice.
    rewrite formatForVoice_singleton, E. reflexivity.
Qed.

Lemma isVoiceSuitable_false_iff_witness :
  occurs_ci CLOSE (js "only reasoning") = false
  /\ formatForVoice DEFAULT_VOICE_CONFIG
       (OPEN ++ js "only reasoning" ++ CLOSE) = []
  /\ isVoiceSuitable (OPEN ++ js "only reasoning" ++ CLOSE) = false.
Proof.
  split; [reflexivity|].
  apply (proj2 (proj2 isVoiceSuitable_false_iff) (js "only reasoning")).
  reflexivity.
Defined.

(** C7, as stated, fails.  The text below holds no markup, no markdown
    and no emoticon the sanitizer recognizes; the cleanup stage drops
    its apostrophe, which leaves an emoticon that only a second pass
    removes. *)
Lemma formatForVoice_not_idempotent :
  removeThinkTags (js "Halo :'(") = js "Halo :'("
  /\ removeMarkdown (js "Halo :'(") = js "Halo :'("
  /\ removeEmoticons (js "Halo :'(") = js "Halo :'("
  /\ formatForVoice DEFAULT_VOICE_CONFIG (js "Halo :'(") = js "Halo :("
  /\ formatForVoice DEFAULT_VOICE_CONFIG
       (formatForVoice DEFAULT_VOICE_CONFIG (js "Halo :'(")) = js "Halo"
  /\ formatForVoice DEFAULT_VOICE_CONFIG
       (formatForVoice DEFAULT_VOICE_CONFIG (js "Halo :'("))
     <> formatForVoice DEFAULT_VOICE_CONFIG (js "Halo :'(").
Proof.
  vm_compute. repeat split; try reflexivity. discriminate.
Qed.
End SanitizerProps.

(** ** The validator *)

Module ValidatorProps.
Import JS Regex APIClient Spec ValidateFacts SanitizerFacts.



(** C9.  [validateResponse] gives every response a result whose
    [cleaned] text is not empty: when the cleanup leaves nothing, or
    only the bare prefix [Asistenqu:], the clarification phrase takes
    its place, and otherwise the cleaned-up text is kept.  The result
    is complete exactly when no issue is listed, and only the three
    known issues are ever listed. *)
Theorem validateResponse_cleaned : forall response,
  cleaned (validateResponse response) <> []
  /\ (cleanedBeforeFallback response = []
      \/ cleanedBeforeFallback response = js "Asistenqu:" ->
      cleaned (validateResponse response) = CLARIFICATION)
  /\ (cleanedBeforeFallback response <> [] ->
      cleanedBeforeFallback response <> js "Asistenqu:" ->
      cleaned (validateResponse response) = cleanedBeforeFallback response)
  /\ (isComplete (validateResponse response) = true <->
      issues (validateResponse response) = [])
  /\ (forall i, In i (issues (validateResponse response)) ->
        i = INCOMPLETE_THINK \/ i = NON_INDONESIAN \/ i = TRUNCATED).
Proof.
  intros response. unfold validateResponse.
  cbn [cleaned isComplete issues].
  set (c := cleanedBeforeFallback response).
  repeat split.
  - destruct (isEmpty c) eqn:E1; cbn [orb].
    + intro H. vm_compute in H. discriminate H.
    + destruct (JS.eqb c (js "Asistenqu:")).
      * intro H. vm_compute in H. discriminate H.
      * intro H. rewrite H in E1. discriminate.
  - intros [H|H]; rewrite H; reflexivity.
  - intros H1 H2.
    destruct (isEmpty c) eqn:E1.
    + apply isEmpty_iff in E1. contradiction.
    + destruct (JS.eqb c (js "Asistenqu:")) eqn:E2; [|reflexivity].
      apply eqb_eq in E2. contradiction.
  - intros H. apply Nat.eqb_eq in H. apply length_zero_iff_nil in H. exact H.
  - intros H. rewrite H. reflexivity.
  - intros i H. rewrite !in_pushIf in H. simpl in H. intuition.
Qed.

Lemma validateResponse_cleaned_witness :
  cleanedBeforeFallback (js "  Asistenqu: ") = js "Asistenqu:"
  /\ cleaned (validateResponse (js "  Asistenqu: ")) = CLARIFICATION.
Proof.
  split; [vm_compute; reflexivity|].
  apply (proj1 (proj2 (validateResponse_cleaned (js "  Asistenqu: ")))).
  right. vm_compute. reflexivity.
Defined.
End ValidatorProps.

(** ** The retry controller *)

Module RetryProps.
Import JS Regex Num APIClient Spec ValidateFacts RetryFacts.

(** C3.  When the backend answers the primary request, [sendMessage]
    retries exactly when validation lists the incomplete-span issue or
    the foreign-script issue: then two requests are sent, the second
    being the simple one, and the retry's message and flag are
    returned as they are, the greeting with [success = false] when
    the retry call fails.  Otherwise one request is sent and the
    cleaned text is returned; truncation alone never causes a
    retry. *)
Theorem retry_policy : forall this w msg history data,
  backend w (List.length (sent w))
          (primaryRequest this (random w (List.length (sent w)))
                          msg history)
  = Json data ->
  let v := validateResponse (response data) in
  let rq1 :=
    primaryRequest this (random w (List.length (sent w))) msg history in
  let rq2 := simpleRequest (updateContext this data) msg in
  let out2 := backend w (S (List.length (sent w))) rq2 in
  let res := sendMessage this w msg history in
  (In INCOMPLETE_THINK (issues v) \/ In NON_INDONESIAN (issues v) ->
     sent (snd res) = sent w ++ [rq1; rq2]
     /\ message (fst (fst res)) = retryMessage out2
     /\ success (fst (fst res)) = retrySuccess out2
     /\ (forall e, out2 = NetworkError e ->
           message (fst (fst res)) = GREETING
           /\ success (fst (fst res)) = false)
     /\ (forall status text, out2 = HttpError status text ->
           message (fst (fst res)) = GREETING
           /\ success (fst (fst res)) = false))
  /\ (~ (In INCOMPLETE_THINK (issues v) \/ In NON_INDONESIAN (issues v)) ->
        sent (snd res) = sent w ++ [rq1]
        /\ fst (fst res) = mkChatResponse (cleaned v) true None)
  /\ (issues v = [TRUNCATED] -> sent (snd res) = sent w ++ [rq1]).
Proof.
  intros this w msg history data Hout v rq1 rq2 out2 res.
  split; [|split].
  - intros H.
    destruct (@sendMessage_retry this w msg history data Hout H)
      as (S1 & S3 & S4).
    split; [exact S1|]. split; [exact S3|]. split; [exact S4|].
    unfold res. rewrite S3, S4. fold rq2 out2.
    split.
    + intros e E. rewrite E. split; reflexivity.
    + intros status text E. rewrite E. split; reflexivity.
  - intros H. unfold res.
    rewrite (@sendMessage_plain this w msg history data Hout H).
    split; reflexivity.
  - intros H. unfold res.
    rewrite (@sendMessage_plain this w msg history data Hout);
      [reflexivity|].
    fold v. rewrite H. intros [[E|[]]|[E|[]]];
      destruct issues_distinct as (_ & D2 & D3); congruence.
Qed.

Lemma retry_policy_witness :
  backend failing_world (List.length (sent failing_world))
          (primaryRequest (constructor default_ai)
                          (random failing_world
                                  (List.length (sent failing_world)))
                          (js "halo") [])
  = Json cjk_reply
  /\ message (fst (fst (sendMessage (constructor default_ai) failing_world
                                    (js "halo") []))) = GREETING
  /\ success (fst (fst (sendMessage (constructor default_ai) failing_world
                                    (js "halo") []))) = false.
Proof.
  split; [reflexivity|].
  destruct (@retry_policy (constructor default_ai) failing_world
              (js "halo") [] cjk_reply eq_refl) as (R & _).
  assert (H : In NON_INDONESIAN (issues (validateResponse (response cjk_reply))))
    by (vm_compute; auto).
  destruct (R (or_intror H)) as (_ & _ & _ & _ & Hh).
  apply (Hh 500%N (js "overloaded")). reflexivity.
Defined.

(** C4, as amended.  A primary reply with three start markers and one
    end marker is flagged as an incomplete span and answered by
    exactly one retry.  What is returned is the retry's message: its
    cleaned reply, or the greeting, which holds no start marker.
    Start markers in the retry's own reply are not removed, so the
    returned text holds one only when that cleaned reply does. *)
Theorem three_open_one_close : forall this w msg history data,
  backend w (List.length (sent w))
          (primaryRequest this (random w (List.length (sent w)))
                          msg history)
  = Json data ->
  openThinkTags (response data) = 3 ->
  closeThinkTags (response data) = 1 ->
  let rq1 :=
    primaryRequest this (random w (List.length (sent w))) msg history in
  let rq2 := simpleRequest (updateContext this data) msg in
  let out2 := backend w (S (List.length (sent w))) rq2 in
  let res := sendMessage this w msg history in
  In INCOMPLETE_THINK (issues (validateResponse (response data)))
  /\ sent (snd res) = sent w ++ [rq1; rq2]
  /\ message (fst (fst res)) = retryMessage out2
  /\ has_open_tag GREETING = false
  /\ (has_open_tag (message (fst (fst res))) = true ->
      exists data2, out2 = Json data2
                    /\ has_open_tag (cleanSimpleResponse (response data2))
                       = true).
Proof.
  intros this w msg history data Hout Ho Hc rq1 rq2 out2 res.
  assert (Hin : In INCOMPLETE_THINK
                   (issues (validateResponse (response data)))).
  { apply incomplete_flagged. rewrite Ho, Hc. lia. }
  destruct (@sendMessage_retry this w msg history data Hout (or_introl Hin))
    as (S1 & S2 & _).
  assert (G : has_open_tag GREETING = false) by (vm_compute; reflexivity).
  split; [exact Hin|]. split; [exact S1|]. split; [exact S2|].
  split; [exact G|].
  unfold res. rewrite S2. unfold out2, rq2.
  destruct (backend w (S (List.length (sent w)))
                    (simpleRequest (updateContext this data) msg))
    as [e|st e|e|data2]; cbn [retryMessage]; intros H;
    try (rewrite G in H; discriminate H).
  exists data2. auto.
Qed.

Lemma three_open_one_close_witness :
  backend stubborn_world (List.length (sent stubborn_world))
          (primaryRequest (constructor default_ai)
                          (random stubborn_world
                                  (List.length (sent stubborn_world)))
                          (js "halo") [])
  = Json stubborn_reply
  /\ openThinkTags (response stubborn_reply) = 3
  /\ closeThinkTags (response stubborn_reply) = 1
  /\ In INCOMPLETE_THINK
        (issues (validateResponse (response stubborn_reply))).
Proof.
  assert (Ho : openThinkTags (response stubborn_reply) = 3)
    by (vm_compute; reflexivity).
  assert (Hc : closeThinkTags (response stubborn_reply) = 1)
    by (vm_compute; reflexivity).
  split; [reflexivity|]. split; [exact Ho|]. split; [exact Hc|].
  apply (@three_open_one_close (constructor default_ai) stubborn_world
           (js "halo") [] stubborn_reply eq_refl Ho Hc).
Defined.

(** C4, as stated, fails.  The primary reply holds three start markers
    and one end marker; the retry's reply opens a reasoning span
    again, and it is returned with its start marker. *)
Lemma retry_reply_keeps_marker :
  openThinkTags raw_3_1 = 3 /\ closeThinkTags raw_3_1 = 1
  /\ List.length
       (sent (snd (sendMessage (constructor default_ai) stubborn_world
                               (js "halo") []))) = 2
  /\ message (fst (fst (sendMessage (constructor default_ai) stubborn_world
                                    (js "halo") [])))
     = js "<think>masih berpikir"
  /\ has_open_tag
       (message (fst (fst (sendMessage (constructor default_ai)
                                       stubborn_world (js "halo") []))))
     = true.
Proof. vm_compute. repeat split. Qed.

(** C8.  The continuation token stays out of the retry.  The simple
    request has no [context] field and [sendSimpleMessage] leaves the
    client as it found it.  Over a whole turn the token the client
    ends with is decided by the primary reply alone (its [context]
    when it has one, the old token otherwise), and every request after
    the primary one goes without a token. *)
Theorem retry_ignores_context : forall this w msg history,
  rq_context (simpleRequest this msg) = None
  /\ snd (fst (sendSimpleMessage this w msg history)) = this
  /\ sent (snd (sendSimpleMessage this w msg history))
     = sent w ++ [simpleRequest this msg]
  /\ this_context (snd (fst (sendMessage this w msg history)))
     = contextAfter this
         (backend w (List.length (sent w))
                  (primaryRequest this (random w (List.length (sent w)))
                                  msg history))
  /\ exists later,
       sent (snd (sendMessage this w msg history))
       = sent w ++ primaryRequest this (random w (List.length (sent w)))
                                  msg history :: later
       /\ Forall (fun rq => rq_context rq = None) later.
Proof.
  intros this w msg history.
  pose proof (sendSimpleMessage_spec this w msg history) as (S1 & S2 & _).
  split; [reflexivity|]. split; [exact S2|]. split; [exact S1|].
  unfold sendMessage. cbn [fetch].
  destruct (backend w (List.length (sent w)) _) as [e|st e|e|data] eqn:Hout;
    cbn [fst snd sent contextAfter].
  1-3: split; [reflexivity|]; exists []; split; [reflexivity|constructor].
  destruct (seriousIssues _).
  - match goal with
      |- context [sendSimpleMessage ?t ?w' ?m ?h] =>
        pose proof (sendSimpleMessage_spec t w' m h) as (T1 & T2 & _)
    end.
    rewrite T1, T2. cbn [sent]. split.
    + unfold updateContext. destruct (context data); reflexivity.
    + exists [simpleRequest (updateContext this data) msg]. split.
      * rewrite <- app_assoc. reflexivity.
      * constructor; [reflexivity|constructor].
  - cbn [fst snd sent]. split.
    + unfold updateContext. destruct (context data); reflexivity.
    + exists []. split; [reflexivity|constructor].
Qed.
End RetryProps.

(** ** The configuration *)

Module ConfigProps.
Import JS Num APIClient Spec NumFacts.

(** C10, as amended.  For every configuration whose [maxTokens] and
    [temperature] are numbers (not [NaN]), the client built from it,
    and any client updated with it, stores [maxTokens >= 1500] and
    [0.1 <= temperature <= 1.2]; clearing the context and sending
    messages keep the stored configuration within that range. *)
Theorem config_clamped : forall config,
  numeric config ->
  config_ok (this_config (constructor config))
  /\ (forall this, config_ok (this_config (updateConfig this config)))
  /\ (forall this, config_ok (this_config this) ->
        config_ok (this_config (clearContext this))
        /\ forall w msg hist,
             config_ok (this_config (snd (fst (sendMessage this w msg hist))))
             /\ config_ok
                  (this_config
                     (snd (fst (sendSimpleMessage this w msg hist))))).
Proof.
  intros config Hn. split; [|split].
  - apply validateConfig_ok, Hn.
  - intros this. apply validateConfig_ok, Hn.
  - intros this Hok. split; [exact Hok|].
    intros w msg hist. split.
    + unfold sendMessage. cbn [fetch].
      destruct (backend w _ _) as [e|st e|e|data]; cbn [fst snd]; auto.
      destruct (seriousIssues _).
      * unfold sendSimpleMessage. cbn [fetch].
        destruct (backend _ _ _); cbn [fst snd]; unfold updateContext;
          destruct (context data); auto.
      * cbn [fst snd]. unfold updateContext. destruct (context data); auto.
    + unfold sendSimpleMessage. cbn [fetch].
      destruct (backend w _ _); cbn [fst snd]; auto.
Qed.

Lemma config_clamped_witness :
  numeric default_ai
  /\ config_ok (this_config (constructor default_ai)).
Proof.
  assert (N : numeric default_ai) by (split; reflexivity).
  split; [exact N|]. apply (proj1 (config_clamped N)).
Defined.

(** C10, as stated, fails: [Math.max(NaN, 1500)] is [NaN], which is not
    at least 1500. *)
Lemma config_nan_not_clamped :
  ~ config_ok (this_config (constructor nan_ai)).
Proof.
  intros (H & _). vm_compute in H. discriminate H.
Qed.
End ConfigProps.

(** * Further properties *)

Module CharFacts.
Import JS Regex RegexSem RegexFacts ScanFacts StringFacts StepsFacts.
Import VoiceFormatter Notions.

(** Every code unit the scan keeps comes from the input. *)
Lemma scan_kept_in : forall fl r s drop keep prev c,
  In (Kept c) (scan fl r drop keep prev s) -> In c s.
Proof.
  intros fl r s. induction s as [|x s IH]; intros drop keep prev c H.
  - cbn [scan] in H. destruct drop, keep; try contradiction.
    destruct (exec_at fl r prev []) as [[n cap]|]; [|contradiction].
    destruct H as [H|[]]. discriminate.
  - cbn [scan] in H. destruct drop as [|d].
    + destruct keep as [|k].
      * destruct (exec_at fl r prev (x :: s)) as [[[|n] cap]|].
        -- destruct H as [H|[H|H]]; [discriminate| |].
           ++ inversion H. left. reflexivity.
           ++ right. eapply IH. exact H.
        -- destruct H as [H|H]; [discriminate|]. right. eapply IH. exact H.
        -- destruct H as [H|H].
           ++ inversion H. left. reflexivity.
           ++ right. eapply IH. exact H.
      * destruct H as [H|H].
        -- inversion H. left. reflexivity.
        -- right. eapply IH. exact H.
    + right. eapply IH. exact H.
Qed.

(** A replacement holds input code units and expanded templates. *)
Lemma replace_in : forall fl r tpl s c,
  In c (replace fl r tpl s) ->
  In c s \/ exists cap, In c (expand tpl cap).
Proof.
  intros fl r tpl s c H. unfold replace in H.
  apply in_flat_map in H. destruct H as (sg & Hsg & Hc).
  destruct sg as [x|matched cap]; cbn [render] in Hc.
  - destruct Hc as [ -> | [] ]. left. eapply scan_kept_in. exact Hsg.
  - right. exists cap. exact Hc.
Qed.

Lemma replace_del_in : forall fl r s c,
  In c (replace fl r [] s) -> In c s.
Proof.
  intros fl r s c H. apply replace_in in H.
  destruct H as [H|(cap & [])]. exact H.
Qed.

Lemma replace_text_in : forall fl r t s c,
  In c (replace fl r [RText t] s) -> In c s \/ In c t.
Proof.
  intros fl r t s c H. apply replace_in in H.
  destruct H as [H|(cap & H)]; [left; exact H|right].
  cbn in H. rewrite app_nil_r in H. exact H.
Qed.

(** *** One or more of a class *)

Lemma exec_at_plus_none : forall fl a prev c s,
  unicode fl = false ->
  exec_at fl (plus a) prev (c :: s) = None -> atom_match fl a c = false.
Proof.
  intros fl a prev c s U H.
  destruct (atom_match fl a c) eqn:A; [exfalso|reflexivity].
  revert H. apply exec_at_some; [reflexivity|].
  exists (mkState (Some c) s None). cbn [matches plus].
  exists 1. split; [|split; [lia|discriminate]].
  eapply steps_S; [|apply steps_O].
  rewrite step_no_u by assumption. cbn [st_rest st_cap]. rewrite A.
  reflexivity.
Qed.

Lemma exec_at_min_length : forall fl g mn mx a prev s n cap,
  unicode fl = false ->
  (forall x, mx = Some x -> mn <= x) ->
  exec_at fl (Rep g mn mx a) prev s = Some (n, cap) -> mn <= n.
Proof.
  intros fl g mn mx a prev s n cap U W H.
  unfold exec_at in H. cbn [m] in H.
  destruct (rep fl a g Some (S (List.length (st_rest (mkState prev s None))))
                mn mx (mkState prev s None)) as [st'|] eqn:E;
    [|discriminate].
  apply rep_sound in E; [|exact W].
  destruct E as (k & st2 & Hs & Hmn & _ & Hk).
  assert (E2 : st2 = st') by congruence. subst st2.
  apply steps_inv_no_u in Hs; [|assumption].
  destruct Hs as (ws & Es & _ & L). cbn [st_rest] in Es.
  assert (En : n = List.length s - List.length (st_rest st')) by congruence.
  rewrite En, Es, length_app. lia.
Qed.

(** Where a run of the class is replaced, no member of the class is
    kept. *)
Lemma scan_plus_kept : forall fl a s drop prev c,
  unicode fl = false ->
  In (Kept c) (scan fl (plus a) drop 0 prev s) ->
  atom_match fl a c = false.
Proof.
  intros fl a s. induction s as [|x s IH]; intros drop prev c U H.
  - cbn [scan] in H. destruct drop; contradiction.
  - cbn [scan] in H. destruct drop as [|d]; [|eapply IH; eauto].
    destruct (exec_at fl (plus a) prev (x :: s)) as [[[|n] cap]|] eqn:E.
    + apply exec_at_min_length in E; auto; [lia|discriminate].
    + destruct H as [H|H]; [discriminate|]. eapply IH; eauto.
    + rewrite advance_no_u in H by assumption. cbn [pred] in H.
      destruct H as [H|H].
      * inversion H; subst. eapply exec_at_plus_none; eauto.
      * eapply IH; eauto.
Qed.

Lemma replace_plus_text_in : forall fl a t s c,
  unicode fl = false ->
  In c (replace fl (plus a) [RText t] s) ->
  (In c s /\ atom_match fl a c = false) \/ In c t.
Proof.
  intros fl a t s c U H. unfold replace in H.
  apply in_flat_map in H. destruct H as (sg & Hsg & Hc).
  destruct sg as [x|matched cap]; cbn [render] in Hc.
  - destruct Hc as [ -> | [] ]. left. split.
    + eapply scan_kept_in. exact Hsg.
    + eapply scan_plus_kept; eauto.
  - right. cbn in Hc. rewrite app_nil_r in Hc. exact Hc.
Qed.

(** *** Pieces of a split, trimmed text *)

Lemma split_go_in : forall fl r s drop prev cur piece c,
  In piece (split_go fl r drop prev cur s) -> In c piece ->
  In c cur \/ In c s.
Proof.
  intros fl r s. induction s as [|x s IH]; intros drop prev cur piece c H Hc.
  - cbn [split_go] in H. destruct H as [ <- | [] ]. left.
    apply in_rev in Hc. exact Hc.
  - cbn [split_go] in H. destruct drop as [|d].
    + destruct (exec_at fl r prev (x :: s)) as [[[|n] cap]|].
      * destruct cur as [|y cur].
        -- apply (IH _ _ _ _ c) in H; auto.
           destruct H as [[ -> | [] ]|H]; right; [left|right]; auto.
        -- destruct H as [<-|H].
           ++ left. apply in_rev in Hc. exact Hc.
           ++ apply (IH _ _ _ _ c) in H; auto.
              destruct H as [[ -> | [] ]|H]; right; [left|right]; auto.
      * destruct H as [<-|H].
        -- left. apply in_rev in Hc. exact Hc.
        -- apply (IH _ _ _ _ c) in H; auto.
           destruct H as [[]|H]. right. right. exact H.
      * apply (IH _ _ _ _ c) in H; auto.
        destruct H as [[ -> |H]|H]; auto; right; [left|right]; auto.
    + apply (IH _ _ _ _ c) in H; auto. destruct H; auto. right. right. auto.
Qed.

Lemma regex_split_in : forall fl r s piece c,
  In piece (Regex.split fl r s) -> In c piece -> In c s.
Proof.
  intros fl r s piece c H Hc. unfold Regex.split in H.
  destruct s as [|x s].
  - destruct (exec_at fl r None []); [contradiction|].
    destruct H as [ <- | [] ]. exact Hc.
  - apply (@split_go_in fl r (x :: s) 0 None [] piece c) in H; auto.
    destruct H as [[]|H]. exact H.
Qed.

Lemma split_on_in : forall sep s cur piece c,
  In piece (split_on sep cur s) -> In c piece -> In c cur \/ In c s.
Proof.
  intros sep s. induction s as [|x s IH]; intros cur piece c H Hc.
  - cbn [split_on] in H. destruct H as [ <- | [] ]. left.
    apply in_rev in Hc. exact Hc.
  - cbn [split_on] in H. destruct (x =? sep)%N.
    + destruct H as [<-|H].
      * left. apply in_rev in Hc. exact Hc.
      * apply (IH _ _ c) in H; auto. destruct H as [[]|H]. right. right. auto.
    + apply (IH _ _ c) in H; auto.
      destruct H as [[ -> |H]|H]; auto; right; [left|right]; auto.
Qed.

Lemma trimStart_in : forall s c, In c (trimStart s) -> In c s.
Proof.
  induction s as [|x s IH]; intros c H; [exact H|].
  cbn [trimStart] in H. destruct (isSpace x); [right; auto|exact H].
Qed.

Lemma trim_in : forall s c, In c (trim s) -> In c s.
Proof.
  intros s c H. unfold trim, trimEnd in H.
  apply in_rev in H. apply trimStart_in in H. apply in_rev in H.
  apply trimStart_in. exact H.
Qed.
End CharFacts.

Module CleanFacts.
Import JS Regex RegexSem RegexFacts ScanFacts StringFacts StepsFacts.
Import AtomFacts ValidateFacts LengthFacts VoiceFormatter Notions CharFacts.

Lemma special_class : forall c,
  atom_match noflags (one_of "#@$%^&*+=[]{}\|<>") c = special c.
Proof. intros c. reflexivity. Qed.

Lemma quote_class : forall c,
  atom_match noflags
    (AClass false [CChar DQUOTE; CChar 39; CChar DQUOTE; CChar DQUOTE;
                   CChar 96]) c = quote c.
Proof.
  intros c. unfold quote. cbn. unfold DQUOTE.
  destruct (c =? 34)%N, (c =? 39)%N, (c =? 96)%N; reflexivity.
Qed.

Lemma speech_safe_space : speech_safe 32 = true.
Proof. reflexivity. Qed.

Lemma speech_safe_period : speech_safe 46 = true.
Proof. reflexivity. Qed.

(** The cleanup stage lets only safe code units through. *)
Lemma cleanupText_safe : forall text c,
  In c (cleanupText text) -> speech_safe c = true.
Proof.
  intros text c H. unfold cleanupText in H.
  apply replace_text_in in H.
  destruct H as [H|[ <- | [] ]]; [|reflexivity].
  apply replace_del_in in H. apply replace_del_in in H.
  rewrite replace_atom_del in H by reflexivity.
  apply filter_In in H. destruct H as [H Hq].
  rewrite quote_class in Hq.
  rewrite replace_atom_del in H by reflexivity.
  apply filter_In in H. destruct H as [H Hs].
  rewrite special_class in Hs.
  assert (W : isSpace c = false \/ c = 32%N).
  { apply replace_text_in in H. destruct H as [H|[ <- | [] ]]; [|right; auto].
    apply replace_plus_text_in in H; [|reflexivity].
    destruct H as [[_ H]|[ <- | [] ]]; [|right; auto].
    left. rewrite space_class in H. exact H. }
  unfold speech_safe. rewrite Hs, Hq. cbn [andb].
  destruct W as [W| -> ]; [rewrite W|]; reflexivity.
Qed.

Lemma firstn_in : forall (A : Type) n (l : list A) x,
  In x (firstn n l) -> In x l.
Proof.
  intros A n l x H. rewrite <- (firstn_skipn n l). apply in_or_app.
  left. exact H.
Qed.

Lemma sentence_loop_in : forall maxLength sentences result c,
  In c (sentence_loop maxLength sentences result) ->
  In c result \/ c = 32%N \/ c = 46%N
  \/ exists s, In s sentences /\ In c s.
Proof.
  intros maxLength sentences.
  induction sentences as [|s rest IH]; intros result c H;
    cbn [sentence_loop] in H; [auto|].
  destruct (isEmpty (trim s)).
  - apply IH in H. destruct H as [H|[H|[H|(s' & Hs & Hc)]]]; auto.
    right. right. right. exists s'. split; [right|]; auto.
  - destruct (len (result ++ trim s ++ js ".") >? maxLength)%Z; [auto|].
    apply IH in H. destruct H as [H|[H|[H|(s' & Hs & Hc)]]]; auto.
    + rewrite !in_app_iff in H. destruct H as [H|[H|[H|H]]]; auto.
      * destruct (isEmpty result); [contradiction|].
        destruct H as [ <- | [] ]. auto.
      * right. right. right. exists s. split; [left; auto|].
        apply trim_in. exact H.
      * destruct H as [ <- | [] ]. auto.
    + right. right. right. exists s'. split; [right|]; auto.
Qed.

Lemma word_loop_in : forall maxLength words result c,
  In c (word_loop maxLength words result) ->
  In c result \/ c = 32%N \/ exists wd, In wd words /\ In c wd.
Proof.
  intros maxLength words.
  induction words as [|wd rest IH]; intros result c H;
    cbn [word_loop] in H; [auto|].
  destruct (len result <? maxLength)%Z; [|auto].
  destruct (len (result ++ js " " ++ wd) >? maxLength)%Z; [auto|].
  apply IH in H. destruct H as [H|[H|(w' & Hw & Hc)]]; auto.
  - rewrite !in_app_iff in H. destruct H as [H|[H|H]]; auto.
    + destruct (isEmpty result); [contradiction|].
      destruct H as [ <- | [] ]. auto.
    + right. right. exists wd. split; [left|]; auto.
  - right. right. exists w'. split; [right|]; auto.
Qed.

(** Length bounding adds nothing but spaces and periods. *)
Lemma limitLength_in : forall text maxLength c,
  In c (limitLength text maxLength) ->
  In c text \/ c = 32%N \/ c = 46%N.
Proof.
  intros text maxLength c H. unfold limitLength in H.
  destruct (len text <=? maxLength)%Z; [auto|].
  set (sentences := Regex.split noflags (plus (one_of ".!?")) text) in *.
  assert (HS : forall acc, In c (sentence_loop maxLength sentences acc) ->
                           In c acc \/ In c text \/ c = 32%N \/ c = 46%N).
  { intros acc Hc. apply sentence_loop_in in Hc.
    destruct Hc as [Hc|[Hc|[Hc|(s & Hs & Hc)]]]; auto.
    right. left. eapply regex_split_in; eauto. }
  set (r1 := sentence_loop maxLength sentences []) in *.
  assert (HR : In c (if (len r1 =? 0)%Z
                     then word_loop maxLength (JS.split text 32) r1 ++ js "."
                     else r1) ->
               In c text \/ c = 32%N \/ c = 46%N).
  { destruct (len r1 =? 0)%Z.
    - intros Hc. apply in_app_iff in Hc. destruct Hc as [Hc|[ <- | [] ]]; auto.
      apply word_loop_in in Hc. destruct Hc as [Hc|[Hc|(wd & Hw & Hc)]]; auto.
      + apply HS in Hc. destruct Hc as [[]|Hc]. exact Hc.
      + unfold JS.split in Hw.
        destruct (split_on_in _ _ _ _ c Hw Hc) as [[]|Hin]. auto.
    - intros Hc. apply HS in Hc. destruct Hc as [[]|Hc]. exact Hc. }
  destruct (isEmpty _).
  - left. unfold substring0 in H. eapply firstn_in. exact H.
  - apply HR. exact H.
Qed.

Lemma occurs_ci_first : forall x p s,
  occurs_ci (x :: p) s = true ->
  exists c, In c s /\ toUpperAscii x = toUpperAscii c.
Proof.
  intros x p s. induction s as [|y s IH]; intros H.
  - cbn in H. discriminate.
  - cbn [occurs_ci starts_ci] in H. apply orb_prop in H.
    destruct H as [H|H].
    + apply andb_prop in H. destruct H as [H _]. apply N.eqb_eq in H.
      exists y. split; [left|]; auto.
    + apply IH in H. destruct H as (c & Hc & E). exists c. split; [right|]; auto.
Qed.

Lemma upper_lt : forall c, toUpperAscii c = 60%N -> c = 60%N.
Proof.
  intros c H. unfold toUpperAscii in H.
  destruct (in_range 97 122 c) eqn:R; [|exact H].
  unfold in_range in R. apply andb_prop in R. destruct R as [R1 R2].
  apply N.leb_le in R1, R2. lia.
Qed.

(** No sanitizer output holds an unsafe code unit. *)
Lemma formatForVoice_chars_safe : forall config text c,
  In c (formatForVoice config text) -> speech_safe c = true.
Proof.
  intros config text c H. unfold formatForVoice in H. apply trim_in in H.
  destruct (truthy_length (Config.maxLength config)) as [n|].
  - apply limitLength_in in H. destruct H as [H|[ -> | -> ]];
      [|reflexivity|reflexivity].
    eapply cleanupText_safe. exact H.
  - eapply cleanupText_safe. exact H.
Qed.
End CleanFacts.

(** ** The sanitizer, continued *)

Module SanitizerMore.
Import JS Regex RegexSem VoiceFormatter Notions Spec.
Import CharFacts CleanFacts LengthFacts.

(** X1.  Whatever the configuration and the input, the sanitized text
    holds none of the symbols [# @ $ % ^ & * + = [ ] { } \ | < >], no
    quote character, and no whitespace other than the plain space; in
    particular it never holds a reasoning start marker. *)
Theorem formatForVoice_safe : forall config text,
  (forall c, In c (formatForVoice config text) -> speech_safe c = true)
  /\ occurs_ci OPEN (formatForVoice config text) = false.
Proof.
  intros config text.
  assert (S : forall c, In c (formatForVoice config text) ->
                        speech_safe c = true)
    by (intros c; apply formatForVoice_chars_safe).
  split; [exact S|].
  destruct (occurs_ci OPEN (formatForVoice config text)) eqn:O;
    [exfalso|reflexivity].
  apply occurs_ci_first in O. destruct O as (c & Hc & E).
  symmetry in E. apply upper_lt in E. subst c.
  apply S in Hc. discriminate Hc.
Qed.

(** X2.  When the text is longer than the limit, [limitLength] returns
    a text that ends with a period; it is never empty there, so the
    hard truncation [text.substring(0, maxLength)] is never used. *)
Theorem limitLength_ends_with_period : forall text maxLength,
  (maxLength < len text)%Z ->
  exists body, limitLength text maxLength = body ++ js ".".
Proof.
  intros text maxLength H. unfold limitLength.
  apply Z.leb_gt in H. rewrite H.
  set (sentences := Regex.split noflags (plus (one_of ".!?")) text).
  assert (HS : forall l acc,
            (acc = [] \/ exists b, acc = b ++ js ".") ->
            sentence_loop maxLength l acc = []
            \/ exists b, sentence_loop maxLength l acc = b ++ js ".").
  { induction l as [|s rest IH]; intros acc Hacc; cbn [sentence_loop];
      [exact Hacc|].
    destruct (isEmpty (trim s)); [apply IH; exact Hacc|].
    destruct (len (acc ++ trim s ++ js ".") >? maxLength)%Z; [exact Hacc|].
    apply IH. right.
    exists (acc ++ (if isEmpty acc then [] else js " ") ++ trim s).
    rewrite <- !app_assoc. reflexivity. }
  destruct (HS sentences [] (or_introl eq_refl)) as [E|(b & E)].
  - rewrite E. cbn [len List.length Z.of_nat Z.eqb].
    exists (word_loop maxLength (JS.split text 32) []).
    destruct (word_loop maxLength (JS.split text 32) []); reflexivity.
  - rewrite E.
    assert (L : (len (b ++ js ".") =? 0)%Z = false).
    { apply Z.eqb_neq. rewrite len_app. pose proof (len_nonneg b).
      change (len (js ".")) with 1%Z. lia. }
    rewrite L. exists b.
    destruct b; reflexivity.
Qed.

Lemma limitLength_ends_with_period_witness :
  (5 < len (js "abcde fgh"))%Z
  /\ exists body, limitLength (js "abcde fgh") 5 = body ++ js ".".
Proof.
  assert (H : (5 < len (js "abcde fgh"))%Z) by (vm_compute; reflexivity).
  split; [exact H|]. apply (limitLength_ends_with_period (js "abcde fgh") H).
Defined.
End SanitizerMore.

(** ** The validator and the retry controller, continued *)

Module ClientMore.
Import JS Regex Num APIClient Spec Notions.
Import ValidateFacts RetryFacts AtomFacts CharFacts.

(** X3.  Truncation is never reported for a response with more start
    markers than end markers without the incomplete-span issue being
    reported too: a result whose only issue is truncation has more end
    markers than start markers. *)
Theorem truncated_alone : forall response,
  (In TRUNCATED (issues (validateResponse response)) ->
   In INCOMPLETE_THINK (issues (validateResponse response))
   \/ (openThinkTags response < closeThinkTags response)%nat)
  /\ (issues (validateResponse response) = [TRUNCATED] ->
      (openThinkTags response < closeThinkTags response)%nat).
Proof.
  intros response.
  assert (A : In TRUNCATED (issues (validateResponse response)) ->
              In INCOMPLETE_THINK (issues (validateResponse response))
              \/ (openThinkTags response < closeThinkTags response)%nat).
  { intros H.
    destruct (Nat.lt_ge_cases (closeThinkTags response)
                              (openThinkTags response)) as [L|L].
    - left. apply incomplete_flagged. exact L.
    - right. unfold validateResponse in H. cbn [issues] in H.
      rewrite !in_pushIf in H.
      destruct issues_distinct as (D1 & D2 & D3).
      destruct H as [[[[]|[_ E]]|[_ E]]|[E _]]; try congruence.
      apply andb_prop in E. destruct E as [_ E].
      apply negb_true_iff in E. apply Nat.eqb_neq in E. lia. }
  split; [exact A|].
  intros E. destruct A as [A|A]; [rewrite E; left; reflexivity| |exact A].
  rewrite E in A. destruct A as [A|[]].
  destruct issues_distinct as (_ & D2 & _). congruence.
Qed.

Lemma truncated_alone_witness :
  issues
    (validateResponse
       (js "</think> jawaban panjang yang tidak diakhiri dengan tanda baca apa pun"))
  = [TRUNCATED]
  /\ (openThinkTags
        (js "</think> jawaban panjang yang tidak diakhiri dengan tanda baca apa pun")
      < closeThinkTags
          (js "</think> jawaban panjang yang tidak diakhiri dengan tanda baca apa pun"))%nat.
Proof.
  assert (E : issues
                (validateResponse
                   (js "</think> jawaban panjang yang tidak diakhiri dengan tanda baca apa pun"))
              = [TRUNCATED]) by (vm_compute; reflexivity).
  split; [exact E|].
  apply (proj2 (truncated_alone _) E).
Defined.

Lemma latin1_class : forall c,
  atom_match noflags
    (AClass true [CRange 0 0x7F; CRange 0xA0 0xFF; CRange 0xC0 0xFF]) c
  = negb (latin1 c).
Proof.
  intros c. unfold latin1. cbn.
  destruct (in_range 0 127 c), (in_range 160 255 c) eqn:R; cbn;
    try reflexivity.
  destruct (in_range 192 255 c) eqn:R2; [|reflexivity].
  unfold in_range in *. apply andb_prop in R2. destruct R2 as [A B].
  apply andb_false_iff in R. apply N.leb_le in A, B.
  destruct R as [R|R]; apply N.leb_gt in R; lia.
Qed.

Lemma cleanSimpleResponse_latin1 : forall raw,
  cleanSimpleResponse raw <> []
  /\ forall c, In c (cleanSimpleResponse raw) -> latin1 c = true.
Proof.
  intros raw. unfold cleanSimpleResponse.
  destruct (isEmpty _) eqn:E.
  - split; [discriminate|]. intros c H.
    assert (F : forallb latin1 GREETING = true) by (vm_compute; reflexivity).
    rewrite forallb_forall in F. apply F. exact H.
  - split.
    + intros H. rewrite H in E. discriminate.
    + intros c H. rewrite replace_atom_del in H by reflexivity.
      apply filter_In in H. destruct H as [_ H].
      rewrite latin1_class, negb_involutive in H. exact H.
Qed.

(** X4.  Whatever the backend does, the message [sendSimpleMessage]
    returns is not empty and holds only code units of Basic Latin and
    of the upper half of Latin-1: no CJK ideograph, no emoji. *)
Theorem sendSimpleMessage_latin1 : forall this w msg history,
  message (fst (fst (sendSimpleMessage this w msg history))) <> []
  /\ forall c,
       In c (message (fst (fst (sendSimpleMessage this w msg history)))) ->
       latin1 c = true.
Proof.
  intros this w msg history.
  destruct (sendSimpleMessage_spec this w msg history) as (_ & _ & M & _).
  rewrite M.
  destruct (backend w (List.length (sent w)) (simpleRequest this msg))
    as [e|st e|e|data]; cbn [retryMessage];
    try (split; [discriminate|];
         intros c H;
         assert (F : forallb latin1 GREETING = true)
           by (vm_compute; reflexivity);
         rewrite forallb_forall in F; apply F; exact H).
  apply cleanSimpleResponse_latin1.
Qed.

(** X5.  One turn costs one request or two, never more.  When the
    primary call fails (network error, HTTP error, unreadable body)
    only that one request is sent, the client is left as it was, and
    the answer is the empty message with [success = false]. *)
Theorem sendMessage_requests : forall this w msg history,
  (List.length (sent (snd (sendMessage this w msg history)))
   = S (List.length (sent w))
   \/ List.length (sent (snd (sendMessage this w msg history)))
      = S (S (List.length (sent w))))
  /\ ((forall data,
         backend w (List.length (sent w))
                 (primaryRequest this (random w (List.length (sent w)))
                                 msg history) <> Json data) ->
      sent (snd (sendMessage this w msg history))
      = sent w ++ [primaryRequest this (random w (List.length (sent w)))
                                  msg history]
      /\ snd (fst (sendMessage this w msg history)) = this
      /\ message (fst (fst (sendMessage this w msg history))) = []
      /\ success (fst (fst (sendMessage this w msg history))) = false).
Proof.
  intros this w msg history. unfold sendMessage. cbn [fetch].
  destruct (backend w (List.length (sent w)) _) as [e|st e|e|data] eqn:Hout;
    cbn [fst snd sent message success].
  1-3: split; [left; rewrite length_app; cbn; lia|];
       intros _; repeat split.
  split.
  - destruct (seriousIssues _).
    + match goal with
        |- context [sendSimpleMessage ?t ?w' ?m ?h] =>
          pose proof (sendSimpleMessage_spec t w' m h) as (T1 & _)
      end.
      right. rewrite T1. cbn [sent]. rewrite !length_app. cbn. lia.
    + left. cbn [snd sent]. rewrite length_app. cbn. lia.
  - intros H. exfalso. apply (H data). reflexivity.
Qed.

Lemma sendMessage_requests_witness :
  (forall data,
     backend (mkWorld [] (fun _ _ => NetworkError (js "Failed to fetch"))
                      (fun _ => 0%Z)) 0
             (primaryRequest (constructor default_ai) 0 (js "halo") [])
     <> Json data)
  /\ message
       (fst (fst (sendMessage
                    (constructor default_ai)
                    (mkWorld [] (fun _ _ => NetworkError (js "Failed to fetch"))
                             (fun _ => 0%Z))
                    (js "halo") []))) = [].
Proof.
  assert (H : forall data,
     backend (mkWorld [] (fun _ _ => NetworkError (js "Failed to fetch"))
                      (fun _ => 0%Z)) 0
             (primaryRequest (constructor default_ai) 0 (js "halo") [])
     <> Json data) by (intros data; discriminate).
  split; [exact H|].
  apply (proj2 (sendMessage_requests
                  (constructor default_ai)
                  (mkWorld [] (fun _ _ => NetworkError (js "Failed to fetch"))
                           (fun _ => 0%Z))
                  (js "halo") []) H).
Defined.

(** X6.  The continuation token is threaded from one turn to the
    next: when the primary reply of a turn carries a non-empty
    [context], the primary request of the client's next turn carries
    exactly that token, and after [clearContext] it carries none.  A
    client that has never received a token sends none. *)
Theorem context_threaded : forall this w msg history data c ctx,
  backend w (List.length (sent w))
          (primaryRequest this (random w (List.length (sent w)))
                          msg history)
  = Json data ->
  context data = Some (c :: ctx) ->
  forall seed msg2 history2,
    rq_context (primaryRequest (snd (fst (sendMessage this w msg history)))
                               seed msg2 history2)
    = Some (c :: ctx)
    /\ rq_context
         (primaryRequest
            (clearContext (snd (fst (sendMessage this w msg history))))
            seed msg2 history2) = None
    /\ forall config,
         rq_context (primaryRequest (constructor config) seed msg2 history2)
         = None.
Proof.
  intros this w msg history data c ctx Hout Hctx seed msg2 history2.
  assert (E : this_context (snd (fst (sendMessage this w msg history)))
              = c :: ctx).
  { rewrite (@sendMessage_json _ _ _ _ _ Hout).
    destruct (seriousIssues _).
    - match goal with
        |- context [sendSimpleMessage ?t ?w' ?m ?h] =>
          pose proof (sendSimpleMessage_spec t w' m h) as (_ & T2 & _)
      end.
      rewrite T2. unfold updateContext. rewrite Hctx. reflexivity.
    - cbn [fst snd]. unfold updateContext. rewrite Hctx. reflexivity. }
  split; [|split].
  - unfold primaryRequest. cbn [rq_context]. rewrite E. reflexivity.
  - reflexivity.
  - intros config. reflexivity.
Qed.

Lemma context_threaded_witness :
  backend failing_world (List.length (sent failing_world))
          (primaryRequest (constructor default_ai)
                          (random failing_world
                                  (List.length (sent failing_world)))
                          (js "halo") [])
  = Json cjk_reply
  /\ context cjk_reply = Some [1; 2; 3]%Z
  /\ rq_context
       (primaryRequest
          (snd (fst (sendMessage (constructor default_ai) failing_world
                                 (js "halo") [])))
          7%Z (js "lagi") [])
     = Some [1; 2; 3]%Z.
Proof.
  split; [reflexivity|]. split; [reflexivity|].
  apply (@context_threaded (constructor default_ai) failing_world
           (js "halo") [] cjk_reply 1%Z [2; 3]%Z eq_refl eq_refl
           7%Z (js "lagi") []).
Defined.




End ClientMore.

Module BalancedFacts.
Import JS Regex RegexSem RegexFacts ScanFacts StringFacts StepsFacts.
Import ThinkFacts SpanFacts VoiceFormatter Spec Notions.

Lemma firstn_exact : forall (A : Type) (a b : list A),
  firstn (List.length a) (a ++ b) = a.
Proof.
  intros A a b. induction a as [|x a IH]; cbn; [reflexivity|].
  rewrite IH. reflexivity.
Qed.

Lemma scan_drop : forall fl r x post prev,
  post <> [] ->
  scan fl r (List.length x) 0 prev (x ++ post)
  = scan fl r 0 0 (last_or prev x) post.
Proof.
  intros fl r x. induction x as [|c x IH]; intros post prev Hp.
  - reflexivity.
  - cbn [List.length app scan]. rewrite IH by assumption.
    rewrite last_or_cons. reflexivity.
Qed.

Lemma scan_drop_end : forall fl r x prev,
  scan fl r (List.length x) 0 prev x = scan fl r 0 0 (last_or prev x) [].
Proof.
  intros fl r x. induction x as [|c x IH]; intros prev.
  - reflexivity.
  - cbn [List.length scan]. rewrite IH, last_or_cons. reflexivity.
Qed.

(** No attempt succeeds inside [pre]; the one at its end covers [mid];
    the scan goes on after it. *)
Lemma scan_prefix_then_match : forall fl r pre mid post prev cap,
  unicode fl = false ->
  (forall a b, pre = a ++ b -> b <> [] ->
               exec_at fl r (last_or prev a) (b ++ mid ++ post) = None) ->
  exec_at fl r (last_or prev pre) (mid ++ post)
  = Some (List.length mid, cap) ->
  mid <> [] ->
  scan fl r 0 0 prev (pre ++ mid ++ post)
  = List.map Kept pre ++ Found mid cap
      :: scan fl r 0 0 (last_or prev (pre ++ mid)) post.
Proof.
  intros fl r pre. induction pre as [|c pre IH];
    intros mid post prev cap U Hno Hyes Hne.
  - cbn [app List.map]. destruct mid as [|x mid]; [congruence|].
    cbn in Hyes. cbn [app scan]. rewrite Hyes. f_equal.
    + f_equal. change (S (List.length mid)) with (List.length (x :: mid)).
      change (x :: mid ++ post) with ((x :: mid) ++ post).
      apply firstn_exact.
    + destruct post as [|p post].
      * rewrite app_nil_r. rewrite scan_drop_end.
        rewrite last_or_cons. reflexivity.
      * rewrite scan_drop by discriminate.
        rewrite last_or_cons. reflexivity.
  - cbn [app scan List.map].
    pose proof (Hno [] (c :: pre) eq_refl) as E0. cbn in E0.
    rewrite E0 by discriminate.
    rewrite advance_no_u by assumption. cbn [pred]. f_equal.
    rewrite (IH mid post (Some c) cap); auto.
    + rewrite last_or_cons. reflexivity.
    + intros a b E Hb. specialize (Hno (c :: a) b).
      rewrite last_or_cons in Hno. apply Hno; auto. cbn. congruence.
    + rewrite last_or_cons in Hyes. exact Hyes.
Qed.

Lemma starts_ci_prefix : forall p q s,
  starts_ci (p ++ q) s = true -> starts_ci p s = true.
Proof.
  induction p as [|x p IH]; intros q s H; [reflexivity|].
  destruct s as [|y s]; [discriminate|]. cbn in *.
  apply andb_prop in H. destruct H as [H1 H2]. rewrite H1. cbn.
  eapply IH. exact H2.
Qed.

Lemma occurs_ci_prefix : forall p q s,
  occurs_ci (p ++ q) s = true -> occurs_ci p s = true.
Proof.
  intros p q s. induction s as [|y s IH]; intros H.
  - cbn [occurs_ci] in *. rewrite orb_false_r in *.
    eapply starts_ci_prefix. exact H.
  - cbn [occurs_ci] in *. apply orb_prop in H. destruct H as [H|H].
    + rewrite (starts_ci_prefix _ _ _ H). reflexivity.
    + rewrite IH by assumption. apply orb_true_r.
Qed.

Lemma no_stem_no_open : forall s,
  occurs_ci OPEN_STEM s = false -> occurs_ci OPEN s = false.
Proof.
  intros s H. destruct (occurs_ci OPEN s) eqn:O; [|reflexivity].
  change OPEN with (OPEN_STEM ++ js ">") in O.
  apply occurs_ci_prefix in O. congruence.
Qed.

(** Each of the first three patterns begins with [<think]. *)
Lemma think_block_starts : forall prev b,
  exec_at fl_i think_block prev b <> None -> starts_ci OPEN b = true.
Proof.
  intros prev b H. apply exec_at_some in H; [|reflexivity].
  destruct H as (st' & st1 & M1 & _).
  apply (@lit_match_starts_ci fl_i OPEN (mkState prev b None) eq_refl eq_refl).
  change (lit_match fl_i OPEN (mkState prev b None) = Some st1) in M1.
  congruence.
Qed.

Lemma think_block_attrs_starts : forall prev b,
  exec_at fl_i think_block_attrs prev b <> None ->
  starts_ci OPEN_STEM b = true.
Proof.
  intros prev b H. apply exec_at_some in H; [|reflexivity].
  destruct H as (st' & st1 & M1 & _).
  apply (@lit_match_starts_ci fl_i OPEN_STEM (mkState prev b None)
           eq_refl eq_refl).
  change (lit_match fl_i OPEN_STEM (mkState prev b None) = Some st1) in M1.
  congruence.
Qed.

Lemma no_match_id : forall fl r s,
  (forall prev b, suffix b s -> exec_at fl r prev b = None) ->
  replace fl r del s = s.
Proof.
  intros fl r s H. apply replace_no_match. intros a b E.
  apply H. exists a. exact E.
Qed.

(** Without [<think] the first three patterns change nothing. *)
Lemma first_three_id : forall s,
  occurs_ci OPEN_STEM s = false ->
  replace fl_i think_block del s = s
  /\ replace fl_i think_block_attrs del s = s
  /\ replace fl_i think_unclosed del s = s.
Proof.
  intros s H.
  assert (N : forall b, suffix b s -> starts_ci OPEN_STEM b = false).
  { intros b Sb. destruct (starts_ci OPEN_STEM b) eqn:E; [|reflexivity].
    rewrite (@occurs_ci_suffix OPEN_STEM b s Sb E) in H. discriminate. }
  assert (N2 : forall b, suffix b s -> starts_ci OPEN b = false).
  { intros b Sb. destruct (starts_ci OPEN b) eqn:E; [|reflexivity].
    change OPEN with (OPEN_STEM ++ js ">") in E.
    apply starts_ci_prefix in E. rewrite (N b Sb) in E. discriminate. }
  split; [|split]; apply no_match_id; intros prev b Sb.
  - destruct (exec_at fl_i think_block prev b) eqn:X; [|reflexivity].
    assert (Hx : exec_at fl_i think_block prev b <> None) by congruence.
    apply think_block_starts in Hx. rewrite (N2 b Sb) in Hx. discriminate.
  - destruct (exec_at fl_i think_block_attrs prev b) eqn:X; [|reflexivity].
    assert (Hx : exec_at fl_i think_block_attrs prev b <> None)
      by congruence.
    apply think_block_attrs_starts in Hx. rewrite (N b Sb) in Hx.
    discriminate.
  - destruct (exec_at fl_i think_unclosed prev b) as [[n c]|] eqn:X;
      [|reflexivity].
    apply think_unclosed_inv in X. destruct X as [X _].
    rewrite (N2 b Sb) in X. discriminate.
Qed.

(** A proper end of a marker does not start the marker again. *)
Lemma starts_ci_marker_tail : forall p mk a b t,
  first_unique p = true -> ci_equal mk p = true ->
  mk = a ++ b -> a <> [] -> b <> [] -> starts_ci p (b ++ t) = false.
Proof.
  intros p mk a b t Hu Hmk E Ha Hb.
  destruct (starts_ci p (b ++ t)) eqn:S; [exfalso|reflexivity].
  apply ci_equal_starts in Hmk. destruct Hmk as [Hs Hl].
  assert (Hp : 0 < List.length p).
  { rewrite <- Hl, E, length_app. destruct a; [congruence|cbn; lia]. }
  assert (Hr : 0 < List.length a < List.length p).
  { rewrite <- Hl, E, length_app.
    destruct a; [congruence|]. destruct b; [congruence|]. cbn. lia. }
  pose proof (@starts_ci_nth _ _ S 0 Hp) as H0.
  pose proof (@starts_ci_nth _ _ Hs (List.length a) (proj2 Hr)) as H1.
  rewrite E in H1. rewrite app_nth2 in H1 by lia.
  rewrite Nat.sub_diag in H1.
  assert (Hn : nth 0 (b ++ t) 0%N = nth 0 b 0%N).
  { destruct b; [congruence|reflexivity]. }
  rewrite Hn in H0.
  apply (@first_unique_nth p (List.length a) Hu Hr). congruence.
Qed.

Section Balanced.
Variables pre mo body mc post : jsstring.
Hypothesis Hmo : ci_equal mo OPEN = true.
Hypothesis Hmc : ci_equal mc CLOSE = true.
Hypothesis Hstem : occurs_ci OPEN_STEM (pre ++ post) = false.
Hypothesis Hbody : occurs_ci CLOSE body = false.
Hypothesis Hpost : occurs_ci CLOSE post = false.

(** The only end marker in [body ++ mc ++ post] is [mc]. *)
Lemma close_only_mc : forall u,
  suffix u (body ++ mc ++ post) -> starts_ci CLOSE u = true ->
  u = mc ++ post.
Proof.
  intros u S H. apply suffix_app_cases in S.
  destruct S as [(a & b & E & Hb & ->)|S].
  - rewrite (@no_start_before CLOSE body mc post a b eq_refl Hmc Hbody E Hb)
      in H. discriminate.
  - apply suffix_app_cases in S.
    destruct S as [(a & b & E & Hb & ->)|S].
    + destruct a as [|x a].
      * cbn in E. subst b. reflexivity.
      * rewrite (@starts_ci_marker_tail CLOSE mc (x :: a) b post
                   eq_refl Hmc E) in H; [discriminate|discriminate|exact Hb].
    + rewrite (@occurs_ci_suffix CLOSE u post S H) in Hpost. discriminate.
Qed.

Lemma think_block_span : forall prev,
  exists cap,
    exec_at fl_i think_block prev (mo ++ body ++ mc ++ post)
    = Some (List.length (mo ++ body ++ mc), cap).
Proof.
  intros prev.
  pose proof (ci_equal_starts _ _ Hmo) as [So Lo].
  pose proof (ci_equal_starts _ _ Hmc) as [Sc Lc].
  assert (R0 : forall st1,
            lit_match fl_i OPEN
                      (mkState prev (mo ++ body ++ mc ++ post) None)
            = Some st1 -> st_rest st1 = body ++ mc ++ post).
  { intros st1 E1.
    pose proof (@lit_match_rest fl_i OPEN _ _ eq_refl E1) as [R1 _].
    cbn [st_rest] in R1.
    rewrite <- Lo, skipn_app, skipn_all, Nat.sub_diag in R1.
    exact R1. }
  assert (Hc : exec_at fl_i think_block prev (mo ++ body ++ mc ++ post)
               <> None).
  { apply exec_at_some; [reflexivity|].
    destruct (lit_match fl_i OPEN
                (mkState prev (mo ++ body ++ mc ++ post) None))
      as [[p1 s1 c1]|] eqn:E1.
    2:{ exfalso. revert E1.
        apply (@lit_match_starts_ci fl_i OPEN
                 (mkState prev (mo ++ body ++ mc ++ post) None)
                 eq_refl eq_refl).
        apply starts_ci_app. exact So. }
    pose proof (R0 _ eq_refl) as R1. cbn [st_rest] in R1. subst s1.
    destruct (lit_match fl_i CLOSE
                (mkState (last_or p1 body) (mc ++ post) c1))
      as [st3|] eqn:E3.
    2:{ exfalso. revert E3.
        apply (@lit_match_starts_ci fl_i CLOSE
                 (mkState (last_or p1 body) (mc ++ post) c1)
                 eq_refl eq_refl).
        apply starts_ci_app. exact Sc. }
    exists st3, (mkState p1 (body ++ mc ++ post) c1). split; [exact E1|].
    exists (mkState (last_or p1 body) (mc ++ post) c1).
    split; [|exact E3].
    exists (List.length body). split; [|split; [lia|discriminate]].
    apply steps_any. reflexivity. }
  destruct (exec_at fl_i think_block prev (mo ++ body ++ mc ++ post))
    as [[n cap]|] eqn:E; [|congruence].
  exists cap. f_equal. f_equal.
  apply exec_at_inv in E; [|reflexivity].
  destruct E as (st' & (st1 & M1 & st2 & M2 & M3) & -> & _).
  change (lit_match fl_i OPEN
            (mkState prev (mo ++ body ++ mc ++ post) None) = Some st1)
    in M1.
  change (lit_match fl_i CLOSE st2 = Some st') in M3.
  pose proof (R0 _ M1) as R1.
  apply matches_suffix in M2. rewrite R1 in M2.
  assert (S2 : starts_ci CLOSE (st_rest st2) = true).
  { apply (@lit_match_starts_ci fl_i CLOSE st2 eq_refl eq_refl).
    congruence. }
  pose proof (close_only_mc M2 S2) as E2.
  pose proof (@lit_match_rest fl_i CLOSE _ _ eq_refl M3) as [R3 _].
  rewrite E2, <- Lc, skipn_app, skipn_all, Nat.sub_diag in R3.
  cbn [skipn app] in R3. rewrite R3.
  rewrite !length_app. lia.
Qed.

Lemma stem_pre : occurs_ci OPEN_STEM pre = false.
Proof.
  destruct (occurs_ci OPEN_STEM pre) eqn:O; [|reflexivity].
  rewrite occurs_ci_app_l in Hstem; auto.
Qed.

Lemma stem_post : occurs_ci OPEN_STEM post = false.
Proof.
  destruct (occurs_ci OPEN_STEM post) eqn:O; [|reflexivity].
  rewrite occurs_ci_app_r in Hstem; auto.
Qed.

Lemma think_block_balanced :
  replace fl_i think_block del (pre ++ mo ++ body ++ mc ++ post)
  = pre ++ post.
Proof.
  destruct (think_block_span (last_or None pre)) as [cap Hc].
  unfold replace.
  assert (Hmid : mo ++ body ++ mc <> []).
  { destruct mo; [discriminate|discriminate]. }
  pose proof (@scan_prefix_then_match fl_i think_block pre
                (mo ++ body ++ mc) post None cap eq_refl) as Hs.
  rewrite <- !app_assoc in Hs. rewrite Hs; auto.
  - rewrite flat_map_app, flat_map_kept. cbn [flat_map render expand].
    f_equal. cbn [app].
    assert (Np : forall prev,
              scan fl_i think_block 0 0 prev post = List.map Kept post).
    { intros prev. apply scan_no_match. intros a b E.
      destruct (exec_at fl_i think_block (last_or prev a) b) eqn:X;
        [|reflexivity].
      assert (Hx : exec_at fl_i think_block (last_or prev a) b <> None)
        by congruence.
      apply think_block_starts in Hx.
      pose proof (no_stem_no_open _ stem_post) as O.
      rewrite (@occurs_ci_suffix OPEN b post) in O; auto.
      - discriminate.
      - exists a. exact E. }
    rewrite Np. apply flat_map_kept.
  - intros a b E Hb.
    destruct (exec_at fl_i think_block (last_or None a)
                      (b ++ mo ++ body ++ mc ++ post)) eqn:X;
      [|reflexivity].
    assert (Hx : exec_at fl_i think_block (last_or None a)
                         (b ++ mo ++ body ++ mc ++ post) <> None)
      by congruence.
    apply think_block_starts in Hx.
    rewrite (@no_start_before OPEN pre mo (body ++ mc ++ post) a b
               eq_refl Hmo (no_stem_no_open _ stem_pre) E Hb) in Hx.
    discriminate.
Qed.

Lemma removeThinkTags_balanced :
  removeThinkTags (pre ++ mo ++ body ++ mc ++ post)
  = removeThinkTags (pre ++ post).
Proof.
  unfold removeThinkTags, thinkPatterns.
  assert (Ht : isEmpty (pre ++ mo ++ body ++ mc ++ post) = false).
  { destruct pre; [|reflexivity].
    destruct mo; [discriminate|reflexivity]. }
  rewrite Ht. cbn [fold_left fst snd].
  rewrite think_block_balanced.
  destruct (first_three_id _ Hstem) as (I1 & I2 & I3).
  destruct (isEmpty (pre ++ post)) eqn:Ep.
  - destruct (pre ++ post); [reflexivity|discriminate].
  - rewrite I1. reflexivity.
Qed.
End Balanced.
End BalancedFacts.

(** ** Complete reasoning spans *)

Module SpanMore.
Import JS Regex RegexSem VoiceFormatter Notions Spec.
Import BalancedFacts.

(** X8.  With reasoning-span removal enabled, a complete span (a start
    marker and an end marker in any letter case, with no end marker
    inside) is removed with everything in it: when the surrounding
    text holds no [<think] and no further end marker follows, the
    sanitizer's output is exactly that of the text with the span cut
    out. *)
Theorem formatForVoice_balanced_span :
  forall config pre mo body mc post,
    Config.removeThinkTags config = true ->
    ci_equal mo OPEN = true ->
    ci_equal mc CLOSE = true ->
    occurs_ci OPEN_STEM (pre ++ post) = false ->
    occurs_ci CLOSE body = false ->
    occurs_ci CLOSE post = false ->
    formatForVoice config (pre ++ mo ++ body ++ mc ++ post)
    = formatForVoice config (pre ++ post).
Proof.
  intros config pre mo body mc post Hc Hmo Hmc Hstem Hbody Hpost.
  unfold formatForVoice, when. rewrite Hc.
  rewrite (@removeThinkTags_balanced pre mo body mc post
             Hmo Hmc Hstem Hbody Hpost).
  reflexivity.
Qed.

Lemma formatForVoice_balanced_span_witness :
  formatForVoice DEFAULT_VOICE_CONFIG
    (js "Halo " ++ js "<THINK>" ++ js "the user greets <b>" ++ js "</Think>"
     ++ js "apa kabar")
  = formatForVoice DEFAULT_VOICE_CONFIG (js "Halo " ++ js "apa kabar").
Proof.
  apply (@formatForVoice_balanced_span DEFAULT_VOICE_CONFIG
           (js "Halo ") (js "<THINK>") (js "the user greets <b>")
           (js "</Think>") (js "apa kabar"));
    vm_compute; reflexivity.
Defined.
End SpanMore.

(** ** The call screen: what is spoken, and by which voice *)

Module CallerMore.
Import JS Regex VoiceFormatter Notions Voices Speech.
Import CharFacts CleanFacts LengthFacts ValidateFacts SanitizerFacts.

(** X9.  Where speech synthesis is available, [speakAIMessage] always
    has something to say: it never rejects for want of content, the
    text it hands to the synthesizer is never empty and holds no
    unsafe symbol, and that text is the trimmed sanitized message
    whenever that is not empty, whether or not the message passed the
    suitability check; the fallback sentence formatted in the
    unsuitable branch is never what is spoken. *)
Theorem textToSpeak_spoken : forall message,
  exists t,
    textToSpeak message = Some t
    /\ t <> []
    /\ (forall c, In c t -> speech_safe c = true)
    /\ (t = trim (Speech.formatForVoice message)
        \/ trim (Speech.formatForVoice message) = [] /\ t = noResponse).
Proof.
  intros message.
  assert (F : isEmpty (trim (Speech.formatForVoice fallbackMessage)) = false)
    by (vm_compute; reflexivity).
  unfold textToSpeak. rewrite F.
  pose proof (@formatForVoice_chars_safe voiceFormatter message) as S.
  unfold Speech.formatForVoice.
  generalize dependent (VoiceFormatter.formatForVoice voiceFormatter message).
  intros f S.
  assert (R : (if negb (isVoiceSuitable f) then false else false) = false)
    by (destruct (negb (isVoiceSuitable f)); reflexivity).
  rewrite R.
  destruct (isEmpty (trim f)) eqn:E.
  - exists noResponse. split; [reflexivity|]. split; [discriminate|].
    split.
    + intros c H.
      assert (A : forallb speech_safe noResponse = true)
        by (vm_compute; reflexivity).
      rewrite forallb_forall in A. apply A. exact H.
    + right. split; [|reflexivity]. apply trim_nil_iff. exact E.
  - exists (trim f). split; [reflexivity|]. split.
    + intros H. rewrite H in E. discriminate.
    + split; [|left; reflexivity].
      intros c H. apply S. apply trim_in. exact H.
Qed.

(** The language code [language.split("-")[0]] is a prefix of the
    language tag. *)
Lemma split_on_head : forall sep s cur,
  exists rest, rev cur ++ s = hd [] (split_on sep cur s) ++ rest.
Proof.
  intros sep s. induction s as [|c s IH]; intros cur; cbn [split_on].
  - exists []. reflexivity.
  - destruct (c =? sep)%N.
    + exists (c :: s). reflexivity.
    + destruct (IH (c :: cur)) as [rest H]. exists rest.
      rewrite <- H. cbn [rev]. rewrite <- app_assoc. reflexivity.
Qed.

Lemma startsWith_app : forall p rest, startsWith p (p ++ rest) = true.
Proof.
  induction p as [|a p IH]; intros rest; [reflexivity|].
  cbn [startsWith app]. rewrite N.eqb_refl. apply IH.
Qed.

Lemma langCode_prefix : forall language,
  startsWith (hd [] (JS.split language 45)) language = true.
Proof.
  intros language. unfold JS.split.
  destruct (split_on_head 45 language []) as [rest H].
  cbn [rev app] in H. rewrite H at 2. apply startsWith_app.
Qed.

(** X10.  [getBestVoiceForLanguage] returns no voice exactly when none
    is available, and otherwise one of the available voices, chosen
    in this order of preference: a voice whose tag is the requested
    language; a voice whose tag starts with the language code (the
    part of the request before the first hyphen); the default voice;
    the first voice. *)
Theorem getBestVoiceForLanguage_choice : forall speechSynthesis language,
  (getBestVoiceForLanguage speechSynthesis language = None
   <-> getAvailableVoices speechSynthesis = [])
  /\ forall v,
       getBestVoiceForLanguage speechSynthesis language = Some v ->
       In v (getAvailableVoices speechSynthesis)
       /\ ((exists u, In u (getAvailableVoices speechSynthesis)
                      /\ lang u = language) ->
           lang v = language)
       /\ ((exists u, In u (getAvailableVoices speechSynthesis)
                      /\ startsWith (hd [] (JS.split language 45)) (lang u)
                         = true) ->
           startsWith (hd [] (JS.split language 45)) (lang v) = true)
       /\ ((forall u, In u (getAvailableVoices speechSynthesis) ->
                      startsWith (hd [] (JS.split language 45)) (lang u)
                      = false) ->
           (exists u, In u (getAvailableVoices speechSynthesis)
                      /\ default u = true) ->
           default v = true)
       /\ ((forall u, In u (getAvailableVoices speechSynthesis) ->
                      startsWith (hd [] (JS.split language 45)) (lang u)
                      = false) ->
           (forall u, In u (getAvailableVoices speechSynthesis) ->
                      default u = false) ->
           hd_error (getAvailableVoices speechSynthesis) = Some v).
Proof.
  intros speechSynthesis language. unfold getBestVoiceForLanguage.
  generalize (getAvailableVoices speechSynthesis). intros voices.
  destruct (find (fun v => JS.eqb (lang v) language) voices) as [e|] eqn:Fe.
  - apply find_some in Fe. destruct Fe as [Ie Ee]. apply eqb_eq in Ee.
    split.
    + split; [discriminate|]. intros ->. destruct Ie.
    + intros v [= <-]. split; [exact Ie|]. split; [intros _; exact Ee|].
      split.
      * intros _. rewrite Ee. apply langCode_prefix.
      * split; intros N _; apply N in Ie;
          rewrite Ee, langCode_prefix in Ie; discriminate.
  - assert (Ne : forall u, In u voices -> lang u <> language).
    { intros u Iu Eu. apply (find_none _ _ Fe) in Iu.
      apply eqb_eq in Eu. congruence. }
    destruct (find (fun v => startsWith (hd [] (JS.split language 45))
                                        (lang v)) voices) as [p|] eqn:Fp.
    + apply find_some in Fp. destruct Fp as [Ip Ep]. split.
      * split; [discriminate|]. intros ->. destruct Ip.
      * intros v [= <-]. split; [exact Ip|]. split.
        -- intros (u & Iu & Eu). exfalso. exact (Ne u Iu Eu).
        -- split; [intros _; exact Ep|].
           split; intros N _; apply N in Ip; congruence.
    + destruct voices as [|v0 voices]; [split; [tauto|discriminate]|].
      cbn [List.length Nat.ltb Nat.leb].
      destruct (find default (v0 :: voices)) as [d|] eqn:Fd.
      * apply find_some in Fd. destruct Fd as [Id Ed]. split.
        -- split; discriminate.
        -- intros v [= <-]. split; [exact Id|]. split.
           ++ intros (u & Iu & Eu). exfalso. exact (Ne u Iu Eu).
           ++ split.
              ** intros (u & Iu & Eu). apply (find_none _ _ Fp) in Iu.
                 congruence.
              ** split; [intros _ _; exact Ed|].
                 intros _ N. apply N in Id. congruence.
      * cbn [hd_error]. split.
        -- split; discriminate.
        -- intros v [= <-]. split; [left; reflexivity|]. split.
           ++ intros (u & Iu & Eu). exfalso. exact (Ne u Iu Eu).
           ++ split.
              ** intros (u & Iu & Eu). apply (find_none _ _ Fp) in Iu.
                 congruence.
              ** split; [|intros _ _; reflexivity].
                 intros _ (u & Iu & Eu). apply (find_none _ _ Fd) in Iu.
                 congruence.
Qed.

Lemma getBestVoiceForLanguage_choice_witness :
  getBestVoiceForLanguage
    (Some [mkVoice (js "a") (js "English") (js "en-US") true true;
           mkVoice (js "b") (js "Indonesia") (js "id") true false])
    (js "id-ID")
  = Some (mkVoice (js "b") (js "Indonesia") (js "id") true false)
  /\ startsWith (hd [] (JS.split (js "id-ID") 45)) (js "id") = true.
Proof.
  split; [reflexivity|].
  apply (proj1 (proj2 (proj2
           (proj2 (getBestVoiceForLanguage_choice
                     (Some [mkVoice (js "a") (js "English") (js "en-US")
                                    true true;
                            mkVoice (js "b") (js "Indonesia") (js "id")
                                    true false])
                     (js "id-ID"))
                  (mkVoice (js "b") (js "Indonesia") (js "id") true false)
                  eq_refl)))).
  exists (mkVoice (js "b") (js "Indonesia") (js "id") true false).
  split; [right; left; reflexivity|reflexivity].
Defined.
End CallerMore.

(** ** The second formatter *)

Module TagFacts.
Import JS Regex RegexSem RegexFacts ScanFacts StringFacts StepsFacts.
Import Notions TTS CharFacts CleanFacts BalancedFacts LengthFacts.

(** *** Replacements that touch no significant character *)

Section ScanFilter.
Variables (fl : flags) (r : regex) (tpl : list rtok) (q : N -> bool).
Hypothesis U : unicode fl = false.
Hypothesis Hm : forall prev s n cap,
  exec_at fl r prev s = Some (n, cap) ->
  filter q (firstn n s) = [] /\ filter q (expand tpl cap) = [].

Lemma scan_filter : forall s drop prev,
  filter q (firstn drop s) = [] ->
  filter q (flat_map (render tpl) (scan fl r drop 0 prev s))
  = filter q (skipn drop s).
Proof.
  induction s as [|c s IH]; intros drop prev Hd.
  - cbn [scan]. destruct drop; [|reflexivity].
    destruct (exec_at fl r prev []) as [[n cap]|] eqn:E; [|reflexivity].
    apply Hm in E. destruct E as [_ E].
    cbn [flat_map render skipn]. rewrite app_nil_r. exact E.
  - destruct drop as [|d].
    + cbn [scan skipn].
      destruct (exec_at fl r prev (c :: s)) as [[[|n] cap]|] eqn:E.
      * apply Hm in E. destruct E as [_ E].
        rewrite advance_no_u by assumption.
        cbn [flat_map render pred]. rewrite !filter_app, E.
        cbn [app]. rewrite (IH 0 (Some c) eq_refl).
        cbn [skipn filter]. destruct (q c); reflexivity.
      * apply Hm in E. destruct E as [E1 E2].
        cbn [flat_map render]. rewrite filter_app, E2. cbn [app].
        cbn [firstn filter] in E1.
        destruct (q c) eqn:Q; [discriminate|].
        rewrite (IH n (Some c) E1). cbn [filter]. rewrite Q.
        rewrite <- (firstn_skipn n s) at 2.
        rewrite filter_app, E1. reflexivity.
      * rewrite advance_no_u by assumption.
        cbn [flat_map render pred]. rewrite filter_app.
        rewrite (IH 0 (Some c) eq_refl).
        cbn [skipn filter]. destruct (q c); reflexivity.
    + cbn [scan skipn]. cbn [firstn filter] in Hd.
      destruct (q c) eqn:Q; [discriminate|].
      apply IH. exact Hd.
Qed.

Lemma replace_filter : forall s,
  filter q (replace fl r tpl s) = filter q s.
Proof. intros s. unfold replace. apply (scan_filter s 0 None eq_refl). Qed.
End ScanFilter.

Lemma filter_nil_forall : forall (q : N -> bool) l,
  (forall c, In c l -> q c = false) -> filter q l = [].
Proof.
  intros q l. induction l as [|c l IH]; intros H; [reflexivity|].
  cbn [filter]. rewrite (H c (or_introl eq_refl)).
  apply IH. intros x Hx. apply H. right. exact Hx.
Qed.

(** *** What a match is made of *)

Lemma lit1_inv : forall fl x st st',
  unicode fl = false -> ignoreCase fl = false ->
  lit_match fl [x] st = Some st' ->
  st_rest st = x :: st_rest st'.
Proof.
  intros fl x st st' U I H. cbn [lit_match] in H.
  rewrite step_no_u in H by assumption.
  destruct (st_rest st) as [|c t]; [discriminate|].
  cbn [atom_match] in H. unfold canon in H. rewrite I in H.
  destruct (c =? x)%N eqn:E; [|discriminate].
  apply N.eqb_eq in E. inversion H; subst. reflexivity.
Qed.

Lemma lit1_intro : forall fl x prev t cap,
  unicode fl = false ->
  lit_match fl [x] (mkState prev (x :: t) cap)
  = Some (mkState (Some x) t cap).
Proof.
  intros fl x prev t cap U. cbn [lit_match].
  rewrite step_no_u by assumption. cbn [st_rest st_cap atom_match].
  rewrite N.eqb_refl. reflexivity.
Qed.

Lemma exec_at_rep_inv : forall fl g mn mx a prev s n cap,
  unicode fl = false ->
  wf (Rep g mn mx a) = true ->
  exec_at fl (Rep g mn mx a) prev s = Some (n, cap) ->
  forallb (atom_match fl a) (firstn n s) = true.
Proof.
  intros fl g mn mx a prev s n cap U W H.
  apply exec_at_inv in H; [|exact W].
  destruct H as (st' & (k & Hs & _) & En & _).
  apply steps_inv_no_u in Hs; [|assumption].
  destruct Hs as (ws & Es & F & L). cbn [st_rest] in Es.
  assert (E : n = List.length ws).
  { rewrite En, Es, length_app. lia. }
  rewrite E, Es, firstn_exact. exact F.
Qed.

Lemma angle_not_space : forall c, isSpace c = true -> angle c = false.
Proof.
  intros c H. destruct (angle c) eqn:A; [|reflexivity].
  unfold angle in A. apply orb_true_iff in A.
  destruct A as [A|A]; apply N.eqb_eq in A; subst c; discriminate H.
Qed.

Lemma spaces_no_angle : forall ws,
  forallb isSpace ws = true -> filter angle ws = [].
Proof.
  intros ws H. apply filter_nil_forall. intros c Hc.
  rewrite forallb_forall in H. apply angle_not_space. apply H. exact Hc.
Qed.

Lemma space_class_match : forall fl c,
  atom_match fl space c = isSpace c.
Proof.
  intros fl c. cbn [atom_match space existsb item_match xorb].
  rewrite orb_false_r. reflexivity.
Qed.

(** [/\s+/g] *)
Lemma squeeze_spaces_filter : forall s,
  filter angle (replace noflags (plus space) [RText (js " ")] s)
  = filter angle s.
Proof.
  intros s. apply replace_filter; [reflexivity|].
  intros prev t n cap H. split; [|reflexivity].
  apply exec_at_rep_inv in H; [|reflexivity|reflexivity].
  apply spaces_no_angle.
  rewrite forallb_forall in H |- *. intros c Hc.
  rewrite <- (space_class_match noflags). apply H. exact Hc.
Qed.

(** [/\n\s*\n/g] *)
Lemma squeeze_lines_filter : forall s,
  filter angle
         (replace noflags (seq [Lit [LF]; star space; Lit [LF]])
                  [RText [LF]] s)
  = filter angle s.
Proof.
  intros s. apply replace_filter; [reflexivity|].
  intros prev t n cap H. split; [|reflexivity].
  apply exec_at_inv in H; [|reflexivity].
  destruct H as (st' & (st1 & M1 & st2 & (k & Hs & _) & M3) & En & _).
  apply lit1_inv in M1; [|reflexivity|reflexivity].
  apply lit1_inv in M3; [|reflexivity|reflexivity].
  apply steps_inv_no_u in Hs; [|reflexivity].
  destruct Hs as (ws & Es & F & _). cbn [st_rest] in M1.
  assert (E : t = (LF :: ws ++ [LF]) ++ st_rest st').
  { rewrite M1, Es, M3. cbn [app]. rewrite <- app_assoc. reflexivity. }
  assert (L : n = List.length (LF :: ws ++ [LF])).
  { rewrite En, E, length_app. lia. }
  rewrite L, E, firstn_exact.
  cbn [filter]. change (angle LF) with false. cbv iota.
  rewrite filter_app. cbn [filter]. change (angle LF) with false.
  cbv iota. rewrite app_nil_r. apply spaces_no_angle.
  rewrite forallb_forall in F |- *. intros c Hc.
  rewrite <- (space_class_match noflags). apply F. exact Hc.
Qed.

Lemma trimStart_filter : forall s, filter angle (trimStart s) = filter angle s.
Proof.
  induction s as [|c s IH]; [reflexivity|]. cbn [trimStart].
  destruct (isSpace c) eqn:E; [|reflexivity].
  cbn [filter]. rewrite (angle_not_space _ E). exact IH.
Qed.

Lemma filter_rev' : forall (q : N -> bool) l,
  filter q (rev l) = rev (filter q l).
Proof.
  intros q l. induction l as [|c l IH]; [reflexivity|].
  cbn [rev filter]. rewrite filter_app, IH. cbn [filter].
  destruct (q c); [reflexivity|]. apply app_nil_r.
Qed.

Lemma trim_filter : forall s, filter angle (trim s) = filter angle s.
Proof.
  intros s. unfold trim, trimEnd.
  rewrite filter_rev', trimStart_filter, filter_rev', rev_involutive.
  apply trimStart_filter.
Qed.

Lemma squeezeWhitespace_filter : forall s,
  filter angle (squeezeWhitespace s) = filter angle s.
Proof.
  intros s. unfold squeezeWhitespace.
  rewrite trim_filter, squeeze_lines_filter. apply squeeze_spaces_filter.
Qed.

(** *** Texts without a tag *)

Lemma exists_gt_filter : forall s,
  existsb (N.eqb 62) (filter angle s) = existsb (N.eqb 62) s.
Proof.
  induction s as [|c s IH]; [reflexivity|]. cbn [filter existsb].
  destruct (angle c) eqn:A.
  - cbn [existsb]. rewrite IH. reflexivity.
  - rewrite IH. unfold angle in A. apply orb_false_iff in A.
    destruct A as [_ A]. rewrite N.eqb_sym, A. reflexivity.
Qed.

Lemma tagless_filter : forall s, tagless (filter angle s) = tagless s.
Proof.
  induction s as [|c s IH]; [reflexivity|]. cbn [filter tagless].
  destruct (angle c) eqn:A.
  - cbn [tagless]. rewrite exists_gt_filter, IH. reflexivity.
  - rewrite IH. unfold angle in A. apply orb_false_iff in A.
    destruct A as [A _]. rewrite A. reflexivity.
Qed.

Lemma existsb_gt_in : forall s,
  existsb (N.eqb 62) s = true <-> In 62%N s.
Proof.
  intros s. rewrite existsb_exists. split.
  - intros (x & Hx & E). apply N.eqb_eq in E. subst x. exact Hx.
  - intros H. exists 62%N. split; [exact H|reflexivity].
Qed.

Lemma tagless_no_gt : forall s,
  existsb (N.eqb 62) s = false -> tagless s = true.
Proof.
  induction s as [|c s IH]; intros H; [reflexivity|].
  cbn [existsb] in H. apply orb_false_iff in H. destruct H as [_ H].
  cbn [tagless]. rewrite H, (IH H), orb_true_r. reflexivity.
Qed.

Lemma first_gt : forall s,
  existsb (N.eqb 62) s = true ->
  exists u post, s = u ++ 62%N :: post /\ existsb (N.eqb 62) u = false.
Proof.
  induction s as [|c s IH]; intros H; [discriminate|].
  cbn [existsb] in H. destruct (62 =? c)%N eqn:E.
  - apply N.eqb_eq in E. subst c. exists [], s. split; reflexivity.
  - cbn [orb] in H. destruct (IH H) as (u & post & -> & Hu).
    exists (c :: u), post. split; [reflexivity|].
    cbn [existsb]. rewrite E, Hu. reflexivity.
Qed.

(** A text with a tag splits at its first [<]. *)
Lemma tagless_split : forall s,
  tagless s = false ->
  exists pre u post,
    s = pre ++ 60%N :: u ++ 62%N :: post
    /\ existsb (N.eqb 60) pre = false
    /\ existsb (N.eqb 62) u = false.
Proof.
  induction s as [|c s IH]; intros H; [discriminate|].
  cbn [tagless] in H.
  destruct (c =? 60)%N eqn:C.
  - apply N.eqb_eq in C. subst c.
    destruct (existsb (N.eqb 62) s) eqn:G.
    + destruct (first_gt _ G) as (u & post & -> & Hu).
      exists [], u, post. repeat split; auto.
    + rewrite (tagless_no_gt _ G) in H. discriminate.
  - cbn [negb orb andb] in H.
    destruct (IH H) as (pre & u & post & -> & Hp & Hu).
    exists (c :: pre), u, post. repeat split; auto.
    cbn [existsb]. rewrite N.eqb_sym, C, Hp. reflexivity.
Qed.

Lemma tagless_spec : forall s,
  tagless s = true <->
  forall a b c, s <> a ++ 60%N :: b ++ 62%N :: c.
Proof.
  intros s. split.
  - intros H a. revert s H.
    induction a as [|x a IH]; intros s H b c E; subst s.
    + cbn [app tagless] in H. rewrite existsb_app in H.
      cbn [existsb] in H. rewrite !N.eqb_refl in H. cbn [orb] in H.
      rewrite orb_true_r in H. discriminate H.
    + cbn [app tagless] in H. apply andb_prop in H. destruct H as [_ H].
      exact (IH _ H b c eq_refl).
  - intros H. destruct (tagless s) eqn:T; [reflexivity|].
    destruct (tagless_split _ T) as (pre & u & post & E & _).
    exfalso. exact (H pre u post E).
Qed.

Lemma tagless_prefix : forall a b, tagless (a ++ b) = true -> tagless a = true.
Proof.
  intros a b H. apply tagless_spec. intros x y z E.
  rewrite tagless_spec in H. apply (H x y (z ++ b)).
  rewrite E, <- app_assoc. cbn [app]. rewrite <- app_assoc. reflexivity.
Qed.

Lemma tagless_firstn : forall n s, tagless s = true -> tagless (firstn n s) = true.
Proof.
  intros n s H. rewrite <- (firstn_skipn n s) in H.
  eapply tagless_prefix. exact H.
Qed.

Lemma tagless_after : forall pre s,
  existsb (N.eqb 60) pre = false -> tagless (pre ++ s) = tagless s.
Proof.
  induction pre as [|c pre IH]; intros s H; [reflexivity|].
  cbn [existsb] in H. apply orb_false_iff in H. destruct H as [C H].
  cbn [app tagless]. rewrite N.eqb_sym, C, (IH s H). reflexivity.
Qed.

(** *** [/<[^>]*>/g] *)

Lemma not_gt_match : forall c,
  atom_match noflags (none_of ">") c = negb (62 =? c)%N.
Proof.
  intros c. cbn. rewrite orb_false_r, N.eqb_sym. reflexivity.
Qed.

Lemma html_tag_inv : forall prev s n cap,
  exec_at noflags html_tag prev s = Some (n, cap) ->
  exists u post,
    s = 60%N :: u ++ 62%N :: post
    /\ existsb (N.eqb 62) u = false
    /\ n = S (S (List.length u)).
Proof.
  intros prev s n cap H.
  apply exec_at_inv in H; [|reflexivity].
  destruct H as (st' & (st1 & M1 & st2 & (k & Hs & _) & M3) & En & _).
  apply lit1_inv in M1; [|reflexivity|reflexivity].
  apply lit1_inv in M3; [|reflexivity|reflexivity].
  apply steps_inv_no_u in Hs; [|reflexivity].
  destruct Hs as (ws & Es & F & _). cbn [st_rest] in M1.
  exists ws, (st_rest st'). split; [|split].
  - rewrite M1, Es, M3. reflexivity.
  - destruct (existsb (N.eqb 62) ws) eqn:X; [|reflexivity].
    apply existsb_exists in X. destruct X as (x & Hx & E).
    rewrite forallb_forall in F. apply F in Hx.
    rewrite not_gt_match, E in Hx. discriminate.
  - rewrite En, M1, Es, M3. cbn [List.length]. rewrite length_app.
    cbn [List.length]. lia.
Qed.

Lemma first_gt_unique : forall u v u' v',
  u ++ 62%N :: v = u' ++ 62%N :: v' ->
  existsb (N.eqb 62) u = false -> existsb (N.eqb 62) u' = false ->
  u = u'.
Proof.
  induction u as [|x u IH]; intros v u' v' E Hu Hu'.
  - destruct u' as [|y u']; [reflexivity|].
    cbn in E. inversion E; subst. cbn in Hu'. discriminate.
  - destruct u' as [|y u'].
    + cbn in E. inversion E; subst. cbn in Hu. discriminate.
    + cbn in E. inversion E; subst.
      cbn [existsb] in Hu, Hu'.
      apply orb_false_iff in Hu. apply orb_false_iff in Hu'.
      f_equal. eapply IH; [eassumption|tauto|tauto].
Qed.

Lemma html_tag_match : forall prev u post,
  existsb (N.eqb 62) u = false ->
  exists cap,
    exec_at noflags html_tag prev (60%N :: u ++ 62%N :: post)
    = Some (List.length (60%N :: u ++ [62%N]), cap).
Proof.
  intros prev u post Hu.
  destruct (exec_at noflags html_tag prev (60%N :: u ++ 62%N :: post))
    as [[n cap]|] eqn:E.
  - exists cap. destruct (html_tag_inv _ _ E) as (u' & post' & E' & Hu' & ->).
    inversion E' as [E2].
    rewrite (first_gt_unique _ _ _ _ E2 Hu Hu').
    cbn [List.length]. rewrite length_app. cbn [List.length].
    f_equal. f_equal. lia.
  - exfalso. revert E. apply exec_at_some; [reflexivity|].
    exists (mkState (Some 62%N) post None).
    exists (mkState (Some 60%N) (u ++ 62%N :: post) None).
    split; [apply lit1_intro; reflexivity|].
    exists (mkState (last_or (Some 60%N) u) (62%N :: post) None).
    split; [|apply lit1_intro; reflexivity].
    exists (List.length u). split; [|split; [lia|discriminate]].
    apply steps_intro; [reflexivity|].
    apply forallb_forall. intros x Hx. rewrite not_gt_match.
    destruct (62 =? x)%N eqn:X; [|reflexivity].
    assert (T : existsb (N.eqb 62) u = true).
    { apply existsb_exists. exists x. split; assumption. }
    congruence.
Qed.

Lemma html_tag_strip : forall n s prev,
  List.length s <= n ->
  tagless (flat_map (render []) (scan noflags html_tag 0 0 prev s)) = true.
Proof.
  induction n as [|n IH]; intros s prev L.
  - destruct s; [|cbn in L; lia]. reflexivity.
  - destruct (tagless s) eqn:T.
    + rewrite scan_no_match.
      * rewrite flat_map_kept. exact T.
      * intros a b E.
        destruct (exec_at noflags html_tag (last_or prev a) b)
          as [[k cap]|] eqn:X; [|reflexivity].
        destruct (html_tag_inv _ _ X) as (u & post & -> & _).
        rewrite tagless_spec in T. exfalso. exact (T a u post E).
    + destruct (tagless_split _ T) as (pre & u & post & -> & Hp & Hu).
      destruct (html_tag_match (last_or prev pre) u post Hu) as [cap Hc].
      pose proof (@scan_prefix_then_match noflags html_tag pre
                    (60%N :: u ++ [62%N]) post prev cap eq_refl) as Hs.
      cbn [app] in Hs. rewrite <- app_assoc in Hs. cbn [app] in Hs.
      rewrite Hs.
      * rewrite flat_map_app, flat_map_kept. cbn [flat_map render expand].
        cbn [app]. rewrite tagless_after by exact Hp.
        apply IH. rewrite length_app in L. cbn [List.length] in L.
        rewrite length_app in L. cbn [List.length] in L. lia.
      * intros a b E Hb.
        destruct (exec_at noflags html_tag (last_or prev a)
                          (b ++ 60%N :: u ++ 62%N :: post))
          as [[k cap']|] eqn:X; [|reflexivity].
        destruct (html_tag_inv _ _ X) as (u' & post' & E' & _).
        destruct b as [|x b]; [congruence|]. cbn in E'. inversion E'; subst.
        rewrite existsb_app in Hp. cbn [existsb] in Hp.
        rewrite N.eqb_refl in Hp. cbn [orb] in Hp.
        rewrite orb_true_r in Hp. discriminate.
      * exact Hc.
      * discriminate.
Qed.

Lemma html_tag_tagless : forall s,
  tagless (replace noflags html_tag [] s) = true.
Proof.
  intros s. unfold replace. apply (@html_tag_strip (List.length s)). lia.
Qed.
End TagFacts.

Module ThinkTagFacts.
Import JS Regex RegexSem RegexFacts ScanFacts StringFacts StepsFacts.
Import AtomFacts Notions Spec TTS CharFacts CleanFacts BalancedFacts TagFacts.

Lemma upper_gt : forall c, toUpperAscii c = 62%N -> c = 62%N.
Proof.
  intros c H. unfold toUpperAscii in H.
  destruct (in_range 97 122 c) eqn:R; [|exact H].
  unfold in_range in R. apply andb_prop in R. destruct R as [R1 R2].
  apply N.leb_le in R1, R2. lia.
Qed.

Lemma starts_ci_firstn : forall p s,
  starts_ci p s = true -> ci_equal (firstn (List.length p) s) p = true.
Proof.
  induction p as [|x p IH]; intros s H; [reflexivity|].
  destruct s as [|y s]; [discriminate|]. cbn [starts_ci] in H.
  apply andb_prop in H. destruct H as [H1 H2].
  cbn [List.length firstn ci_equal]. rewrite N.eqb_sym, H1. apply IH, H2.
Qed.

(** A match of [<think>[\s\S]*?</think>] is a start marker, any text
    and an end marker. *)
Lemma think_tags_inv : forall prev b,
  exec_at fl_i think_tags prev b <> None ->
  exists mo body mc post,
    b = mo ++ body ++ mc ++ post
    /\ ci_equal mo OPEN = true /\ ci_equal mc CLOSE = true.
Proof.
  intros prev b H. apply exec_at_some in H; [|reflexivity].
  destruct H as (st' & st1 & M1 & st2 & (k & Hs & _) & M3).
  change (lit_match fl_i OPEN (mkState prev b None) = Some st1) in M1.
  change (lit_match fl_i CLOSE st2 = Some st') in M3.
  assert (S1 : starts_ci OPEN b = true).
  { apply (@lit_match_starts_ci fl_i OPEN (mkState prev b None)
             eq_refl eq_refl). congruence. }
  assert (S3 : starts_ci CLOSE (st_rest st2) = true).
  { apply (@lit_match_starts_ci fl_i CLOSE st2 eq_refl eq_refl).
    congruence. }
  pose proof (@lit_match_rest fl_i OPEN _ _ eq_refl M1) as [R1 _].
  cbn [st_rest] in R1.
  apply steps_inv_no_u in Hs; [|reflexivity].
  destruct Hs as (ws & Es & _ & _).
  exists (firstn (List.length OPEN) b), ws,
         (firstn (List.length CLOSE) (st_rest st2)),
         (skipn (List.length CLOSE) (st_rest st2)).
  split; [|split].
  - rewrite firstn_skipn, <- Es, R1. symmetry. apply firstn_skipn.
  - apply starts_ci_firstn. exact S1.
  - apply starts_ci_firstn. exact S3.
Qed.

Lemma think_tags_intro : forall prev mo body mc post,
  ci_equal mo OPEN = true -> ci_equal mc CLOSE = true ->
  exec_at fl_i think_tags prev (mo ++ body ++ mc ++ post) <> None.
Proof.
  intros prev mo body mc post Hmo Hmc.
  pose proof (ci_equal_starts _ _ Hmo) as [So Lo].
  pose proof (ci_equal_starts _ _ Hmc) as [Sc Lc].
  apply exec_at_some; [reflexivity|].
  destruct (lit_match fl_i OPEN
              (mkState prev (mo ++ body ++ mc ++ post) None))
    as [[p1 s1 c1]|] eqn:E1.
  2:{ exfalso. revert E1.
      apply (@lit_match_starts_ci fl_i OPEN
               (mkState prev (mo ++ body ++ mc ++ post) None)
               eq_refl eq_refl).
      apply starts_ci_app. exact So. }
  pose proof (@lit_match_rest fl_i OPEN _ _ eq_refl E1) as [R1 _].
  cbn [st_rest] in R1.
  rewrite <- Lo, skipn_app, skipn_all, Nat.sub_diag in R1.
  cbn [skipn app] in R1. subst s1.
  destruct (lit_match fl_i CLOSE
              (mkState (last_or p1 body) (mc ++ post) c1))
    as [st3|] eqn:E3.
  2:{ exfalso. revert E3.
      apply (@lit_match_starts_ci fl_i CLOSE
               (mkState (last_or p1 body) (mc ++ post) c1)
               eq_refl eq_refl).
      apply starts_ci_app. exact Sc. }
  exists st3, (mkState p1 (body ++ mc ++ post) c1). split; [exact E1|].
  exists (mkState (last_or p1 body) (mc ++ post) c1).
  split; [|exact E3].
  exists (List.length body). split; [|split; [lia|discriminate]].
  apply steps_any. reflexivity.
Qed.

Lemma hasThinkTags_spans : forall text,
  hasThinkTags text = true <->
  exists pre mo body mc post,
    text = pre ++ mo ++ body ++ mc ++ post
    /\ ci_equal mo OPEN = true /\ ci_equal mc CLOSE = true.
Proof.
  intros text. unfold hasThinkTags. rewrite test_iff by reflexivity. split.
  - intros (a & b & -> & H). apply think_tags_inv in H.
    destruct H as (mo & body & mc & post & -> & Hmo & Hmc).
    exists a, mo, body, mc, post. auto.
  - intros (pre & mo & body & mc & post & -> & Hmo & Hmc).
    exists pre, (mo ++ body ++ mc ++ post). split; [reflexivity|].
    apply think_tags_intro; assumption.
Qed.

(** A start marker begins with [<] and ends with [>]. *)
Lemma open_marker_shape : forall mo,
  ci_equal mo OPEN = true ->
  exists mid, mo = 60%N :: mid ++ [62%N].
Proof.
  intros mo H.
  pose proof (ci_equal_starts _ _ H) as [S L].
  destruct mo as [|c0 [|c1 [|c2 [|c3 [|c4 [|c5 [|c6 [|c7 mo]]]]]]]];
    try discriminate L.
  assert (E0 : toUpperAscii c0 = 60%N).
  { symmetry. apply (@starts_ci_nth OPEN _ S 0). cbn. lia. }
  assert (E6 : toUpperAscii c6 = 62%N).
  { symmetry. apply (@starts_ci_nth OPEN _ S 6). cbn. lia. }
  exists [c1; c2; c3; c4; c5].
  rewrite (@upper_lt c0 E0), (@upper_gt c6 E6). reflexivity.
Qed.

Lemma hasThinkTags_not_tagless : forall text,
  hasThinkTags text = true -> tagless text = false.
Proof.
  intros text H. apply hasThinkTags_spans in H.
  destruct H as (pre & mo & body & mc & post & -> & Hmo & _).
  destruct (open_marker_shape _ Hmo) as [mid ->].
  destruct (tagless _) eqn:T; [|reflexivity].
  rewrite tagless_spec in T. exfalso.
  apply (T pre mid (body ++ mc ++ post)).
  cbn [app]. rewrite <- app_assoc. reflexivity.
Qed.

Lemma test_atom : forall fl a s,
  unicode fl = false ->
  test fl (Atom a) s = existsb (atom_match fl a) s.
Proof.
  intros fl a s U.
  destruct (existsb (atom_match fl a) s) eqn:X.
  - apply test_iff; [exact U|].
    apply existsb_exists in X. destruct X as (c & Hc & A).
    apply in_split in Hc. destruct Hc as (l1 & l2 & ->).
    exists l1, (c :: l2). split; [reflexivity|].
    rewrite exec_at_atom by exact U. rewrite A. discriminate.
  - destruct (test fl (Atom a) s) eqn:T; [|reflexivity].
    apply test_iff in T; [|exact U].
    destruct T as (l1 & b & -> & H).
    destruct b as [|c l2]; [exfalso; apply H; reflexivity|].
    rewrite exec_at_atom in H by exact U.
    destruct (atom_match fl a c) eqn:A; [|congruence].
    assert (Y : existsb (atom_match fl a) (l1 ++ c :: l2) = true).
    { apply existsb_exists. exists c. split; [|exact A].
      apply in_or_app. right. left. reflexivity. }
    congruence.
Qed.

Lemma problematic_class : forall c,
  atom_match noflags (one_of "<>{}[]") c = problematic c.
Proof. intros c. reflexivity. Qed.
End ThinkTagFacts.

Module FormatterMore.
Import JS Regex RegexSem Notions Spec TTS.
Import LengthFacts TagFacts ThinkTagFacts.

Lemma formatForTTS_tagless : forall text options,
  tagless (formatForTTS text options) = true.
Proof.
  intros text options. unfold formatForTTS.
  match goal with
  | |- context [replace noflags html_tag [] ?x] =>
      pose proof (html_tag_tagless x) as T;
      generalize dependent (replace noflags html_tag [] x)
  end.
  intros f5 T.
  assert (T6 : tagless (if flag (normalizeWhitespace options)
                        then squeezeWhitespace f5 else f5) = true).
  { destruct (flag (normalizeWhitespace options)); [|exact T].
    rewrite <- tagless_filter, squeezeWhitespace_filter, tagless_filter.
    exact T. }
  generalize dependent (if flag (normalizeWhitespace options)
                        then squeezeWhitespace f5 else f5).
  intros f6 T6.
  destruct (limit (maxLength options)) as [n|]; [|exact T6].
  destruct (negb (n =? 0)%Z && (len f6 >? n)%Z); [|exact T6].
  unfold truncate.
  assert (Tc : tagless
                 (if (lastIndexOf (substring0 f6 n) (js " ") >? 0)%Z
                  then substring0 (substring0 f6 n)
                                  (lastIndexOf (substring0 f6 n) (js " "))
                  else substring0 f6 n) = true).
  { destruct (lastIndexOf (substring0 f6 n) (js " ") >? 0)%Z;
      unfold substring0; repeat apply tagless_firstn; exact T6. }
  generalize dependent
    (if (lastIndexOf (substring0 f6 n) (js " ") >? 0)%Z
     then substring0 (substring0 f6 n)
                     (lastIndexOf (substring0 f6 n) (js " "))
     else substring0 f6 n).
  intros cut Tc.
  destruct (len cut <? len text)%Z; [|exact Tc].
  rewrite <- tagless_filter, filter_app. cbn [filter js List.map
    list_ascii_of_string]. change (angle (N_of_ascii "."%char)) with false.
  cbv iota. rewrite app_nil_r, tagless_filter. exact Tc.
Qed.

(** X11.  Whatever the options, the text [formatForTTS] returns holds
    no tag at all: no [<] is followed, however far, by a [>].  So it
    never holds a complete reasoning span, even with the removal of
    reasoning spans switched off; the same goes for
    [formatForConversation] and [formatForDisplay]. *)
Theorem formatForTTS_no_tag : forall text options,
  (forall a b c,
      formatForTTS text options <> a ++ js "<" ++ b ++ js ">" ++ c)
  /\ hasThinkTags (formatForTTS text options) = false
  /\ hasThinkTags (formatForConversation text) = false
  /\ hasThinkTags (formatForDisplay text) = false.
Proof.
  intros text options.
  assert (H : forall o, hasThinkTags (formatForTTS text o) = false).
  { intros o. destruct (hasThinkTags (formatForTTS text o)) eqn:E;
      [|reflexivity].
    apply hasThinkTags_not_tagless in E.
    rewrite formatForTTS_tagless in E. discriminate. }
  split; [|split; [apply H|split; apply H]].
  apply tagless_spec. apply formatForTTS_tagless.
Qed.

(** X12.  With a non-zero length limit [n] in force (the default is
    500), the result of [formatForTTS] is at most three characters
    longer than the limit, and whenever it is longer than the limit it
    is a cut of at most [n] characters followed by the three dots. *)
Theorem formatForTTS_length : forall text options n,
  limit (maxLength options) = Some n ->
  n <> 0%Z ->
  (len (formatForTTS text options) <= Z.max 0 n + 3)%Z
  /\ ((Z.max 0 n < len (formatForTTS text options))%Z ->
      exists cut,
        formatForTTS text options = cut ++ js "..."
        /\ (len cut <= Z.max 0 n)%Z).
Proof.
  intros text options n Hn Hz. unfold formatForTTS. rewrite Hn.
  match goal with
  | |- context [if flag (normalizeWhitespace options) then ?x else ?y] =>
      generalize (if flag (normalizeWhitespace options) then x else y)
  end.
  intros f6.
  assert (Z0 : (n =? 0)%Z = false) by (apply Z.eqb_neq; exact Hz).
  rewrite Z0. cbn [negb andb].
  destruct (len f6 >? n)%Z eqn:G.
  - unfold truncate.
    assert (B : (len (if (lastIndexOf (substring0 f6 n) (js " ") >? 0)%Z
                      then substring0 (substring0 f6 n)
                             (lastIndexOf (substring0 f6 n) (js " "))
                      else substring0 f6 n) <= Z.max 0 n)%Z).
    { assert (B1 : (len (substring0 f6 n) <= Z.max 0 n)%Z).
      { unfold len, substring0. rewrite length_firstn. lia. }
      destruct (lastIndexOf (substring0 f6 n) (js " ") >? 0)%Z;
        [|exact B1].
      assert (B2 : (len (substring0 (substring0 f6 n)
                           (lastIndexOf (substring0 f6 n) (js " ")))
                    <= len (substring0 f6 n))%Z).
      { unfold len. unfold substring0 at 1. rewrite length_firstn. lia. }
      lia. }
    generalize dependent
      (if (lastIndexOf (substring0 f6 n) (js " ") >? 0)%Z
       then substring0 (substring0 f6 n)
                       (lastIndexOf (substring0 f6 n) (js " "))
       else substring0 f6 n).
    intros cut B.
    destruct (len cut <? len text)%Z.
    + split.
      * rewrite len_app. change (len (js "...")) with 3%Z. lia.
      * intros _. exists cut. split; [reflexivity|exact B].
    + split; [lia|]. intros H. lia.
  - rewrite Z.gtb_ltb in G. apply Z.ltb_ge in G. split; [lia|].
    intros H. lia.
Qed.

Lemma formatForTTS_length_witness :
  limit (maxLength (mkOptions None None None None None (Some (Some 5%Z))))
  = Some 5%Z
  /\ 5%Z <> 0%Z
  /\ (len (formatForTTS (js "abcdefgh ijkl")
                        (mkOptions None None None None None
                                   (Some (Some 5%Z))))
      <= Z.max 0 5 + 3)%Z.
Proof.
  assert (H : 5%Z <> 0%Z) by discriminate.
  split; [reflexivity|]. split; [exact H|].
  apply (proj1 (@formatForTTS_length
                  (js "abcdefgh ijkl")
                  (mkOptions None None None None None (Some (Some 5%Z)))
                  5%Z eq_refl H)).
Defined.

(** X13.  [hasThinkTags] holds exactly of the texts with a complete
    reasoning span: a start marker and, somewhere after it, an end
    marker, both in any letter case.  A start marker that is never
    closed is not detected. *)
Theorem hasThinkTags_iff : forall text,
  hasThinkTags text = true <->
  exists pre mo body mc post,
    text = pre ++ mo ++ body ++ mc ++ post
    /\ ci_equal mo OPEN = true /\ ci_equal mc CLOSE = true.
Proof. exact hasThinkTags_spans. Qed.

(** X14.  [validateForTTS] accepts a text exactly when it is at most
    1000 code units long and holds none of [< > { } [ ]]; the check
    for reasoning spans adds nothing to that, since whenever it
    reports its issue the check for problematic characters reports
    too.  Whatever the verdict, [cleaned] holds no tag. *)
Theorem validateForTTS_valid_iff : forall text,
  (isValid (validateForTTS text) = true <->
   (len text <= 1000)%Z /\ forall c, In c text -> problematic c = false)
  /\ (In (js "Contains <think> tags") (issues (validateForTTS text)) ->
      In (js "Contains problematic characters")
         (issues (validateForTTS text)))
  /\ hasThinkTags (cleaned (validateForTTS text)) = false.
Proof.
  intros text. unfold validateForTTS. cbn [isValid issues cleaned].
  rewrite test_atom by reflexivity.
  assert (P : existsb (atom_match noflags (one_of "<>{}[]")) text
              = existsb problematic text).
  { induction text as [|c t IH]; [reflexivity|].
    cbn [existsb]. rewrite IH, problematic_class. reflexivity. }
  rewrite P.
  assert (HP : hasThinkTags text = true -> existsb problematic text = true).
  { intros H. apply hasThinkTags_spans in H.
    destruct H as (pre & mo & body & mc & post & -> & Hmo & _).
    destruct (open_marker_shape _ Hmo) as [mid ->].
    apply existsb_exists. exists 60%N. split; [|reflexivity].
    apply in_or_app. right. left. reflexivity. }
  assert (Q : existsb problematic text = false <->
              forall c, In c text -> problematic c = false).
  { split.
    - intros E c Hc. destruct (problematic c) eqn:X; [|reflexivity].
      assert (Y : existsb problematic text = true)
        by (apply existsb_exists; exists c; auto).
      congruence.
    - intros E. destruct (existsb problematic text) eqn:X; [|reflexivity].
      apply existsb_exists in X. destruct X as (c & Hc & Y).
      rewrite (E c Hc) in Y. discriminate. }
  split; [|split].
  - destruct (hasThinkTags text) eqn:H.
    + rewrite (HP eq_refl). cbn [pushIf app].
      destruct (len text >? 1000)%Z; cbn [pushIf app List.length Nat.eqb];
        (split; [discriminate|]); intros [_ E]; apply Q in E;
        rewrite (HP eq_refl) in E; discriminate.
    + cbn [pushIf app]. destruct (len text >? 1000)%Z eqn:G;
        rewrite Z.gtb_ltb in G.
      * apply Z.ltb_lt in G.
        destruct (existsb problematic text);
          cbn [pushIf app List.length Nat.eqb];
          (split; [discriminate|intros [L _]; lia]).
      * apply Z.ltb_ge in G.
        destruct (existsb problematic text) eqn:X;
          cbn [pushIf app List.length Nat.eqb].
        -- split; [discriminate|]. intros [_ E]. apply Q in E.
           discriminate.
        -- split; [|reflexivity]. intros _. split; [exact G|].
           apply Q. reflexivity.
  - destruct (hasThinkTags text) eqn:H.
    + intros _. rewrite (HP eq_refl).
      destruct (len text >? 1000)%Z; cbn [pushIf app In]; auto.
    + cbn [pushIf app].
      destruct (len text >? 1000)%Z, (existsb problematic text);
        cbn [pushIf app In]; intros K;
        repeat (destruct K as [K|K]; try discriminate K); try contradiction.
  - destruct (hasThinkTags (formatForTTS text no_options)) eqn:E;
      [|reflexivity].
    apply hasThinkTags_not_tagless in E.
    rewrite formatForTTS_tagless in E. discriminate.
Qed.

Lemma validateForTTS_valid_iff_witness :
  In (js "Contains <think> tags")
     (issues (validateForTTS (js "<think>a</think>b")))
  /\ In (js "Contains problematic characters")
        (issues (validateForTTS (js "<think>a</think>b"))).
Proof.
  assert (H : In (js "Contains <think> tags")
                 (issues (validateForTTS (js "<think>a</think>b"))))
    by (vm_compute; left; reflexivity).
  split; [exact H|].
  apply (proj1 (proj2 (validateForTTS_valid_iff (js "<think>a</think>b")))
               H).
Defined.
End FormatterMore.

(** ** The shared client *)

Module SingletonMore.
Import JS Num APIClient Spec Singleton RetryFacts.

(** The first request of a turn is the primary one; a retry may
    follow. *)
Lemma sendMessage_sent : forall this w msg history,
  exists later,
    sent (snd (sendMessage this w msg history))
    = sent w ++ primaryRequest this (random w (List.length (sent w)))
                               msg history :: later.
Proof.
  intros this w msg history. unfold sendMessage. cbn [fetch].
  destruct (backend w (List.length (sent w)) _) as [e|st e|e|data];
    cbn [snd sent]; try (exists []; reflexivity).
  destruct (seriousIssues _).
  - match goal with
      |- context [sendSimpleMessage ?t ?w' ?m ?h] =>
        pose proof (sendSimpleMessage_spec t w' m h) as (T1 & _)
    end.
    rewrite T1. cbn [sent]. rewrite <- app_assoc. cbn [app].
    eexists. reflexivity.
  - cbn [snd sent]. exists []. reflexivity.
Qed.

Lemma sendMessage_client : forall this w msg history data,
  backend w (List.length (sent w))
          (primaryRequest this (random w (List.length (sent w)))
                          msg history)
  = Json data ->
  snd (fst (sendMessage this w msg history)) = updateContext this data.
Proof.
  intros this w msg history data Hout.
  rewrite (@sendMessage_json _ _ _ _ _ Hout).
  destruct (seriousIssues _); [|reflexivity].
  match goal with
    |- context [sendSimpleMessage ?t ?w' ?m ?h] =>
      pose proof (sendSimpleMessage_spec t w' m h) as (_ & T2 & _)
  end.
  exact T2.
Qed.

(** X15.  [getAPIClient] fails exactly when no client exists and no
    configuration is given.  Given a configuration it keeps the
    existing client and only replaces its (clamped) configuration, so
    the continuation token outlives a change of model: when a turn of
    the call screen received a non-empty token, the first request of
    the next turn carries that token whatever configuration the turn
    is made with, under the new configuration's model name. *)
Theorem shared_client_keeps_context :
  forall apiClient config w msg history this data c ctx,
    fst (getAPIClient apiClient (Some config)) = Some this ->
    backend w (List.length (sent w))
            (primaryRequest this (random w (List.length (sent w)))
                            msg history)
    = Json data ->
    context data = Some (c :: ctx) ->
    (fst (getAPIClient None None) = None
     /\ fst (getAPIClient (Some this) None) = Some this)
    /\ exists response shared w1,
         turn apiClient config w msg history
         = Some (response, Some shared, w1)
         /\ forall config2 msg2 history2,
              exists response2 shared2 w2 rq later,
                turn (Some shared) config2 w1 msg2 history2
                = Some (response2, Some shared2, w2)
                /\ sent w2 = sent w1 ++ rq :: later
                /\ rq_model rq = model config2
                /\ rq_context rq = Some (c :: ctx)
                /\ this_config shared2 = validateConfig config2.
Proof.
  intros apiClient config w msg history this data c ctx Hget Hout Hctx.
  split; [split; reflexivity|].
  assert (G : getAPIClient apiClient (Some config) = (Some this, Some this)).
  { unfold getAPIClient in *. destruct apiClient; cbn [fst] in Hget;
      inversion Hget; reflexivity. }
  pose proof (sendMessage_client this w msg history Hout) as Hc.
  unfold turn. rewrite G.
  destruct (sendMessage this w msg history) as [[response shared] w1] eqn:E.
  cbn [fst snd] in Hc. subst shared.
  exists response, (updateContext this data), w1. split; [reflexivity|].
  intros config2 msg2 history2.
  unfold getAPIClient.
  destruct (sendMessage (updateConfig (updateContext this data) config2)
                        w1 msg2 history2)
    as [[response2 shared2] w2] eqn:E2.
  destruct (sendMessage_sent (updateConfig (updateContext this data) config2)
                             w1 msg2 history2) as [later Hl].
  rewrite E2 in Hl. cbn [snd] in Hl.
  exists response2, shared2, w2.
  exists (primaryRequest (updateConfig (updateContext this data) config2)
                         (random w1 (List.length (sent w1))) msg2 history2).
  exists later. split; [reflexivity|]. split; [exact Hl|].
  split; [reflexivity|]. split.
  - unfold primaryRequest, updateConfig, updateContext.
    rewrite Hctx. reflexivity.
  - assert (K : this_config (snd (fst (sendMessage
                   (updateConfig (updateContext this data) config2)
                   w1 msg2 history2))) = validateConfig config2).
    { unfold sendMessage. cbn [fetch].
      destruct (backend w1 (List.length (sent w1)) _) as [e|st e|e|d2];
        cbn [fst snd]; try reflexivity.
      destruct (seriousIssues _).
      - match goal with
          |- context [sendSimpleMessage ?t ?w' ?m ?h] =>
            pose proof (sendSimpleMessage_spec t w' m h) as (_ & T2 & _)
        end.
        rewrite T2. unfold updateContext.
        destruct (context d2); reflexivity.
      - cbn [fst snd]. unfold updateContext.
        destruct (context d2); reflexivity. }
    rewrite E2 in K. exact K.
Qed.

Lemma shared_client_keeps_context_witness :
  exists response shared w1,
    turn None default_ai failing_world (js "halo") []
    = Some (response, Some shared, w1)
    /\ forall config2 msg2 history2,
         exists response2 shared2 w2 rq later,
           turn (Some shared) config2 w1 msg2 history2
           = Some (response2, Some shared2, w2)
           /\ sent w2 = sent w1 ++ rq :: later
           /\ rq_model rq = model config2
           /\ rq_context rq = Some [1; 2; 3]%Z
           /\ this_config shared2 = validateConfig config2.
Proof.
  apply (proj2 (@shared_client_keeps_context
                  None default_ai failing_world (js "halo") []
                  (constructor default_ai) cjk_reply 1%Z [2; 3]%Z
                  eq_refl eq_refl eq_refl)).
Defined.
End SingletonMore.

(** ** What a turn returns *)

Module TurnMore.
Import JS Regex Num APIClient Spec Notions.
Import ValidateFacts RetryFacts ClientMore.

Lemma cleaned_not_empty : forall response,
  cleaned (validateResponse response) <> [].
Proof.
  intros response. unfold validateResponse. cbn [cleaned].
  match goal with
  | |- (if isEmpty ?c || _ then _ else _) <> [] =>
      destruct c as [|x c']; [discriminate|]
  end.
  cbn [isEmpty orb]. destruct (JS.eqb _ _); discriminate.
Qed.

(** X16.  [sendMessage] returns the empty message exactly when the
    primary call fails (network error, HTTP error, unreadable body);
    a result with [success = true] always carries a message, whether
    it comes from the primary reply or from the retry, and a result
    with [success = false] carries either nothing or the fixed
    greeting. *)
Theorem sendMessage_message : forall this w msg history,
  (message (fst (fst (sendMessage this w msg history))) = []
   <-> forall data,
         backend w (List.length (sent w))
                 (primaryRequest this (random w (List.length (sent w)))
                                 msg history) <> Json data)
  /\ (success (fst (fst (sendMessage this w msg history))) = true ->
      message (fst (fst (sendMessage this w msg history))) <> [])
  /\ (success (fst (fst (sendMessage this w msg history))) = false ->
      message (fst (fst (sendMessage this w msg history))) = []
      \/ message (fst (fst (sendMessage this w msg history))) = GREETING).
Proof.
  intros this w msg history.
  assert (N : forall data,
            backend w (List.length (sent w))
                    (primaryRequest this (random w (List.length (sent w)))
                                    msg history) = Json data ->
            message (fst (fst (sendMessage this w msg history))) <> []
            /\ (success (fst (fst (sendMessage this w msg history))) = false ->
                message (fst (fst (sendMessage this w msg history)))
                = GREETING)).
  { intros data Hout. rewrite (@sendMessage_json _ _ _ _ _ Hout).
    destruct (seriousIssues _).
    - match goal with
        |- context [sendSimpleMessage ?t ?w' ?m ?h] =>
          pose proof (sendSimpleMessage_spec t w' m h) as (_ & _ & M & S)
      end.
      rewrite M, S.
      match goal with
      | |- context [retryMessage ?o] => generalize o
      end.
      intros [e|st e|e|d2]; cbn [retryMessage retrySuccess];
        try (split; [discriminate|reflexivity]).
      split; [apply cleanSimpleResponse_latin1|discriminate].
    - cbn [fst message success]. split; [apply cleaned_not_empty|].
      discriminate. }
  destruct (backend w (List.length (sent w))
              (primaryRequest this (random w (List.length (sent w)))
                              msg history)) as [e|st e|e|data] eqn:Hout.
  4:{ destruct (N data eq_refl) as [N1 N2]. split; [|split].
      - split; [intros H; contradiction|].
        intros H. exfalso. apply (H data). reflexivity.
      - intros _. exact N1.
      - intros H. right. apply N2. exact H. }
  all: unfold sendMessage; cbn [fetch]; rewrite Hout;
    cbn [fst message success failure];
    (split; [split; [intros _ data; discriminate|reflexivity]|]);
    (split; [discriminate|left; reflexivity]).
Qed.

Lemma sendMessage_message_witness :
  success (fst (fst (sendMessage (constructor default_ai) stubborn_world
                                 (js "halo") []))) = true
  /\ message (fst (fst (sendMessage (constructor default_ai) stubborn_world
                                    (js "halo") []))) <> [].
Proof.
  assert (H : success (fst (fst (sendMessage (constructor default_ai)
                                             stubborn_world
                                             (js "halo") []))) = true)
    by (vm_compute; reflexivity).
  split; [exact H|].
  apply (proj1 (proj2 (sendMessage_message (constructor default_ai)
                                           stubborn_world
                                           (js "halo") [])) H).
Defined.
End TurnMore.

(** ** Reasoning removal leaves no "think" *)

Module LineFacts.
Import JS Regex RegexSem RegexFacts ScanFacts StringFacts StepsFacts.
Import VoiceFormatter Notions Spec CharFacts CleanFacts BalancedFacts.
Import ThinkTagFacts.

(** *** Words and line terminators *)

Lemma upper_terminator : forall t,
  isLineTerminator t = true -> toUpperAscii t = t.
Proof.
  intros t H. unfold isLineTerminator in H.
  repeat (apply orb_true_iff in H; destruct H as [H|H]);
    apply N.eqb_eq in H; subst t; reflexivity.
Qed.

Lemma no_terminator_start : forall x p t s,
  isLineTerminator (toUpperAscii x) = false ->
  isLineTerminator t = true ->
  starts_ci (x :: p) (t :: s) = false.
Proof.
  intros x p t s Hx Ht. cbn [starts_ci].
  destruct (toUpperAscii x =? toUpperAscii t)%N eqn:E; [|reflexivity].
  apply N.eqb_eq in E. rewrite (@upper_terminator t Ht) in E. congruence.
Qed.

Lemma occurs_ci_cons_false : forall q c s,
  occurs_ci q (c :: s) = false ->
  starts_ci q (c :: s) = false /\ occurs_ci q s = false.
Proof.
  intros q c s H. cbn [occurs_ci] in H. apply orb_false_iff in H. exact H.
Qed.

Lemma occurs_ci_split : forall p s,
  occurs_ci p s = true -> exists a b, s = a ++ b /\ starts_ci p b = true.
Proof.
  intros p s. induction s as [|c s IH]; intros H.
  - cbn [occurs_ci] in H. rewrite orb_false_r in H.
    exists [], []. split; [reflexivity|exact H].
  - cbn [occurs_ci] in H. apply orb_prop in H. destruct H as [H|H].
    + exists [], (c :: s). split; [reflexivity|exact H].
    + destruct (IH H) as (a & b & -> & Hb).
      exists (c :: a), b. split; [reflexivity|exact Hb].
Qed.

Lemma occurs_ci_tail : forall x p s,
  occurs_ci (x :: p) s = true -> occurs_ci p s = true.
Proof.
  intros x p s H. apply occurs_ci_split in H.
  destruct H as (a & b & -> & Hb).
  destruct b as [|y b]; [discriminate|]. cbn [starts_ci] in Hb.
  apply andb_prop in Hb. destruct Hb as [_ Hb].
  apply occurs_ci_app_r. cbn [occurs_ci].
  rewrite (@occurs_ci_suffix p b b (suffix_refl b) Hb). apply orb_true_r.
Qed.

Section Word.
Lemma word_ok_cons : forall x q,
  wordy (x :: q) = true ->
  isLineTerminator (toUpperAscii x) = false /\ wordy q = true.
Proof.
  intros x q H. unfold wordy in *. cbn [forallb] in H.
  apply andb_prop in H. destruct H as [H1 H2].
  apply negb_true_iff in H1. auto.
Qed.

Lemma line_cut_starts : forall s o,
  line_cut s o ->
  forall q, wordy q = true ->
            starts_ci q o = true -> starts_ci q s = true.
Proof.
  induction 1 as [c s o L IH | d | d t s o Ht L IH]; intros q Hq H.
  - destruct q as [|x q]; [reflexivity|]. cbn [starts_ci] in *.
    apply andb_prop in H. destruct H as [H1 H2]. rewrite H1. cbn [andb].
    apply word_ok_cons in Hq. apply IH; tauto.
  - destruct q; [reflexivity|discriminate].
  - destruct q as [|x q]; [reflexivity|].
    apply word_ok_cons in Hq. destruct Hq as [Hx _].
    rewrite (@no_terminator_start x q t o Hx Ht) in H. discriminate.
Qed.

Lemma line_cut_occurs : forall s o,
  line_cut s o ->
  forall q, wordy q = true -> q <> [] ->
            occurs_ci q s = false -> occurs_ci q o = false.
Proof.
  induction 1 as [c s o L IH | d | d t s o Ht L IH]; intros q Hq Hne H.
  - apply occurs_ci_cons_false in H. destruct H as [H1 H2].
    cbn [occurs_ci]. rewrite (IH q Hq Hne H2), orb_false_r.
    destruct (starts_ci q (c :: o)) eqn:E; [|reflexivity].
    apply (line_cut_starts (cut_keep c L) q Hq) in E. congruence.
  - destruct q; [congruence|reflexivity].
  - assert (H2 : occurs_ci q s = false).
    { destruct (occurs_ci q s) eqn:E; [|reflexivity].
      assert (E2 : occurs_ci q (t :: s) = true)
        by (cbn [occurs_ci]; rewrite E; apply orb_true_r).
      rewrite (occurs_ci_app_r q d _ E2) in H. discriminate. }
    cbn [occurs_ci]. rewrite (IH q Hq Hne H2), orb_false_r.
    destruct q as [|x q]; [congruence|].
    apply word_ok_cons in Hq. destruct Hq as [Hx _].
    apply no_terminator_start; assumption.
Qed.

Lemma starts_ci_across : forall q a t b,
  wordy q = true -> isLineTerminator t = true ->
  starts_ci q (a ++ t :: b) = true -> starts_ci q a = true.
Proof.
  induction q as [|x q IH]; intros a t b Hq Ht H; [reflexivity|].
  apply word_ok_cons in Hq. destruct Hq as [Hx Hq].
  destruct a as [|y a].
  - cbn [app] in H. rewrite (@no_terminator_start x q t b Hx Ht) in H.
    discriminate.
  - cbn [app starts_ci] in *. apply andb_prop in H.
    destruct H as [H1 H2]. rewrite H1. cbn [andb].
    eapply IH; eauto.
Qed.

Lemma occurs_ci_across : forall q a t b,
  wordy q = true -> q <> [] -> isLineTerminator t = true ->
  occurs_ci q a = false -> occurs_ci q b = false ->
  occurs_ci q (a ++ t :: b) = false.
Proof.
  intros q a t b Hq Hne Ht. induction a as [|y a IH]; intros Ha Hb.
  - cbn [app occurs_ci]. rewrite Hb, orb_false_r.
    destruct q as [|x q]; [congruence|].
    apply word_ok_cons in Hq. destruct Hq as [Hx _].
    apply no_terminator_start; assumption.
  - apply occurs_ci_cons_false in Ha. destruct Ha as [H1 H2].
    cbn [app occurs_ci]. rewrite (IH H2 Hb), orb_false_r.
    destruct (starts_ci q (y :: a ++ t :: b)) eqn:E; [|reflexivity].
    change (y :: a ++ t :: b) with ((y :: a) ++ t :: b) in E.
    apply starts_ci_across in E; auto. congruence.
Qed.

Lemma ci_equal_termfree : forall mt q,
  ci_equal mt q = true -> wordy q = true -> termfree mt = true.
Proof.
  induction mt as [|c mt IH]; intros q H Hq; [reflexivity|].
  destruct q as [|x q]; [discriminate|]. cbn [ci_equal] in H.
  apply andb_prop in H. destruct H as [H1 H2]. apply N.eqb_eq in H1.
  apply word_ok_cons in Hq. destruct Hq as [Hx Hq].
  unfold termfree. cbn [forallb]. fold (termfree mt).
  rewrite (IH q H2 Hq), andb_true_r.
  destruct (isLineTerminator c) eqn:T; [|reflexivity].
  rewrite (@upper_terminator c T) in H1. congruence.
Qed.

End Word.

(** *** Lines *)

Lemma termfree_app : forall a b,
  termfree (a ++ b) = termfree a && termfree b.
Proof. intros a b. unfold termfree. apply forallb_app. Qed.

Lemma line_split : forall s,
  exists h r, s = h ++ r /\ termfree h = true /\ line_end r = true.
Proof.
  induction s as [|c s IH].
  - exists [], []. auto.
  - destruct (isLineTerminator c) eqn:T.
    + exists [], (c :: s). auto.
    + destruct IH as (h & r & -> & Th & Lr).
      exists (c :: h), r. split; [reflexivity|]. split; [|exact Lr].
      unfold termfree in *. cbn [forallb]. rewrite T, Th. reflexivity.
Qed.

Lemma head_unique : forall h1 r1 h2 r2,
  h1 ++ r1 = h2 ++ r2 ->
  termfree h1 = true -> termfree h2 = true ->
  line_end r1 = true -> line_end r2 = true ->
  h1 = h2.
Proof.
  induction h1 as [|c h1 IH]; intros r1 h2 r2 E T1 T2 L1 L2.
  - destruct h2 as [|d h2]; [reflexivity|]. cbn [app] in E. subst r1.
    cbn [line_end] in L1. unfold termfree in T2. cbn [forallb] in T2.
    rewrite L1 in T2. discriminate.
  - destruct h2 as [|d h2].
    + cbn [app] in E. subst r2.
      cbn [line_end] in L2. unfold termfree in T1. cbn [forallb] in T1.
      rewrite L2 in T1. discriminate.
    + cbn [app] in E. inversion E; subst d.
      unfold termfree in T1, T2. cbn [forallb] in T1, T2.
      apply andb_prop in T1, T2. f_equal.
      eapply IH; eauto; tauto.
Qed.

Lemma at_eol_line_end : forall st, at_eol fl_im st = line_end (st_rest st).
Proof. intros st. unfold at_eol, line_end. destruct (st_rest st); reflexivity. Qed.

Lemma last_or_termfree : forall prev a s,
  a <> [] -> termfree a = true ->
  at_bol fl_im (mkState (last_or prev a) s None) = false.
Proof.
  intros prev a s Ha T. destruct a as [|c a _] using rev_ind; [congruence|].
  rewrite last_or_app_cons. rewrite termfree_app in T.
  apply andb_prop in T. destruct T as [_ T]. unfold termfree in T.
  cbn [forallb] in T. rewrite andb_true_r in T. apply negb_true_iff in T.
  unfold at_bol. cbn [st_prev multiline fl_im andb]. exact T.
Qed.

(** *** The scan between matches *)

Lemma exec_at_le : forall fl r prev s n cap,
  exec_at fl r prev s = Some (n, cap) -> n <= List.length s.
Proof.
  intros fl r prev s n cap H. unfold exec_at in H.
  destruct (m fl r Some (mkState prev s None)); [|discriminate].
  inversion H; subst. lia.
Qed.

Lemma exec_at_rest : forall fl r prev s n cap,
  wf r = true ->
  exec_at fl r prev s = Some (n, cap) ->
  exists st',
    matches fl r (mkState prev s None) st'
    /\ s = firstn n s ++ st_rest st'
    /\ skipn n s = st_rest st'.
Proof.
  intros fl r prev s n cap W H.
  apply exec_at_inv in H; [|exact W].
  destruct H as (st' & M & En & _). exists st'. split; [exact M|].
  pose proof (matches_suffix _ _ _ _ M) as [a Ea]. cbn [st_rest] in Ea.
  assert (E : n = List.length a).
  { rewrite En, Ea, length_app. lia. }
  assert (F : firstn (List.length a) s = a)
    by (rewrite Ea; apply firstn_exact).
  assert (K : skipn (List.length a) s = st_rest st')
    by (rewrite Ea, skipn_app, skipn_all, Nat.sub_diag; reflexivity).
  rewrite E, F, K. split; [exact Ea|reflexivity].
Qed.

Lemma scan_prefix_kept : forall fl r pre rest prev,
  unicode fl = false ->
  (forall a b, pre = a ++ b -> b <> [] ->
               exec_at fl r (last_or prev a) (b ++ rest) = None) ->
  scan fl r 0 0 prev (pre ++ rest)
  = List.map Kept pre ++ scan fl r 0 0 (last_or prev pre) rest.
Proof.
  intros fl r pre. induction pre as [|c pre IH]; intros rest prev U Hno.
  - reflexivity.
  - cbn [app scan List.map].
    pose proof (Hno [] (c :: pre) eq_refl) as E0. cbn in E0.
    rewrite E0 by discriminate.
    rewrite advance_no_u by assumption. cbn [pred]. f_equal.
    rewrite IH; auto.
    + rewrite last_or_cons. reflexivity.
    + intros a b E Hb. specialize (Hno (c :: a) b).
      rewrite last_or_cons in Hno. apply Hno; auto. cbn. congruence.
Qed.

Section LineCut.
Variables (fl : flags) (r : regex).
Hypothesis U : unicode fl = false.
Hypothesis H1 : forall prev s n cap,
  exec_at fl r prev s = Some (n, cap) ->
  n <> 0 /\ line_end (skipn n s) = true.
Hypothesis H2 : forall prev t s,
  isLineTerminator t = true -> exec_at fl r prev (t :: s) = None.

Lemma exec_at_nil_none : forall prev, exec_at fl r prev [] = None.
Proof.
  intros prev.
  destruct (exec_at fl r prev []) as [[n cap]|] eqn:E; [|reflexivity].
  pose proof (exec_at_le _ _ _ _ E) as L. apply H1 in E.
  cbn [List.length] in L. lia.
Qed.

Lemma scan_line_cut : forall k s prev,
  List.length s <= k ->
  line_cut s (flat_map (render []) (scan fl r 0 0 prev s)).
Proof.
  induction k as [|k IH]; intros s prev L.
  - destruct s; [|cbn in L; lia].
    cbn [scan]. rewrite exec_at_nil_none. apply cut_end.
  - destruct s as [|c s].
    { cbn [scan]. rewrite exec_at_nil_none. apply cut_end. }
    cbn [List.length] in L. cbn [scan].
    destruct (exec_at fl r prev (c :: s)) as [[[|n] cap]|] eqn:E.
    + apply H1 in E. tauto.
    + pose proof (exec_at_le _ _ _ _ E) as Ln. cbn [List.length] in Ln.
      apply H1 in E. destruct E as [_ E]. cbn [skipn] in E.
      cbn [flat_map render expand app].
      remember (firstn n s) as x eqn:Ex.
      remember (skipn n s) as post eqn:Epost.
      assert (Es : s = x ++ post)
        by (subst x post; symmetry; apply firstn_skipn).
      assert (Lx : List.length x = n)
        by (subst x; rewrite length_firstn; lia).
      clear Ex Epost. subst s n.
      destruct post as [|t post].
      * rewrite app_nil_r. rewrite scan_drop_end.
        cbn [scan]. rewrite exec_at_nil_none. apply cut_end.
      * cbn [line_end] in E. rewrite scan_drop by discriminate.
        cbn [scan]. rewrite (H2 _ _ post E).
        rewrite advance_no_u by assumption.
        cbn [pred flat_map render app].
        change (c :: x ++ t :: post) with ((c :: x) ++ t :: post).
        apply cut_line; [exact E|]. apply IH.
        rewrite length_app in L. cbn [List.length] in L. lia.
    + rewrite advance_no_u by assumption.
      cbn [pred flat_map render app]. apply cut_keep. apply IH. lia.
Qed.

Lemma replace_line_cut : forall s, line_cut s (replace fl r [] s).
Proof.
  intros s. unfold replace. apply (@scan_line_cut (List.length s)). lia.
Qed.
End LineCut.

(** *** Patterns that begin with a word and run to the end of the
    line *)

Section Tail.
Variables (x : N) (p : jsstring) (r2 : regex).
Hypothesis Wf : wf r2 = true.
Hypothesis Hx : isLineTerminator (toUpperAscii x) = false.
Hypothesis Heol : forall st st',
  matches fl_im r2 st st' -> at_eol fl_im st' = true.

Lemma tail_match : forall prev s n cap,
  exec_at fl_im (Seq (Lit (x :: p)) r2) prev s = Some (n, cap) ->
  n <> 0 /\ line_end (skipn n s) = true.
Proof.
  intros prev s n cap H.
  pose proof (exec_at_inv _ _ _ _ (Wf : wf (Seq (Lit (x :: p)) r2) = true) H)
    as (st0 & _ & En & _).
  apply exec_at_rest in H; [|exact Wf].
  destruct H as (st' & (st1 & M1 & M2) & Es & Ek).
  split.
  - pose proof (@lit_match_rest fl_im (x :: p) _ _ eq_refl M1) as [R1 L1].
    cbn [st_rest List.length] in R1, L1.
    apply matches_suffix in M2. apply suffix_length in M2.
    rewrite R1, length_skipn in M2.
    assert (Ef : List.length s
                 = List.length (firstn n s) + List.length (st_rest st'))
      by (rewrite Es at 1; apply length_app).
    rewrite length_firstn in Ef. lia.
  - rewrite Ek, <- at_eol_line_end. eapply Heol. exact M2.
Qed.

Lemma tail_terminator : forall prev t s,
  isLineTerminator t = true ->
  exec_at fl_im (Seq (Lit (x :: p)) r2) prev (t :: s) = None.
Proof.
  intros prev t s Ht.
  destruct (exec_at fl_im (Seq (Lit (x :: p)) r2) prev (t :: s))
    as [[n cap]|] eqn:E; [|reflexivity].
  apply exec_at_rest in E; [|exact Wf].
  destruct E as (st' & (st1 & M1 & _) & _).
  assert (S : starts_ci (x :: p) (t :: s) = true).
  { apply (@lit_match_starts_ci fl_im (x :: p)
             (mkState prev (t :: s) None) eq_refl eq_refl).
    change (matches fl_im (Lit (x :: p)) (mkState prev (t :: s) None) st1)
      with (lit_match fl_im (x :: p) (mkState prev (t :: s) None)
            = Some st1) in M1.
    congruence. }
  rewrite (@no_terminator_start x p t s Hx Ht) in S. discriminate.
Qed.

Lemma tail_line_cut : forall s,
  line_cut s (replace fl_im (Seq (Lit (x :: p)) r2) [] s).
Proof.
  intros s. apply replace_line_cut; [reflexivity| |].
  - apply tail_match.
  - apply tail_terminator.
Qed.
End Tail.

Lemma dots_eol : forall st st',
  matches fl_im (Seq (lazy_star ADot) Eol) st st' -> at_eol fl_im st' = true.
Proof. intros st st' (st1 & _ & E & ->). exact E. Qed.

Lemma word_dots_eol : forall q st st',
  matches fl_im (Seq (lazy_star ADot) (Seq (Lit q) (Seq (lazy_star ADot) Eol)))
          st st' ->
  at_eol fl_im st' = true.
Proof.
  intros q st st' (st1 & _ & st2 & _ & M). eapply dots_eol. exact M.
Qed.

Lemma okay_let_me_cut : forall s,
  line_cut s (replace fl_im okay_let_me del s).
Proof.
  intros s.
  apply (@tail_line_cut 79%N (js "kay,")
           (Seq (lazy_star ADot)
                (Seq (Lit (js "Let me")) (Seq (lazy_star ADot) Eol)))
           eq_refl eq_refl (@word_dots_eol (js "Let me")) s).
Qed.

Lemma i_need_to_cut : forall s,
  line_cut s (replace fl_im i_need_to del s).
Proof.
  intros s.
  apply (@tail_line_cut 73%N (js " need to") (Seq (lazy_star ADot) Eol)
           eq_refl eq_refl dots_eol s).
Qed.

Lemma first_then_cut : forall s,
  line_cut s (replace fl_im first_then del s).
Proof.
  intros s.
  apply (@tail_line_cut 70%N (js "irst,")
           (Seq (lazy_star ADot)
                (Seq (Lit (js "Then,")) (Seq (lazy_star ADot) Eol)))
           eq_refl eq_refl (@word_dots_eol (js "Then,")) s).
Qed.
End LineFacts.

Module ThinkLineFacts.
Import JS Regex RegexSem RegexFacts ScanFacts StringFacts StepsFacts.
Import VoiceFormatter Notions Spec CharFacts CleanFacts BalancedFacts.
Import ThinkTagFacts LineFacts.

Lemma think_wordy : wordy THINK = true.
Proof. reflexivity. Qed.

Lemma think_not_nil : THINK <> [].
Proof. discriminate. Qed.

(** *** [/^.*?think.*?$/gim] *)

(** A match is a whole line, and the line holds the word. *)
Lemma line_with_think_inv : forall prev s n cap,
  exec_at fl_im line_with_think prev s = Some (n, cap) ->
  exists ws1 th ws2,
    firstn n s = ws1 ++ th ++ ws2
    /\ termfree ws1 = true /\ ci_equal th THINK = true
    /\ termfree ws2 = true
    /\ line_end (skipn n s) = true
    /\ at_bol fl_im (mkState prev s None) = true.
Proof.
  intros prev s n cap H.
  apply exec_at_rest in H; [|reflexivity].
  destruct H as (st' & M & Es & Ek).
  destruct M as (sta & (B & ->) & stb & (k1 & S1 & _) & stc & M3
                 & std & (k2 & S2 & _) & (Eo & ->)).
  change (lit_match fl_im THINK stb = Some stc) in M3.
  apply steps_inv_no_u in S1; [|reflexivity].
  destruct S1 as (ws1 & E1 & F1 & _). cbn [st_rest] in E1.
  apply steps_inv_no_u in S2; [|reflexivity].
  destruct S2 as (ws2 & E2 & F2 & _).
  assert (S3 : starts_ci THINK (st_rest stb) = true).
  { apply (@lit_match_starts_ci fl_im THINK stb eq_refl eq_refl).
    congruence. }
  pose proof (@lit_match_rest fl_im THINK _ _ eq_refl M3) as [R3 _].
  exists ws1, (firstn (List.length THINK) (st_rest stb)), ws2.
  split; [|split; [exact F1|split; [|split; [exact F2|split]]]].
  - apply (app_inv_tail (st_rest std)). rewrite <- Es.
    rewrite <- !app_assoc, <- E2, R3, firstn_skipn. exact E1.
  - apply starts_ci_firstn. exact S3.
  - rewrite Ek, <- at_eol_line_end. exact Eo.
  - exact B.
Qed.

Lemma line_with_think_needs : forall prev h r n cap,
  termfree h = true -> line_end r = true ->
  exec_at fl_im line_with_think prev (h ++ r) = Some (n, cap) ->
  occurs_ci THINK h = true /\ n = List.length h.
Proof.
  intros prev h r n cap Th Lr H.
  pose proof (exec_at_le _ _ _ _ H) as Ln.
  apply line_with_think_inv in H.
  destruct H as (ws1 & th & ws2 & Ef & T1 & Ct & T2 & Le & _).
  assert (Tm : termfree (ws1 ++ th ++ ws2) = true).
  { rewrite !termfree_app, T1, T2.
    rewrite (ci_equal_termfree _ _ Ct think_wordy). reflexivity. }
  assert (Eh : ws1 ++ th ++ ws2 = h).
  { apply (@head_unique (ws1 ++ th ++ ws2) (skipn n (h ++ r)) h r);
      auto.
    rewrite <- Ef. apply firstn_skipn. }
  split.
  - rewrite <- Eh.
    apply (@occurs_ci_suffix THINK (th ++ ws2)); [exists ws1; reflexivity|].
    apply starts_ci_app. apply ci_equal_starts in Ct. tauto.
  - rewrite <- Eh, <- Ef, length_firstn. lia.
Qed.

Lemma line_with_think_nil : forall prev,
  exec_at fl_im line_with_think prev [] = None.
Proof.
  intros prev.
  destruct (exec_at fl_im line_with_think prev []) as [[n cap]|] eqn:E;
    [|reflexivity].
  apply (@line_with_think_needs prev [] [] n cap eq_refl eq_refl) in E.
  destruct E as [E _]. discriminate E.
Qed.

Lemma line_with_think_terminator : forall prev t s,
  isLineTerminator t = true ->
  exec_at fl_im line_with_think prev (t :: s) = None.
Proof.
  intros prev t s Ht.
  destruct (exec_at fl_im line_with_think prev (t :: s)) as [[n cap]|] eqn:E;
    [|reflexivity].
  apply (@line_with_think_needs prev [] (t :: s) n cap eq_refl Ht) in E.
  destruct E as [E _]. discriminate E.
Qed.

Lemma line_with_think_bol : forall prev s,
  at_bol fl_im (mkState prev s None) = false ->
  exec_at fl_im line_with_think prev s = None.
Proof.
  intros prev s B.
  destruct (exec_at fl_im line_with_think prev s) as [[n cap]|] eqn:E;
    [|reflexivity].
  apply line_with_think_inv in E.
  destruct E as (ws1 & th & ws2 & _ & _ & _ & _ & _ & B').
  congruence.
Qed.

Lemma termfree_dots : forall ws,
  termfree ws = true -> forallb (atom_match fl_im ADot) ws = true.
Proof. intros ws H. exact H. Qed.

(** At the start of a line that holds the word, the pattern takes the
    whole line. *)
Lemma line_with_think_match : forall prev h r,
  termfree h = true -> line_end r = true ->
  occurs_ci THINK h = true ->
  at_bol fl_im (mkState prev (h ++ r) None) = true ->
  exists cap,
    exec_at fl_im line_with_think prev (h ++ r)
    = Some (List.length h, cap).
Proof.
  intros prev h r Th Lr Ho B.
  destruct (exec_at fl_im line_with_think prev (h ++ r)) as [[n cap]|] eqn:E.
  - exists cap. destruct (@line_with_think_needs prev h r n cap Th Lr E) as [_ ->].
    reflexivity.
  - exfalso. revert E. apply exec_at_some; [reflexivity|].
    apply occurs_ci_split in Ho. destruct Ho as (a & b & -> & Sb).
    rewrite termfree_app in Th. apply andb_prop in Th.
    destruct Th as [Ta Tb].
    rewrite <- app_assoc in *.
    assert (S3 : starts_ci THINK (b ++ r) = true)
      by (apply starts_ci_app; exact Sb).
    destruct (lit_match fl_im THINK
                (mkState (last_or prev a) (b ++ r) None))
      as [[p1 s1 c1]|] eqn:E3.
    2:{ exfalso. revert E3.
        apply (@lit_match_starts_ci fl_im THINK
                 (mkState (last_or prev a) (b ++ r) None) eq_refl eq_refl).
        exact S3. }
    pose proof (@lit_match_rest fl_im THINK _ _ eq_refl E3) as [R3 _].
    cbn [st_rest] in R3.
    pose proof (starts_ci_length _ _ Sb) as Lb.
    rewrite skipn_app in R3.
    replace (List.length THINK - List.length b) with 0 in R3 by lia.
    cbn [skipn] in R3. subst s1.
    assert (T2 : termfree (skipn (List.length THINK) b) = true).
    { rewrite <- (firstn_skipn (List.length THINK) b) in Tb.
      rewrite termfree_app in Tb. apply andb_prop in Tb. tauto. }
    exists (mkState (last_or p1 (skipn (List.length THINK) b)) r c1).
    exists (mkState prev (a ++ b ++ r) None). split; [split; auto|].
    exists (mkState (last_or prev a) (b ++ r) None). split.
    { exists (List.length a). split; [|split; [lia|discriminate]].
      apply steps_intro; [reflexivity|]. apply termfree_dots. exact Ta. }
    exists (mkState p1 (skipn (List.length THINK) b ++ r) c1).
    split; [exact E3|].
    exists (mkState (last_or p1 (skipn (List.length THINK) b)) r c1).
    split.
    { exists (List.length (skipn (List.length THINK) b)).
      split; [|split; [lia|discriminate]].
      apply steps_intro; [reflexivity|]. apply termfree_dots. exact T2. }
    split; [|reflexivity].
    rewrite at_eol_line_end. exact Lr.
Qed.

Lemma terminator_bol : forall t s,
  isLineTerminator t = true ->
  at_bol fl_im (mkState (Some t) s None) = true.
Proof. intros t s H. unfold at_bol. cbn [st_prev multiline fl_im andb]. exact H. Qed.

(** What the scan gives from the end of a line on. *)
Lemma line_with_think_rest : forall r p,
  line_end r = true ->
  flat_map (render []) (scan fl_im line_with_think 0 0 p r)
  = match r with
    | [] => []
    | t :: s' =>
        t :: flat_map (render [])
                      (scan fl_im line_with_think 0 0 (Some t) s')
    end.
Proof.
  intros r p Lr. destruct r as [|t s'].
  - cbn [scan]. rewrite line_with_think_nil. reflexivity.
  - cbn [line_end] in Lr. cbn [scan].
    rewrite (@line_with_think_terminator p t s' Lr).
    rewrite advance_no_u by reflexivity. reflexivity.
Qed.

Lemma line_with_think_scan : forall k s prev,
  List.length s <= k ->
  at_bol fl_im (mkState prev s None) = true ->
  occurs_ci THINK
            (flat_map (render []) (scan fl_im line_with_think 0 0 prev s))
  = false.
Proof.
  induction k as [|k IH]; intros s prev L B.
  - destruct s; [|cbn in L; lia].
    cbn [scan]. rewrite line_with_think_nil. reflexivity.
  - destruct (line_split s) as (h & r & -> & Th & Lr).
    assert (Hr : forall p,
              occurs_ci THINK
                (flat_map (render [])
                          (scan fl_im line_with_think 0 0 p r)) = false
              /\ (flat_map (render [])
                           (scan fl_im line_with_think 0 0 p r) = []
                  \/ exists t o,
                       flat_map (render [])
                                (scan fl_im line_with_think 0 0 p r)
                       = t :: o
                       /\ isLineTerminator t = true
                       /\ occurs_ci THINK o = false)).
    { intros p. rewrite (@line_with_think_rest r p Lr).
      destruct r as [|t s']; [split; [reflexivity|left; reflexivity]|].
      cbn [line_end] in Lr.
      assert (Ho : occurs_ci THINK
                     (flat_map (render [])
                        (scan fl_im line_with_think 0 0 (Some t) s'))
                   = false).
      { apply IH; [|apply terminator_bol; exact Lr].
        rewrite length_app in L. cbn [List.length] in L. lia. }
      split.
      - cbn [occurs_ci]. rewrite Ho, orb_false_r.
        apply (@no_terminator_start 116%N (js "hink") t _ eq_refl Lr).
      - right. eexists. eexists. split; [reflexivity|]. auto. }
    destruct (occurs_ci THINK h) eqn:Oh.
    + destruct (@line_with_think_match prev h r Th Lr Oh B) as [cap Hc].
      assert (Hne : h <> []) by (intros ->; discriminate Oh).
      pose proof (@scan_prefix_then_match fl_im line_with_think []
                    h r prev cap eq_refl) as Hs.
      cbn [app List.map] in Hs. rewrite Hs; auto.
      * cbn [flat_map render expand app]. apply Hr.
      * intros a b E Hb. symmetry in E. apply app_eq_nil in E.
        destruct E as [_ E]. congruence.
    + rewrite scan_prefix_kept.
      * rewrite flat_map_app, flat_map_kept.
        destruct (Hr (last_or prev h)) as [Ho [En|(t & o & Eo & Ht & Oo)]].
        -- rewrite En, app_nil_r. exact Oh.
        -- rewrite Eo.
           apply occurs_ci_across; auto using think_wordy, think_not_nil.
      * reflexivity.
      * intros a b E Hb. destruct a as [|c a].
        -- cbn [app] in E. subst b. cbn [last_or rev].
           destruct (exec_at fl_im line_with_think prev (h ++ r))
             as [[n cap]|] eqn:X; [|reflexivity].
           apply (@line_with_think_needs prev h r n cap Th Lr) in X.
           destruct X as [X _]. congruence.
        -- apply line_with_think_bol. apply last_or_termfree; [discriminate|].
           rewrite E, termfree_app in Th. apply andb_prop in Th. tauto.
Qed.

Lemma line_with_think_clean : forall s,
  occurs_ci THINK (replace fl_im line_with_think del s) = false.
Proof.
  intros s. unfold replace.
  apply (@line_with_think_scan (List.length s)); [lia|reflexivity].
Qed.

Lemma removeThinkTags_clean : forall text,
  occurs_ci THINK (removeThinkTags text) = false.
Proof.
  intros text. unfold removeThinkTags.
  destruct (isEmpty text) eqn:E.
  - destruct text; [reflexivity|discriminate].
  - generalize (fold_left
                  (fun cleaned p => replace (fst p) (snd p) del cleaned)
                  thinkPatterns text).
    intros x.
    apply (line_cut_occurs (first_then_cut _) think_wordy think_not_nil).
    apply (line_cut_occurs (i_need_to_cut _) think_wordy think_not_nil).
    apply (line_cut_occurs (okay_let_me_cut _) think_wordy think_not_nil).
    apply line_with_think_clean.
Qed.
End ThinkLineFacts.

Module ThinkMore.
Import JS Regex RegexSem VoiceFormatter Notions Spec.
Import BalancedFacts LineFacts ThinkLineFacts.

(** X17.  Whatever the input, what [removeThinkTags] returns does not
    hold the word "think" in any letter case: every line that holds it
    is deleted whole, and the later deletions only cut lines short.
    In particular no start marker and no end marker is left. *)
Theorem removeThinkTags_no_think : forall text,
  occurs_ci THINK (removeThinkTags text) = false
  /\ occurs_ci OPEN (removeThinkTags text) = false
  /\ occurs_ci CLOSE (removeThinkTags text) = false.
Proof.
  intros text. pose proof (removeThinkTags_clean text) as H.
  split; [exact H|]. split.
  - destruct (occurs_ci OPEN (removeThinkTags text)) eqn:E; [|reflexivity].
    change OPEN with ((60%N :: THINK) ++ js ">") in E.
    apply occurs_ci_prefix, occurs_ci_tail in E. congruence.
  - destruct (occurs_ci CLOSE (removeThinkTags text)) eqn:E; [|reflexivity].
    change CLOSE with ((60%N :: 47%N :: THINK) ++ js ">") in E.
    apply occurs_ci_prefix, occurs_ci_tail, occurs_ci_tail in E.
    congruence.
Qed.
End ThinkMore.

(** * Idempotence on plain text *)

(** ** What a pattern needs in order to match *)

Module NeedFacts.
Import JS Regex RegexSem RegexFacts ScanFacts StringFacts StepsFacts.
Import VoiceFormatter Notions Plain ValidateFacts.

Lemma lit_match_starts : forall fl p st st',
  unicode fl = false ->
  lit_match fl p st = Some st' -> starts_ci p (st_rest st) = true.
Proof.
  intros fl p. induction p as [|c p IH]; intros st st' U H; [reflexivity|].
  cbn [lit_match] in H. rewrite step_no_u in H by assumption.
  destruct (st_rest st) as [|x t] eqn:E; [discriminate|].
  destruct (atom_match fl (AChar c) x) eqn:A; [|discriminate].
  apply IH in H; [|assumption]. cbn [st_rest] in H.
  cbn [starts_ci]. rewrite H, andb_true_r.
  cbn [atom_match] in A. unfold canon in A. apply N.eqb_eq in A.
  apply N.eqb_eq. destruct (ignoreCase fl); congruence.
Qed.

Lemma starts_ci_occurs : forall p s,
  starts_ci p s = true -> occurs_ci p s = true.
Proof.
  intros p s H. apply (@occurs_ci_suffix p s s (suffix_refl s) H).
Qed.

Lemma occurs_ci_of_suffix : forall p b s,
  suffix b s -> occurs_ci p b = true -> occurs_ci p s = true.
Proof. intros p b s [a ->] H. apply occurs_ci_app_r. exact H. Qed.

Lemma starts_ci_trans : forall p q s,
  starts_ci p q = true -> starts_ci q s = true -> starts_ci p s = true.
Proof.
  induction p as [|x p IH]; intros q s H1 H2; [reflexivity|].
  destruct q as [|y q]; [discriminate H1|].
  destruct s as [|z s]; [discriminate H2|].
  cbn [starts_ci] in *. apply andb_prop in H1, H2.
  destruct H1 as [E1 H1]. destruct H2 as [E2 H2].
  apply N.eqb_eq in E1, E2. rewrite (IH q s H1 H2), andb_true_r.
  apply N.eqb_eq. congruence.
Qed.

(** What occurs in a prefix, in some letter case, occurs in the
    text. *)
Lemma starts_ci_carries : forall p q s,
  starts_ci q s = true -> occurs_ci p q = true -> occurs_ci p s = true.
Proof.
  intros p q. induction q as [|y q IH]; intros s H O.
  - cbn [occurs_ci] in O. rewrite orb_false_r in O.
    apply starts_ci_occurs. destruct p; [reflexivity|discriminate O].
  - destruct s as [|z s]; [discriminate H|].
    cbn [occurs_ci] in O. apply orb_prop in O. destruct O as [O|O].
    + apply starts_ci_occurs.
      apply (@starts_ci_trans p (y :: q) (z :: s) O H).
    + cbn [starts_ci] in H. apply andb_prop in H. destruct H as [_ H].
      cbn [occurs_ci]. rewrite (IH s H O). apply orb_true_r.
Qed.

Lemma needs_word_occurs : forall fl p r st st',
  unicode fl = false ->
  needs_word p r = true ->
  matches fl r st st' -> occurs_ci p (st_rest st) = true.
Proof.
  intros fl p r. induction r; intros st st' U N M; cbn [needs_word] in N;
    try discriminate N.
  - cbn [matches] in M. apply lit_match_starts in M; [|exact U].
    apply (@starts_ci_carries p s (st_rest st) M N).
  - destruct M as (st1 & M1 & M2). apply orb_prop in N.
    destruct N as [N|N]; [eapply IHr1; eauto|].
    apply (@occurs_ci_of_suffix p (st_rest st1)).
    + eapply matches_suffix. exact M1.
    + eapply IHr2; eauto.
  - apply andb_prop in N. destruct N as [N1 N2].
    destruct M as [M|M]; [eapply IHr1|eapply IHr2]; eauto.
  - destruct M as (st1 & M1 & _). eapply IHr; eauto.
Qed.

Lemma replace_needs_word : forall fl p r tpl s,
  unicode fl = false -> wf r = true ->
  needs_word p r = true ->
  occurs_ci p s = false ->
  replace fl r tpl s = s.
Proof.
  intros fl p r tpl s U W N H. apply replace_no_match. intros a b E.
  destruct (exec_at fl r (last_or None a) b) eqn:X; [|reflexivity].
  assert (X' : exec_at fl r (last_or None a) b <> None) by congruence.
  apply exec_at_some in X'; [|exact W]. destruct X' as [st' M].
  apply (@needs_word_occurs fl p r _ _ U N) in M. cbn [st_rest] in M.
  rewrite E, (occurs_ci_app_r p a b M) in H. discriminate.
Qed.

Lemma starts_ci_in : forall p s c,
  starts_ci p s = true -> In c p ->
  exists x, In x s /\ toUpperAscii c = toUpperAscii x.
Proof.
  induction p as [|y p IH]; intros s c H Hc; [destruct Hc|].
  destruct s as [|x s]; [discriminate|]. cbn [starts_ci] in H.
  apply andb_prop in H. destruct H as [H1 H2]. apply N.eqb_eq in H1.
  destruct Hc as [ <- |Hc].
  - exists x. split; [left; reflexivity|exact H1].
  - destruct (IH s c H2 Hc) as (x' & Hx & E). exists x'.
    split; [right; exact Hx|exact E].
Qed.

Lemma isDigit_in : forall c, isDigit c = true -> In c digits.
Proof.
  intros c H. unfold isDigit, in_range in H. apply andb_prop in H.
  destruct H as [H1 H2]. apply N.leb_le in H1, H2.
  assert (E : (c = 48 \/ c = 49 \/ c = 50 \/ c = 51 \/ c = 52 \/ c = 53
               \/ c = 54 \/ c = 55 \/ c = 56 \/ c = 57)%N) by lia.
  repeat (destruct E as [E|E]; [subst c; cbn; tauto|]).
  subst c; cbn; tauto.
Qed.

Section Outside.
Variable safe : N -> bool.
Hypothesis safe_upper : forall c,
  safe c = true -> safe (toUpperAscii c) = true.

Lemma outside_atom_sound : forall fl a x,
  ignoreCase fl = false ->
  outside_atom safe a = true ->
  atom_match fl a x = true -> safe x = false.
Proof.
  intros fl a x I O A.
  destruct a as [c| |neg items]; cbn [outside_atom] in O;
    try discriminate O.
  - cbn [atom_match] in A. unfold canon in A. rewrite I in A.
    apply N.eqb_eq in A. subst x. apply negb_true_iff. exact O.
  - destruct neg; [discriminate O|]. cbn [atom_match xorb] in A.
    apply existsb_exists in A. destruct A as (it & Hit & A).
    rewrite forallb_forall in O. specialize (O it Hit).
    destruct it; cbn [outside_item] in O; try discriminate O.
    + cbn [item_match] in A. unfold canon in A. rewrite I in A.
      apply N.eqb_eq in A. subst x. apply negb_true_iff. exact O.
    + cbn [item_match] in A. apply isDigit_in in A.
      rewrite forallb_forall in O. apply negb_true_iff. apply O. exact A.
Qed.

Lemma existsb_unsafe_suffix : forall b s,
  suffix b s ->
  existsb (fun c => negb (safe c)) b = true ->
  existsb (fun c => negb (safe c)) s = true.
Proof.
  intros b s [a ->] H. rewrite existsb_app, H. apply orb_true_r.
Qed.

Lemma needs_outside_sound : forall fl r st st',
  unicode fl = false ->
  needs_outside safe (ignoreCase fl) r = true ->
  matches fl r st st' ->
  existsb (fun c => negb (safe c)) (st_rest st) = true.
Proof.
  intros fl r. induction r; intros st st' U N M;
    cbn [needs_outside] in N; try discriminate N.
  - (* Lit *)
    cbn [matches] in M. apply lit_match_starts in M; [|exact U].
    apply existsb_exists in N. destruct N as (c & Hc & Nc).
    destruct (@starts_ci_in _ _ c M Hc) as (x & Hx & E).
    apply existsb_exists. exists x. split; [exact Hx|].
    apply negb_true_iff in Nc. apply negb_true_iff.
    destruct (safe x) eqn:Sx; [|reflexivity].
    apply safe_upper in Sx. congruence.
  - (* Atom *)
    apply andb_prop in N. destruct N as [I O]. apply negb_true_iff in I.
    cbn [matches] in M. rewrite step_no_u in M by exact U.
    destruct (st_rest st) as [|x t]; [discriminate|].
    destruct (atom_match fl a x) eqn:A; [|discriminate].
    cbn [existsb]. rewrite (@outside_atom_sound fl a x I O A). reflexivity.
  - (* Seq *)
    destruct M as (st1 & M1 & M2). apply orb_prop in N.
    destruct N as [N|N]; [eapply IHr1; eauto|].
    apply (@existsb_unsafe_suffix (st_rest st1)).
    + eapply matches_suffix. exact M1.
    + eapply IHr2; eauto.
  - (* Alt *)
    apply andb_prop in N. destruct N as [N1 N2].
    destruct M as [M|M]; [eapply IHr1|eapply IHr2]; eauto.
  - (* Rep *)
    destruct min as [|mn]; [discriminate N|].
    apply andb_prop in N. destruct N as [I O]. apply negb_true_iff in I.
    destruct M as (k & Hs & Hk & _).
    destruct Hs as [st|k st st1 st2 Hstep _]; [lia|].
    rewrite step_no_u in Hstep by exact U.
    destruct (st_rest st) as [|x t]; [discriminate|].
    destruct (atom_match fl a x) eqn:A; [|discriminate].
    cbn [existsb]. rewrite (@outside_atom_sound fl a x I O A). reflexivity.
  - (* Group *)
    destruct M as (st1 & M1 & _). eapply IHr; eauto.
Qed.

Lemma replace_needs_outside : forall fl r tpl s,
  unicode fl = false -> wf r = true ->
  needs_outside safe (ignoreCase fl) r = true ->
  forallb safe s = true ->
  replace fl r tpl s = s.
Proof.
  intros fl r tpl s U W N H. apply replace_no_match. intros a b E.
  destruct (exec_at fl r (last_or None a) b) eqn:X; [|reflexivity].
  assert (X' : exec_at fl r (last_or None a) b <> None) by congruence.
  apply exec_at_some in X'; [|exact W]. destruct X' as [st' M].
  apply (@needs_outside_sound fl r _ _ U N) in M. cbn [st_rest] in M.
  apply existsb_exists in M. destruct M as (c & Hc & Nc).
  rewrite forallb_forall in H.
  rewrite (H c) in Nc; [discriminate|].
  rewrite E. apply in_or_app. right. exact Hc.
Qed.
End Outside.
End NeedFacts.

(** ** Squeezing runs of characters *)

Module SqueezeFacts.
Import JS Regex RegexSem RegexFacts ScanFacts StringFacts StepsFacts.
Import VoiceFormatter Notions Plain CharFacts BalancedFacts LineFacts.
Import NeedFacts.

Section Scan.
Variables (fl : flags) (r : regex) (t : jsstring) (q : N -> bool).
Hypothesis U : unicode fl = false.
Hypothesis Ht : t <> [].
Hypothesis Hqt : forallb q t = true.
Hypothesis H1 : forall prev s n cap,
  exec_at fl r prev s = Some (n, cap) ->
  forallb q (firstn n s) = true /\ List.length t <= n.

Lemma squeezed_nil : forall prev, exec_at fl r prev [] = None.
Proof.
  intros prev.
  destruct (exec_at fl r prev []) as [[n cap]|] eqn:E; [|reflexivity].
  pose proof (exec_at_le _ _ _ _ E) as L. apply H1 in E.
  destruct E as [_ E]. cbn [List.length] in L.
  destruct t; [congruence|cbn [List.length] in E; lia].
Qed.

Lemma scan_squeeze : forall k s prev,
  List.length s <= k ->
  squeeze q s (flat_map (render [RText t]) (scan fl r 0 0 prev s)).
Proof.
  induction k as [|k IH]; intros s prev L.
  - destruct s; [|cbn in L; lia].
    cbn [scan]. rewrite squeezed_nil. apply sq_nil.
  - destruct s as [|c s].
    { cbn [scan]. rewrite squeezed_nil. apply sq_nil. }
    cbn [List.length] in L. cbn [scan].
    destruct (exec_at fl r prev (c :: s)) as [[[|n] cap]|] eqn:E.
    + apply H1 in E. destruct E as [_ E].
      destruct t; [congruence|cbn [List.length] in E; lia].
    + pose proof (exec_at_le _ _ _ _ E) as Ln. cbn [List.length] in Ln.
      apply H1 in E. destruct E as [Eq El]. cbn [firstn] in Eq.
      cbn [flat_map render expand app]. rewrite app_nil_r.
      remember (firstn n s) as x eqn:Ex.
      remember (skipn n s) as post eqn:Epost.
      assert (Es : s = x ++ post)
        by (subst x post; symmetry; apply firstn_skipn).
      assert (Lx : List.length x = n)
        by (subst x; rewrite length_firstn; lia).
      clear Ex Epost. subst s n.
      change (c :: x ++ post) with ((c :: x) ++ post).
      apply sq_run; auto.
      destruct post as [|b post].
      * rewrite app_nil_r. rewrite scan_drop_end.
        cbn [scan]. rewrite squeezed_nil. apply sq_nil.
      * rewrite scan_drop by discriminate. apply IH.
        rewrite length_app in L. lia.
    + rewrite advance_no_u by assumption.
      cbn [pred flat_map render app]. apply sq_keep. apply IH. lia.
Qed.

Lemma replace_squeeze : forall s,
  squeeze q s (replace fl r [RText t] s).
Proof.
  intros s. unfold replace. apply (@scan_squeeze (List.length s)). lia.
Qed.
End Scan.

(** *** What squeezing cannot change *)

Lemma squeeze_length : forall q s o,
  squeeze q s o -> List.length o <= List.length s.
Proof.
  induction 1 as [|c s o _ IH|d t s o _ _ _ L _ IH]; cbn [List.length].
  - lia.
  - lia.
  - rewrite !length_app. lia.
Qed.

Lemma squeeze_in : forall q s o c,
  squeeze q s o -> In c o -> In c s \/ q c = true.
Proof.
  intros q s o c H. induction H as [|x s o _ IH|d t s o _ _ Hq _ _ IH];
    intros Hc.
  - destruct Hc.
  - destruct Hc as [ <- |Hc]; [left; left; reflexivity|].
    destruct (IH Hc); [left; right|right]; assumption.
  - apply in_app_or in Hc. destruct Hc as [Hc|Hc].
    + right. rewrite forallb_forall in Hq. apply Hq. exact Hc.
    + destruct (IH Hc); [left; apply in_or_app; right|right]; assumption.
Qed.

Section Fixed.
Variable q : N -> bool.
(** The squeezed characters are no letters. *)
Hypothesis q_fixed : forall b, q b = true -> toUpperAscii b = b.

Lemma clear_head : forall x w b s,
  forallb (fun c => negb (q (toUpperAscii c))) (x :: w) = true ->
  q b = true ->
  starts_ci (x :: w) (b :: s) = false.
Proof.
  intros x w b s Hw Hb. cbn [starts_ci].
  destruct (toUpperAscii x =? toUpperAscii b)%N eqn:E; [|reflexivity].
  apply N.eqb_eq in E. rewrite (q_fixed Hb) in E.
  cbn [forallb] in Hw. apply andb_prop in Hw. destruct Hw as [Hx _].
  rewrite E, Hb in Hx. discriminate.
Qed.

Lemma squeeze_starts : forall s o,
  squeeze q s o ->
  forall w, forallb (fun c => negb (q (toUpperAscii c))) w = true ->
            starts_ci w o = true -> starts_ci w s = true.
Proof.
  induction 1 as [|c s o _ IH|d t s o Ht _ Hq _ _ IH]; intros w Hw H.
  - exact H.
  - destruct w as [|x w]; [reflexivity|]. cbn [starts_ci] in *.
    apply andb_prop in H. destruct H as [E H]. rewrite E. cbn [andb].
    cbn [forallb] in Hw. apply andb_prop in Hw. apply IH; tauto.
  - destruct w as [|x w]; [reflexivity|].
    destruct t as [|b t]; [congruence|]. cbn [forallb] in Hq.
    apply andb_prop in Hq. destruct Hq as [Hb _].
    cbn [app] in H. rewrite (@clear_head x w b (t ++ o) Hw Hb) in H.
    discriminate.
Qed.

Lemma clear_run : forall w t o,
  forallb (fun c => negb (q (toUpperAscii c))) w = true -> w <> [] ->
  forallb q t = true ->
  occurs_ci w o = false -> occurs_ci w (t ++ o) = false.
Proof.
  intros w t o Hw Hne. induction t as [|b t IH]; intros Hq Ho; [exact Ho|].
  cbn [forallb] in Hq. apply andb_prop in Hq. destruct Hq as [Hb Hq].
  cbn [app occurs_ci]. rewrite (IH Hq Ho), orb_false_r.
  destruct w as [|x w]; [congruence|]. apply clear_head; assumption.
Qed.

Lemma squeeze_occurs : forall s o,
  squeeze q s o ->
  forall w, forallb (fun c => negb (q (toUpperAscii c))) w = true ->
            w <> [] ->
            occurs_ci w s = false -> occurs_ci w o = false.
Proof.
  induction 1 as [|c s o Hsq IH|d t s o Ht _ Hq _ _ IH];
    intros w Hw Hne H.
  - exact H.
  - apply occurs_ci_cons_false in H. destruct H as [H1 H2].
    cbn [occurs_ci]. rewrite (IH w Hw Hne H2), orb_false_r.
    destruct (starts_ci w (c :: o)) eqn:E; [|reflexivity].
    apply (@squeeze_starts _ _ (sq_keep c Hsq) w Hw) in E. congruence.
  - apply clear_run; auto. apply IH; auto.
    destruct (occurs_ci w s) eqn:E; [|reflexivity].
    rewrite (occurs_ci_app_r w d s E) in H. discriminate.
Qed.

(** *** Whole words *)

Hypothesis q_nonword : forall b, q b = true -> isWordChar b = false.

Lemma word_head : forall x w b s,
  forallb (fun c => isWordChar (toUpperAscii c)) (x :: w) = true ->
  q b = true ->
  word_here (x :: w) (b :: s) = false.
Proof.
  intros x w b s Hw Hb. cbn [word_here].
  destruct (toUpperAscii x =? toUpperAscii b)%N eqn:E; [|reflexivity].
  apply N.eqb_eq in E. rewrite (q_fixed Hb) in E.
  cbn [forallb] in Hw. apply andb_prop in Hw. destruct Hw as [Hx _].
  rewrite E, (q_nonword Hb) in Hx. discriminate.
Qed.

Lemma squeeze_word_here : forall s o,
  squeeze q s o ->
  forall w, forallb (fun c => isWordChar (toUpperAscii c)) w = true ->
            word_here w o = true -> word_here w s = true.
Proof.
  induction 1 as [|c s o _ IH|d t s o Ht Hd Hq L _ IH]; intros w Hw H.
  - exact H.
  - destruct w as [|x w]; [exact H|]. cbn [word_here] in *.
    apply andb_prop in H. destruct H as [E H]. rewrite E. cbn [andb].
    cbn [forallb] in Hw. apply andb_prop in Hw. apply IH; tauto.
  - destruct t as [|b t]; [congruence|]. cbn [forallb] in Hq.
    apply andb_prop in Hq. destruct Hq as [Hb _].
    destruct w as [|x w].
    + destruct d as [|b' d]; [cbn [List.length] in L; lia|].
      cbn [forallb] in Hd. apply andb_prop in Hd. destruct Hd as [Hb' _].
      cbn [word_here app hd_error is_word].
      rewrite (q_nonword Hb'). reflexivity.
    + cbn [app] in H. rewrite (@word_head x w b (t ++ o) Hw Hb) in H.
      discriminate.
Qed.

Lemma word_from_run : forall w t o aw,
  forallb (fun c => isWordChar (toUpperAscii c)) w = true -> w <> [] ->
  forallb q t = true -> t <> [] ->
  word_from w aw (t ++ o) = word_from w false o.
Proof.
  intros w t o aw Hw Hne. revert aw.
  induction t as [|b t IH]; intros aw Hq Ht; [congruence|].
  cbn [forallb] in Hq. apply andb_prop in Hq. destruct Hq as [Hb Hq].
  destruct w as [|x w]; [congruence|].
  cbn [app word_from].
  rewrite (@word_head x w b (t ++ o) Hw Hb), andb_false_r.
  cbn [orb]. rewrite (q_nonword Hb).
  destruct t as [|b2 t]; [reflexivity|]. apply IH; [exact Hq|discriminate].
Qed.

Lemma squeeze_word_from : forall s o,
  squeeze q s o ->
  forall w aw,
    forallb (fun c => isWordChar (toUpperAscii c)) w = true -> w <> [] ->
    word_from w aw o = true -> word_from w aw s = true.
Proof.
  induction 1 as [|c s o Hsq IH|d t s o Ht Hd Hq L _ IH];
    intros w aw Hw Hne H.
  - exact H.
  - cbn [word_from] in *. apply orb_prop in H. destruct H as [H|H].
    + apply andb_prop in H. destruct H as [Ha H]. rewrite Ha. cbn [andb].
      rewrite (@squeeze_word_here _ _ (sq_keep c Hsq) w Hw H). reflexivity.
    + rewrite (IH w (isWordChar c) Hw Hne H). apply orb_true_r.
  - rewrite word_from_run in H by assumption.
    rewrite word_from_run; auto.
    destruct d; [cbn [List.length] in L|discriminate].
    destruct t; [congruence|cbn [List.length] in L; lia].
Qed.

Lemma squeeze_has_word : forall s o w,
  squeeze q s o ->
  forallb (fun c => isWordChar (toUpperAscii c)) w = true -> w <> [] ->
  has_word w s = false -> has_word w o = false.
Proof.
  intros s o w Hsq Hw Hne H. unfold has_word in *.
  destruct (word_from w false o) eqn:E; [|reflexivity].
  rewrite (@squeeze_word_from _ _ Hsq w false Hw Hne E) in H. discriminate.
Qed.
End Fixed.
End SqueezeFacts.

(** ** Collapsing runs: [c{n,}] and [\s+] *)

Module CollapseFacts.
Import JS Regex RegexSem RegexFacts ScanFacts StringFacts StepsFacts.
Import VoiceFormatter Notions Plain CharFacts BalancedFacts LineFacts.
Import TagFacts NeedFacts SqueezeFacts.

(** A greedy quantifier at the end of the pattern takes the whole
    run. *)
Lemma rep_greedy : forall fl a run rest fuel mn prev cap,
  unicode fl = false ->
  forallb (atom_match fl a) run = true ->
  (forall b rest', rest = b :: rest' -> atom_match fl a b = false) ->
  List.length run < fuel ->
  rep fl a true Some fuel mn None (mkState prev (run ++ rest) cap)
  = if (mn <=? List.length run)%nat
    then Some (mkState (last_or prev run) rest cap) else None.
Proof.
  intros fl a run. induction run as [|c run IH];
    intros rest fuel mn prev cap U Hr Hs Hf.
  - destruct fuel as [|f]; [cbn in Hf; lia|].
    cbn [rep max_done app]. rewrite step_no_u by assumption.
    cbn [st_rest].
    assert (E : match rest with
                | [] => None
                | c :: t => if atom_match fl a c
                            then Some (mkState (Some c) t cap) else None
                end = None).
    { destruct rest as [|b rest']; [reflexivity|].
      rewrite (Hs b rest' eq_refl). reflexivity. }
    cbn [st_cap]. rewrite E. destruct mn; reflexivity.
  - destruct fuel as [|f]; [cbn in Hf; lia|].
    cbn [forallb] in Hr. apply andb_prop in Hr. destruct Hr as [Hc Hr].
    cbn [rep max_done app max_pred]. rewrite step_no_u by assumption.
    cbn [st_rest st_cap]. rewrite Hc.
    rewrite (IH rest f (pred mn) (Some c) cap U Hr Hs)
      by (cbn [List.length] in Hf; lia).
    rewrite last_or_cons. cbn [List.length].
    destruct mn as [|m]; cbn [pred Nat.leb].
    + reflexivity.
    + destruct (m <=? List.length run)%nat; reflexivity.
Qed.

Lemma exec_at_run : forall fl a n run rest prev,
  unicode fl = false ->
  forallb (atom_match fl a) run = true ->
  (forall b rest', rest = b :: rest' -> atom_match fl a b = false) ->
  exec_at fl (Rep true n None a) prev (run ++ rest)
  = if (n <=? List.length run)%nat
    then Some (List.length run, None) else None.
Proof.
  intros fl a n run rest prev U Hr Hs. unfold exec_at. cbn [m st_rest].
  rewrite rep_greedy; auto.
  - destruct (n <=? List.length run)%nat; [|reflexivity].
    cbn [st_rest st_cap]. rewrite length_app. f_equal. f_equal. lia.
  - rewrite length_app. lia.
Qed.

Lemma run_split : forall fl a s,
  exists run rest,
    s = run ++ rest
    /\ forallb (atom_match fl a) run = true
    /\ forall b rest', rest = b :: rest' -> atom_match fl a b = false.
Proof.
  intros fl a s. induction s as [|c s IH].
  - exists [], []. repeat split. intros b rest' E. discriminate E.
  - destruct (atom_match fl a c) eqn:A.
    + destruct IH as (run & rest & -> & Hr & Hs).
      exists (c :: run), rest. repeat split; auto.
      cbn [forallb]. rewrite A, Hr. reflexivity.
    + exists [], (c :: s). repeat split.
      intros b rest' E. inversion E; subst. exact A.
Qed.

Lemma occurs_ci_short : forall w s,
  List.length s < List.length w -> occurs_ci w s = false.
Proof.
  intros w s. induction s as [|c s IH]; intros L.
  - cbn [occurs_ci]. rewrite orb_false_r.
    destruct (starts_ci w []) eqn:E; [|reflexivity].
    apply starts_ci_length in E. lia.
  - cbn [occurs_ci]. rewrite IH by (cbn [List.length] in L; lia).
    rewrite orb_false_r.
    destruct (starts_ci w (c :: s)) eqn:E; [|reflexivity].
    apply starts_ci_length in E. lia.
Qed.

Lemma starts_ci_sep : forall w a b c,
  (forall x, In x w -> toUpperAscii x <> toUpperAscii b) ->
  starts_ci w (a ++ b :: c) = true -> starts_ci w a = true.
Proof.
  induction w as [|x w IH]; intros a b c Hw H; [reflexivity|].
  destruct a as [|y a].
  - cbn [app starts_ci] in H. apply andb_prop in H. destruct H as [E _].
    apply N.eqb_eq in E. exfalso. apply (Hw x); [left; reflexivity|exact E].
  - cbn [app starts_ci] in *. apply andb_prop in H. destruct H as [E H].
    rewrite E. cbn [andb]. apply (IH a b c); auto.
    intros z Hz. apply Hw. right. exact Hz.
Qed.

Lemma occurs_ci_sep : forall w a b c,
  (forall x, In x w -> toUpperAscii x <> toUpperAscii b) ->
  w <> [] ->
  occurs_ci w a = false -> occurs_ci w c = false ->
  occurs_ci w (a ++ b :: c) = false.
Proof.
  intros w a b c Hw Hne. induction a as [|y a IH]; intros Ha Hc.
  - cbn [app occurs_ci]. rewrite Hc, orb_false_r.
    destruct (starts_ci w (b :: c)) eqn:E; [|reflexivity].
    apply (@starts_ci_sep w [] b c Hw) in E.
    destruct w; [congruence|discriminate E].
  - apply occurs_ci_cons_false in Ha. destruct Ha as [H1 H2].
    cbn [app occurs_ci]. rewrite (IH H2 Hc), orb_false_r.
    destruct (starts_ci w (y :: a ++ b :: c)) eqn:E; [|reflexivity].
    apply (@starts_ci_sep w (y :: a) b c Hw) in E. congruence.
Qed.

Section Collapse.
Variables (fl : flags) (a : atom) (n : nat) (t w : jsstring).
Hypothesis U : unicode fl = false.
Hypothesis Hn : 1 <= n.

Lemma collapse_rest : forall rest p,
  (forall b rest', rest = b :: rest' -> atom_match fl a b = false) ->
  flat_map (render [RText t]) (scan fl (Rep true n None a) 0 0 p rest)
  = match rest with
    | [] => []
    | b :: rest' =>
        b :: flat_map (render [RText t])
                      (scan fl (Rep true n None a) 0 0 (Some b) rest')
    end.
Proof.
  intros rest p Hs.
  pose proof (@exec_at_run fl a n [] rest p U eq_refl Hs) as E.
  cbn [app List.length] in E.
  replace (n <=? 0)%nat with false in E
    by (symmetry; apply Nat.leb_gt; lia).
  destruct rest as [|b rest'].
  - cbn [scan]. rewrite E. reflexivity.
  - cbn [scan]. rewrite E. rewrite advance_no_u by assumption.
    reflexivity.
Qed.

Hypothesis Hsep : forall b x,
  atom_match fl a b = false -> In x w ->
  toUpperAscii x <> toUpperAscii b.
Hypothesis Lt : List.length t < List.length w.
Hypothesis Ln : n <= List.length w.

Lemma collapse_scan : forall k s prev,
  List.length s <= k ->
  occurs_ci w (flat_map (render [RText t])
                        (scan fl (Rep true n None a) 0 0 prev s))
  = false.
Proof.
  assert (Hne : w <> []).
  { intros ->. cbn [List.length] in Ln. lia. }
  induction k as [|k IH]; intros s prev L.
  - destruct s; [|cbn in L; lia].
    rewrite (@collapse_rest [] prev) by (intros b r' E; discriminate E).
    apply occurs_ci_short. cbn [List.length]. lia.
  - destruct (run_split fl a s) as (run & rest & -> & Hr & Hs).
    assert (Hrest : forall p img,
              List.length img < List.length w ->
              occurs_ci w
                (img ++ flat_map (render [RText t])
                          (scan fl (Rep true n None a) 0 0 p rest))
              = false).
    { intros p img Li. rewrite (collapse_rest p Hs).
      destruct rest as [|b rest'].
      - rewrite app_nil_r. apply occurs_ci_short. exact Li.
      - apply occurs_ci_sep; auto.
        + intros x Hx. apply Hsep; [|exact Hx]. apply (Hs b rest' eq_refl).
        + apply occurs_ci_short. exact Li.
        + apply IH. rewrite length_app in L. cbn [List.length] in L. lia. }
    destruct (n <=? List.length run)%nat eqn:E.
    + apply Nat.leb_le in E.
      assert (Hrun : run <> []).
      { intros ->. cbn [List.length] in E. lia. }
      pose proof (@exec_at_run fl a n run rest prev U Hr Hs) as X.
      replace (n <=? List.length run)%nat with true in X
        by (symmetry; apply Nat.leb_le; exact E).
      pose proof (@scan_prefix_then_match fl (Rep true n None a) []
                    run rest prev None U) as Hsc.
      cbn [app List.map] in Hsc. rewrite Hsc; auto.
      * cbn [flat_map render expand app]. rewrite app_nil_r.
        apply Hrest. exact Lt.
      * intros a0 b0 E0 Hb. symmetry in E0. apply app_eq_nil in E0.
        destruct E0 as [_ E0]. congruence.
    + apply Nat.leb_gt in E. rewrite scan_prefix_kept.
      * rewrite flat_map_app, flat_map_kept. apply Hrest. lia.
      * exact U.
      * intros a0 b0 E0 Hb. subst run.
        rewrite forallb_app in Hr. apply andb_prop in Hr.
        destruct Hr as [_ Hb0].
        rewrite (@exec_at_run fl a n b0 rest _ U Hb0 Hs).
        rewrite length_app in E.
        replace (n <=? List.length b0)%nat with false
          by (symmetry; apply Nat.leb_gt; lia).
        reflexivity.
Qed.

(** After the replacement no run is longer than the replacement
    text or long enough to match. *)
Lemma collapse_clean : forall s,
  occurs_ci w (replace fl (Rep true n None a) [RText t] s) = false.
Proof.
  intros s. unfold replace. apply (@collapse_scan (List.length s)). lia.
Qed.
End Collapse.

(** Replacing the runs of a class by a run no longer than the
    shortest one squeezes the text. *)
Lemma rep_squeeze : forall fl a n t,
  unicode fl = false ->
  t <> [] -> forallb (atom_match fl a) t = true -> List.length t <= n ->
  forall s,
    squeeze (atom_match fl a) s
            (replace fl (Rep true n None a) [RText t] s).
Proof.
  intros fl a n t U Ht Hta Ltn s. apply replace_squeeze; auto.
  intros prev s0 k cap E. split.
  - apply (@exec_at_rep_inv fl true n None a prev s0 k cap U eq_refl E).
  - apply exec_at_min_length in E; auto; [lia|discriminate].
Qed.

(** *** A replacement that puts back what it takes *)

Lemma scan_self : forall fl r t k s prev,
  unicode fl = false ->
  List.length s <= k ->
  (forall a b n cap,
      s = a ++ b ->
      exec_at fl r (last_or prev a) b = Some (n, cap) ->
      n <> 0 /\ firstn n b = t) ->
  flat_map (render [RText t]) (scan fl r 0 0 prev s) = s.
Proof.
  intros fl r t k. induction k as [|k IH]; intros s prev U L H.
  - destruct s; [|cbn in L; lia]. cbn [scan].
    destruct (exec_at fl r prev []) as [[n cap]|] eqn:E; [|reflexivity].
    pose proof (exec_at_le _ _ _ _ E) as Ln.
    apply (H [] [] n cap eq_refl) in E. cbn [List.length] in Ln. lia.
  - destruct s as [|c s].
    { cbn [scan].
      destruct (exec_at fl r prev []) as [[n cap]|] eqn:E; [|reflexivity].
      pose proof (exec_at_le _ _ _ _ E) as Ln.
      apply (H [] [] n cap eq_refl) in E. cbn [List.length] in Ln. lia. }
    cbn [List.length] in L. cbn [scan].
    destruct (exec_at fl r prev (c :: s)) as [[[|n] cap]|] eqn:E.
    + apply (H [] (c :: s) 0 cap eq_refl) in E. tauto.
    + pose proof (exec_at_le _ _ _ _ E) as Ln. cbn [List.length] in Ln.
      apply (H [] (c :: s) (S n) cap eq_refl) in E.
      destruct E as [_ E]. cbn [firstn] in E.
      cbn [flat_map render expand app]. rewrite app_nil_r.
      remember (firstn n s) as x eqn:Ex.
      remember (skipn n s) as post eqn:Epost.
      assert (Es : s = x ++ post)
        by (subst x post; symmetry; apply firstn_skipn).
      assert (Lx : List.length x = n)
        by (subst x; rewrite length_firstn; lia).
      clear Ex Epost. subst s n t.
      destruct post as [|b post].
      * rewrite app_nil_r in *. rewrite scan_drop_end. cbn [scan].
        destruct (exec_at fl r (last_or (Some c) x) []) as [[n cap']|] eqn:E;
          [|rewrite app_nil_r; reflexivity].
        pose proof (exec_at_le _ _ _ _ E) as Ln'.
        rewrite <- last_or_cons with (d := prev) in E.
        apply (H (c :: x) [] n cap') in E;
          [|rewrite app_nil_r; reflexivity].
        cbn [List.length] in Ln'. lia.
      * rewrite scan_drop by discriminate.
        rewrite (IH (b :: post) (last_or (Some c) x) U).
        -- reflexivity.
        -- rewrite length_app in L. lia.
        -- intros a0 b0 n cap' E0 X.
           apply (H ((c :: x) ++ a0) b0 n cap').
           ++ rewrite E0, <- app_assoc. reflexivity.
           ++ rewrite last_or_app, last_or_cons. exact X.
    + rewrite advance_no_u by assumption.
      cbn [pred flat_map render app]. f_equal. apply IH; auto; [lia|].
      intros a0 b0 n cap E0 X. apply (H (c :: a0) b0 n cap).
      * rewrite E0. reflexivity.
      * rewrite last_or_cons. exact X.
Qed.

Lemma replace_self : forall fl r t s,
  unicode fl = false ->
  (forall a b n cap,
      s = a ++ b ->
      exec_at fl r (last_or None a) b = Some (n, cap) ->
      n <> 0 /\ firstn n b = t) ->
  replace fl r [RText t] s = s.
Proof.
  intros fl r t s U H. unfold replace.
  apply (@scan_self fl r t (List.length s)); auto.
Qed.
End CollapseFacts.

(** ** Plain text and the passes *)

Module PlainFacts.
Import JS Regex RegexSem RegexFacts ScanFacts StringFacts StepsFacts.
Import VoiceFormatter Notions Plain CharFacts BalancedFacts LineFacts.
Import TagFacts ThinkLineFacts NeedFacts SqueezeFacts CollapseFacts.

(** *** Characters *)

Lemma plain_char_upper : forall c,
  plain_char c = true -> plain_char (toUpperAscii c) = true.
Proof.
  intros c H. unfold toUpperAscii.
  destruct (in_range 97 122 c) eqn:R; [|exact H].
  unfold in_range in R. apply andb_prop in R. destruct R as [R1 R2].
  apply N.leb_le in R1, R2.
  unfold plain_char, isLetter.
  replace (in_range 65 90 (c - 32)) with true; [reflexivity|].
  symmetry. unfold in_range. apply andb_true_intro.
  split; apply N.leb_le; lia.
Qed.

Lemma isWordChar_upper : forall c,
  isWordChar (toUpperAscii c) = isWordChar c.
Proof.
  intros c. unfold toUpperAscii.
  destruct (in_range 97 122 c) eqn:R; [|reflexivity].
  unfold isWordChar. rewrite R, orb_true_r. cbn [orb].
  unfold in_range in R. apply andb_prop in R. destruct R as [R1 R2].
  apply N.leb_le in R1, R2.
  replace (in_range 65 90 (c - 32)) with true; [reflexivity|].
  symmetry. unfold in_range. apply andb_true_intro.
  split; apply N.leb_le; lia.
Qed.

Lemma isWordChar_ci : forall x y,
  toUpperAscii x = toUpperAscii y -> isWordChar x = isWordChar y.
Proof.
  intros x y E. rewrite <- (isWordChar_upper x), <- (isWordChar_upper y), E.
  reflexivity.
Qed.

Lemma space_nonword : forall c, isSpace c = true -> isWordChar c = false.
Proof.
  intros c H. ranges H.
  unfold isWordChar, isDigit, in_range.
  rewrite !orb_false_iff, !andb_false_iff, !N.leb_gt, N.eqb_neq. lia.
Qed.

Lemma space_fixed : forall c, isSpace c = true -> toUpperAscii c = c.
Proof.
  intros c H. unfold toUpperAscii.
  replace (in_range 97 122 c) with false; [reflexivity|].
  symmetry. ranges H. out_of_range.
Qed.

Lemma space_plain : forall c, isSpace c = true -> plain_char c = true.
Proof.
  intros c H. unfold plain_char. rewrite H, orb_true_r. reflexivity.
Qed.

(** *** The passes that leave plain text alone *)

Lemma outside_plain : forall fl r tpl v,
  unicode fl = false -> wf r = true ->
  needs_outside plain_char (ignoreCase fl) r = true ->
  forallb plain_char v = true ->
  replace fl r tpl v = v.
Proof.
  intros fl r tpl v U W N H.
  apply (@replace_needs_outside plain_char plain_char_upper
           fl r tpl v U W N H).
Qed.

Lemma step_emoji : forall lo hi prev c b cap,
  isHighSurrogate c = false -> in_range lo hi c = false ->
  step fl_u (AClass false [CRange lo hi]) (mkState prev (c :: b) cap) = None.
Proof.
  intros lo hi prev c b cap S R. unfold step, next_char.
  cbn [st_rest unicode fl_u andb]. rewrite S.
  cbn [atom_match existsb item_match ignoreCase fl_u xorb orb].
  rewrite R. reflexivity.
Qed.

Lemma emoji_plain : forall prev b,
  forallb plain_char b = true -> exec_at fl_u emoji prev b = None.
Proof.
  intros prev b H. destruct b as [|c b]; [reflexivity|].
  cbn [forallb] in H. apply andb_prop in H. destruct H as [H _].
  ranges H.
  unfold exec_at, emoji, cp_range. cbn [m].
  rewrite !step_emoji by out_of_range. reflexivity.
Qed.

Lemma removeEmoticons_plain : forall v,
  forallb plain_char v = true -> removeEmoticons v = v.
Proof.
  intros v H. unfold removeEmoticons.
  assert (E : replace fl_u emoji del v = v).
  { apply replace_no_match. intros a b Eab. apply emoji_plain.
    rewrite Eab, forallb_app in H. apply andb_prop in H. tauto. }
  rewrite E. do 2 pass_by (@outside_plain) v H. reflexivity.
Qed.

Lemma removeMarkdown_plain : forall v,
  forallb plain_char v = true -> removeMarkdown v = v.
Proof.
  intros v H. unfold removeMarkdown.
  do 11 pass_by (@outside_plain) v H. reflexivity.
Qed.

Lemma normalizeNumbers_plain : forall v,
  forallb plain_char v = true -> normalizeNumbers v = v.
Proof.
  intros v H. unfold normalizeNumbers.
  do 3 pass_by (@outside_plain) v H. reflexivity.
Qed.

(** *** Abbreviations *)

Lemma lit_match_word : forall fl w st st',
  unicode fl = false ->
  lit_match fl w st = Some st' ->
  is_word (hd_error (st_rest st')) = false ->
  word_here w (st_rest st) = true.
Proof.
  intros fl w. induction w as [|c w IH]; intros st st' U H E.
  - cbn [lit_match] in H. inversion H; subst. cbn [word_here].
    rewrite E. reflexivity.
  - cbn [lit_match] in H. rewrite step_no_u in H by assumption.
    destruct (st_rest st) as [|x t] eqn:R; [discriminate|].
    destruct (atom_match fl (AChar c) x) eqn:A; [|discriminate].
    apply IH in H; auto. cbn [st_rest] in H.
    cbn [word_here]. rewrite H, andb_true_r.
    cbn [atom_match] in A. unfold canon in A. apply N.eqb_eq in A.
    apply N.eqb_eq. destruct (ignoreCase fl); congruence.
Qed.

Lemma lit_match_prev : forall fl w st st',
  unicode fl = false ->
  lit_match fl w st = Some st' ->
  w <> [] -> forallb (fun c => isWordChar (toUpperAscii c)) w = true ->
  is_word (st_prev st') = true.
Proof.
  intros fl w. induction w as [|c w IH]; intros st st' U H Hne Hw;
    [congruence|].
  cbn [lit_match] in H. rewrite step_no_u in H by assumption.
  destruct (st_rest st) as [|x t] eqn:R; [discriminate|].
  destruct (atom_match fl (AChar c) x) eqn:A; [|discriminate].
  cbn [forallb] in Hw. apply andb_prop in Hw. destruct Hw as [Hc Hw].
  destruct w as [|c' w].
  - cbn [lit_match] in H. inversion H; subst. cbn [st_prev is_word].
    cbn [atom_match] in A. unfold canon in A. apply N.eqb_eq in A.
    rewrite isWordChar_upper in Hc. rewrite <- Hc.
    apply isWordChar_ci. destruct (ignoreCase fl); congruence.
  - apply (IH _ _ U H); [discriminate|exact Hw].
Qed.

Lemma word_here_head : forall x w s,
  isWordChar (toUpperAscii x) = true ->
  word_here (x :: w) s = true -> is_word (hd_error s) = true.
Proof.
  intros x w s Hx H. destruct s as [|y s]; [discriminate H|].
  cbn [word_here] in H. apply andb_prop in H. destruct H as [E _].
  apply N.eqb_eq in E. cbn [hd_error is_word].
  rewrite isWordChar_upper in Hx. rewrite <- Hx. symmetry.
  apply isWordChar_ci. exact E.
Qed.

Lemma word_from_at : forall w a b p,
  is_word (last_or p a) = false ->
  word_here w b = true -> b <> [] ->
  word_from w (is_word p) (a ++ b) = true.
Proof.
  intros w a. induction a as [|x a IH]; intros b p Hp Hb Hne.
  - cbn [app]. destruct b as [|c b]; [congruence|].
    cbn [word_from]. cbn in Hp. rewrite Hp, Hb. reflexivity.
  - cbn [app word_from]. rewrite last_or_cons in Hp.
    change (isWordChar x) with (is_word (Some x)).
    rewrite (IH b (Some x) Hp Hb Hne). apply orb_true_r.
Qed.

Lemma abbreviation_no_match : forall w tpl s,
  w <> [] -> forallb (fun c => isWordChar (toUpperAscii c)) w = true ->
  has_word w s = false ->
  replace fl_i (seq [WordBoundary; Lit w; WordBoundary]) tpl s = s.
Proof.
  intros w tpl s Hne Hw H. apply replace_no_match. intros a b E.
  destruct (exec_at fl_i (seq [WordBoundary; Lit w; WordBoundary])
                    (last_or None a) b) eqn:X; [|reflexivity].
  exfalso.
  assert (X' : exec_at fl_i (seq [WordBoundary; Lit w; WordBoundary])
                       (last_or None a) b <> None) by congruence.
  apply exec_at_some in X'; [|reflexivity]. destruct X' as [st' M].
  cbn [seq matches] in M.
  destruct M as (st1 & [B1 ->] & st2 & L & [B2 ->]).
  unfold at_word_boundary in B1, B2. cbn [st_prev st_rest] in B1.
  pose proof (@lit_match_prev fl_i w _ _ eq_refl L Hne Hw) as P.
  rewrite P in B2. cbn [xorb] in B2. apply negb_true_iff in B2.
  pose proof (@lit_match_word fl_i w _ _ eq_refl L B2) as Wd.
  cbn [st_rest] in Wd.
  destruct w as [|x w]; [congruence|].
  cbn [forallb] in Hw. apply andb_prop in Hw. destruct Hw as [Hx _].
  pose proof (@word_here_head x w b Hx Wd) as Hd.
  rewrite Hd in B1. rewrite xorb_true_r in B1. apply negb_true_iff in B1.
  assert (Hb : b <> []) by (intros ->; discriminate Wd).
  pose proof (@word_from_at (x :: w) a b None B1 Wd Hb) as F.
  cbn [is_word] in F. unfold has_word in H. rewrite <- E in F. congruence.
Qed.

Lemma abbreviations_word_chars :
  forallb (fun e =>
             negb (isEmpty (js (fst e)))
             && forallb (fun c => isWordChar (toUpperAscii c)) (js (fst e)))
          abbreviations = true.
Proof. reflexivity. Qed.

Lemma abbreviations_fold : forall (l : list (string * string)) v,
  forallb (fun e =>
             negb (isEmpty (js (fst e)))
             && forallb (fun c => isWordChar (toUpperAscii c)) (js (fst e)))
          l = true ->
  forallb (fun e => negb (has_word (js (fst e)) v)) l = true ->
  fold_left
    (fun normalized e =>
       replace fl_i (seq [WordBoundary; Lit (js (fst e)); WordBoundary])
               [RText (js (snd e))] normalized)
    l v = v.
Proof.
  induction l as [|e l IH]; intros v Hl Hv; [reflexivity|].
  cbn [forallb] in Hl, Hv. apply andb_prop in Hl, Hv.
  destruct Hl as [He Hl]. destruct Hv as [Hw Hv].
  apply andb_prop in He. destruct He as [Hne Hc].
  apply negb_true_iff in Hw.
  cbn [fold_left]. rewrite abbreviation_no_match; auto.
  intros N. rewrite N in Hne. discriminate Hne.
Qed.

(** *** Runs of one character *)

Lemma starts_ci_self : forall p r, starts_ci p (p ++ r) = true.
Proof.
  induction p as [|x p IH]; intros r; [reflexivity|].
  cbn [app starts_ci]. rewrite N.eqb_refl, IH. reflexivity.
Qed.

Lemma repeat_split : forall (c : N) n k,
  n <= k -> repeat c k = repeat c n ++ repeat c (k - n).
Proof.
  intros c n k L. rewrite <- repeat_app. f_equal. lia.
Qed.

Section Run.
Variables (fl : flags) (a : atom) (c : N) (s : jsstring).
Hypothesis U : unicode fl = false.
Hypothesis Hc : forall x, In x s -> atom_match fl a x = true -> x = c.

Lemma run_prefix : forall k b pre,
  s = pre ++ b ->
  forallb (atom_match fl a) (firstn k b) = true ->
  k <= List.length b ->
  firstn k b = repeat c k.
Proof.
  induction k as [|k IH]; intros b pre E F L; [reflexivity|].
  destruct b as [|x b]; [cbn in L; lia|].
  cbn [firstn forallb] in F |- *. apply andb_prop in F.
  destruct F as [Fx F]. cbn [repeat]. f_equal.
  - apply Hc; [|exact Fx]. rewrite E. apply in_or_app. right. left.
    reflexivity.
  - apply (IH b (pre ++ [x])).
    + rewrite E, <- app_assoc. reflexivity.
    + exact F.
    + cbn [List.length] in L. lia.
Qed.

Lemma run_occurs : forall n k b pre,
  s = pre ++ b ->
  forallb (atom_match fl a) (firstn k b) = true ->
  k <= List.length b -> n <= k ->
  occurs_ci (repeat c n) s = true.
Proof.
  intros n k b pre E F L Ln.
  pose proof (@run_prefix k b pre E F L) as P.
  rewrite E. apply occurs_ci_app_r. apply starts_ci_occurs.
  rewrite <- (firstn_skipn k b), P, (@repeat_split c n k Ln), <- app_assoc.
  apply starts_ci_self.
Qed.

Lemma run_match : forall n prev pre b k cap,
  s = pre ++ b ->
  exec_at fl (Rep true n None a) prev b = Some (k, cap) ->
  n <= k /\ firstn k b = repeat c k
  /\ forall j, j <= k -> occurs_ci (repeat c j) s = true.
Proof.
  intros n prev pre b k cap E X.
  pose proof (exec_at_le _ _ _ _ X) as L.
  pose proof (@exec_at_rep_inv fl true n None a prev b k cap U eq_refl X)
    as F.
  assert (Ln : n <= k).
  { apply exec_at_min_length in X; auto. discriminate. }
  split; [exact Ln|]. split.
  - apply (@run_prefix k b pre E F L).
  - intros j Lj. apply (@run_occurs j k b pre E F L Lj).
Qed.

(** No run is long enough for the pattern. *)
Lemma run_no_match : forall n tpl,
  occurs_ci (repeat c n) s = false ->
  replace fl (Rep true n None a) tpl s = s.
Proof.
  intros n tpl H. apply replace_no_match. intros pre b E.
  destruct (exec_at fl (Rep true n None a) (last_or None pre) b)
    as [[k cap]|] eqn:X; [|reflexivity].
  destruct (@run_match n _ pre b k cap E X) as (Ln & _ & O).
  rewrite (O n Ln) in H. discriminate.
Qed.

(** Every run that is long enough is the replacement itself. *)
Lemma run_self : forall n,
  1 <= n ->
  occurs_ci (repeat c (S n)) s = false ->
  replace fl (Rep true n None a) [RText (repeat c n)] s = s.
Proof.
  intros n Hn H. apply replace_self; [exact U|].
  intros pre b k cap E X.
  destruct (@run_match n _ pre b k cap E X) as (Ln & P & O).
  assert (k = n).
  { destruct (Nat.eq_dec k n) as [|Ne]; [assumption|].
    rewrite (O (S n)) in H by lia. discriminate. }
  subst k. split; [lia|exact P].
Qed.
End Run.

(** *** What [a+] leaves of [a] *)

Section Plus.
Variables (fl : flags) (a : atom) (t : jsstring).
Hypothesis U : unicode fl = false.

Lemma plus_scan_chars : forall k s prev,
  List.length s <= k ->
  forall c,
    In c (flat_map (render [RText t])
                   (scan fl (Rep true 1 None a) 0 0 prev s)) ->
    atom_match fl a c = true -> In c t.
Proof.
  induction k as [|k IH]; intros s prev L c Hin A.
  - destruct s; [|cbn in L; lia].
    rewrite (@collapse_rest fl a 1 t U (le_n 1) [] prev) in Hin
      by (intros b r' E; discriminate E).
    destruct Hin.
  - destruct (run_split fl a s) as (run & rest & -> & Hr & Hs).
    assert (Hrest : forall p,
              In c (flat_map (render [RText t])
                             (scan fl (Rep true 1 None a) 0 0 p rest)) ->
              In c t).
    { intros p Hp.
      rewrite (@collapse_rest fl a 1 t U (le_n 1) rest p Hs) in Hp.
      destruct rest as [|b rest']; [destruct Hp|].
      destruct Hp as [ <- |Hp].
      - rewrite (Hs b rest' eq_refl) in A. discriminate.
      - apply (IH rest' (Some b)); auto.
        rewrite length_app in L. cbn [List.length] in L. lia. }
    destruct run as [|x run]; [apply (Hrest prev); exact Hin|].
    pose proof (@exec_at_run fl a 1 (x :: run) rest prev U Hr Hs) as X.
    cbn [List.length Nat.leb] in X.
    pose proof (@scan_prefix_then_match fl (Rep true 1 None a) []
                  (x :: run) rest prev None U) as Hsc.
    cbn [app List.map] in Hsc. cbn [app] in Hin.
    rewrite Hsc in Hin.
    + cbn [flat_map render expand app] in Hin.
      rewrite app_nil_r in Hin. apply in_app_or in Hin.
      destruct Hin as [Hin|Hin]; [exact Hin|]. apply (Hrest _ Hin).
    + intros a0 b0 E0 Hb. symmetry in E0. apply app_eq_nil in E0.
      destruct E0 as [_ E0]. congruence.
    + exact X.
    + discriminate.
Qed.

Lemma plus_chars : forall s c,
  In c (replace fl (Rep true 1 None a) [RText t] s) ->
  atom_match fl a c = true -> In c t.
Proof.
  intros s c. unfold replace.
  apply (@plus_scan_chars (List.length s)). lia.
Qed.
End Plus.

(** *** [trim] *)

Lemma trimStart_split : forall s,
  exists l, s = l ++ trimStart s /\ forallb isSpace l = true.
Proof.
  induction s as [|c s IH].
  - exists []. split; reflexivity.
  - cbn [trimStart]. destruct (isSpace c) eqn:E.
    + destruct IH as (l & E1 & E2). exists (c :: l). split.
      * cbn [app]. f_equal. exact E1.
      * cbn [forallb]. rewrite E, E2. reflexivity.
    + exists []. split; reflexivity.
Qed.

Lemma trimEnd_split : forall s,
  exists r, s = trimEnd s ++ r /\ forallb isSpace r = true.
Proof.
  intros s. unfold trimEnd.
  destruct (trimStart_split (rev s)) as (l & E1 & E2).
  exists (rev l). split.
  - rewrite <- rev_app_distr, <- E1, rev_involutive. reflexivity.
  - rewrite forallb_forall in E2 |- *. intros x Hx. apply E2.
    apply in_rev. exact Hx.
Qed.

Lemma trim_split : forall s,
  exists l r, s = l ++ trim s ++ r
              /\ forallb isSpace l = true /\ forallb isSpace r = true.
Proof.
  intros s. unfold trim.
  destruct (trimStart_split s) as (l & E1 & E2).
  destruct (trimEnd_split (trimStart s)) as (r & E3 & E4).
  exists l, r. split; [|split; assumption].
  rewrite <- E3. exact E1.
Qed.

Lemma trimStart_head : forall s c u,
  trimStart s = c :: u -> isSpace c = false.
Proof.
  induction s as [|x s IH]; intros c u H; [discriminate H|].
  cbn [trimStart] in H. destruct (isSpace x) eqn:E; [eauto|].
  inversion H; subst. exact E.
Qed.

Lemma trimStart_fixed : forall s,
  (forall c u, s = c :: u -> isSpace c = false) -> trimStart s = s.
Proof.
  intros [|c s] H; [reflexivity|].
  cbn [trimStart]. rewrite (H c s eq_refl). reflexivity.
Qed.

Lemma trimStart_idem : forall s, trimStart (trimStart s) = trimStart s.
Proof.
  intros s. apply trimStart_fixed. intros c u E.
  apply (@trimStart_head s c u E).
Qed.

Lemma trimEnd_idem : forall s, trimEnd (trimEnd s) = trimEnd s.
Proof.
  intros s. unfold trimEnd. rewrite rev_involutive, trimStart_idem.
  reflexivity.
Qed.

Lemma trim_idem : forall s, trim (trim s) = trim s.
Proof.
  intros s. unfold trim.
  assert (E : trimStart (trimEnd (trimStart s)) = trimEnd (trimStart s)).
  { apply trimStart_fixed. intros c u Ec.
    destruct (trimEnd_split (trimStart s)) as (r & E1 & _).
    rewrite Ec in E1. cbn [app] in E1.
    apply (@trimStart_head s c (u ++ r) E1). }
  rewrite E. apply trimEnd_idem.
Qed.

(** What holds of a text holds of the part [trim] keeps. *)
Lemma trim_forallb : forall (P : N -> bool) s,
  forallb P s = true -> forallb P (trim s) = true.
Proof.
  intros P s H. rewrite forallb_forall in H |- *. intros x Hx.
  apply H. apply trim_in. exact Hx.
Qed.

Lemma trim_occurs : forall w s,
  occurs_ci w s = false -> occurs_ci w (trim s) = false.
Proof.
  intros w s H. destruct (occurs_ci w (trim s)) eqn:E; [|reflexivity].
  destruct (trim_split s) as (l & r & Es & _).
  rewrite Es in H.
  rewrite (occurs_ci_app_r w l _ (occurs_ci_app_l w _ r E)) in H.
  discriminate.
Qed.

Lemma word_here_app : forall w y r,
  (forall b r', r = b :: r' -> isWordChar b = false) ->
  word_here w y = true -> word_here w (y ++ r) = true.
Proof.
  induction w as [|x w IH]; intros y r Hr H.
  - cbn [word_here] in *. destruct y as [|c y]; [|exact H].
    cbn [app]. destruct r as [|b r']; [reflexivity|].
    cbn [hd_error is_word]. rewrite (Hr b r' eq_refl). reflexivity.
  - destruct y as [|c y]; [discriminate H|].
    cbn [app word_here] in *. apply andb_prop in H. destruct H as [E H].
    rewrite E, (IH y r Hr H). reflexivity.
Qed.

Lemma word_from_app : forall w y r aw,
  (forall b r', r = b :: r' -> isWordChar b = false) ->
  word_from w aw y = true -> word_from w aw (y ++ r) = true.
Proof.
  intros w y. induction y as [|c y IH]; intros r aw Hr H;
    [discriminate H|].
  cbn [app word_from] in *. apply orb_prop in H. destruct H as [H|H].
  - apply andb_prop in H. destruct H as [H1 H2].
    rewrite H1. cbn [andb].
    change (c :: y ++ r) with ((c :: y) ++ r).
    rewrite (@word_here_app w (c :: y) r Hr H2). reflexivity.
  - rewrite (IH r _ Hr H). apply orb_true_r.
Qed.

Lemma word_from_skip : forall w l z,
  forallb isSpace l = true ->
  word_from w false z = true -> word_from w false (l ++ z) = true.
Proof.
  intros w l. induction l as [|c l IH]; intros z Hl H; [exact H|].
  cbn [forallb] in Hl. apply andb_prop in Hl. destruct Hl as [Hc Hl].
  cbn [app word_from]. rewrite (@space_nonword c Hc), (IH z Hl H).
  apply orb_true_r.
Qed.

Lemma trim_has_word : forall w s,
  has_word w s = false -> has_word w (trim s) = false.
Proof.
  intros w s H. unfold has_word in *.
  destruct (word_from w false (trim s)) eqn:E; [|reflexivity].
  destruct (trim_split s) as (l & r & Es & Hl & Hr).
  rewrite Es in H. rewrite word_from_skip in H; [discriminate|exact Hl|].
  apply word_from_app; [|exact E].
  intros b r' Eb. subst r. cbn [forallb] in Hr. apply andb_prop in Hr.
  apply space_nonword. tauto.
Qed.

Lemma trim_no_longer : forall s, List.length (trim s) <= List.length s.
Proof.
  intros s. destruct (trim_split s) as (l & r & Es & _).
  rewrite Es at 2. rewrite !length_app. lia.
Qed.

(** *** The classes the passes squeeze *)

Lemma one_char : forall c b,
  atom_match noflags (AClass false [CChar c]) b = true -> b = c.
Proof.
  intros c b H. cbn [atom_match existsb item_match xorb] in H.
  unfold canon in H. cbn [ignoreCase noflags] in H.
  rewrite orb_false_r in H. apply N.eqb_eq in H. exact H.
Qed.

Lemma space_char : forall b,
  atom_match noflags space b = true -> isSpace b = true.
Proof.
  intros b H. cbn [atom_match space existsb item_match xorb] in H.
  rewrite orb_false_r in H. exact H.
Qed.

Lemma upper_inv : forall b c,
  toUpperAscii b = c -> in_range 65 90 c = false -> b = c.
Proof.
  intros b c E R. unfold toUpperAscii in E.
  destruct (in_range 97 122 b) eqn:L; [|exact E].
  exfalso. unfold in_range in L, R. apply andb_prop in L.
  destruct L as [L1 L2]. apply N.leb_le in L1, L2.
  apply andb_false_iff in R. rewrite !N.leb_gt in R. lia.
Qed.

Lemma run_sep : forall fl a c n,
  atom_match fl a c = true ->
  in_range 65 90 c = false -> toUpperAscii c = c ->
  forall b x,
    atom_match fl a b = false -> In x (repeat c n) ->
    toUpperAscii x <> toUpperAscii b.
Proof.
  intros fl a c n A R Uc b x Ab Hx E.
  apply repeat_spec in Hx. subst x. rewrite Uc in E. symmetry in E.
  apply upper_inv in E; [|exact R]. subst b. congruence.
Qed.

(** *** Dropped lines *)

Lemma line_drop_cut : forall b s o, line_drop b s o -> line_cut s o.
Proof.
  induction 1 as [b|b c s o _ IH|d|d t s o Ht _ IH].
  - apply cut_end.
  - apply cut_keep. exact IH.
  - apply cut_end.
  - apply cut_line; assumption.
Qed.

Lemma line_drop_in : forall b s o c,
  line_drop b s o -> In c o -> In c s.
Proof.
  intros b s o c H. induction H as [b|b x s o _ IH|d|d t s o Ht _ IH];
    intros Hc.
  - destruct Hc.
  - destruct Hc as [ <- |Hc]; [left; reflexivity|right; auto].
  - destruct Hc.
  - apply in_or_app. right.
    destruct Hc as [ <- |Hc]; [left; reflexivity|right; auto].
Qed.

Lemma line_drop_length : forall b s o,
  line_drop b s o -> List.length o <= List.length s.
Proof.
  induction 1 as [b|b x s o _ IH|d|d t s o Ht _ IH]; cbn [List.length].
  - lia.
  - lia.
  - lia.
  - rewrite length_app. cbn [List.length]. lia.
Qed.

Lemma terminator_nonword : forall t,
  isLineTerminator t = true -> isWordChar t = false.
Proof.
  intros t H. unfold isLineTerminator in H.
  rewrite ?orb_true_iff, ?N.eqb_eq in H.
  unfold isWordChar, isDigit, in_range.
  rewrite !orb_false_iff, !andb_false_iff, !N.leb_gt, N.eqb_neq. lia.
Qed.

Lemma word_start_terminator : forall x w t o,
  isWordChar (toUpperAscii x) = true -> isLineTerminator t = true ->
  word_here (x :: w) (t :: o) = false.
Proof.
  intros x w t o Hx Ht. cbn [word_here].
  destruct (toUpperAscii x =? toUpperAscii t)%N eqn:E; [|reflexivity].
  apply N.eqb_eq in E. apply isWordChar_ci in E.
  rewrite isWordChar_upper in Hx.
  rewrite (terminator_nonword _ Ht) in E. congruence.
Qed.

Lemma drop_word_here : forall w b s o,
  line_drop b s o ->
  forallb (fun c => isWordChar (toUpperAscii c)) w = true ->
  (w = [] -> b = false) ->
  word_here w o = true -> word_here w s = true.
Proof.
  induction w as [|x w IH]; intros b s o D Hw Hb H.
  - specialize (Hb eq_refl). subst b.
    inversion D; subst; [exact H|exact H].
  - cbn [forallb] in Hw. apply andb_prop in Hw. destruct Hw as [Hx Hw].
    inversion D; subst.
    + discriminate H.
    + cbn [word_here] in *. apply andb_prop in H. destruct H as [E H].
      rewrite E. cbn [andb].
      apply (IH (isLineTerminator c) s0 o0); auto.
      intros _. destruct (isLineTerminator c) eqn:T; [|reflexivity].
      apply N.eqb_eq in E. apply isWordChar_ci in E.
      rewrite isWordChar_upper in Hx.
      rewrite (terminator_nonword _ T) in E. congruence.
    + discriminate H.
    + rewrite word_start_terminator in H by assumption. discriminate H.
Qed.

Lemma word_from_past : forall w aw pre t s,
  word_from w (isWordChar t) s = true ->
  word_from w aw (pre ++ t :: s) = true.
Proof.
  intros w aw pre. revert aw. induction pre as [|c pre IH]; intros aw t s H.
  - cbn [app word_from]. rewrite H. apply orb_true_r.
  - cbn [app word_from]. rewrite (IH _ t s H). apply orb_true_r.
Qed.

Lemma drop_word_from : forall b s o,
  line_drop b s o ->
  forall w aw,
    forallb (fun c => isWordChar (toUpperAscii c)) w = true -> w <> [] ->
    word_from w aw o = true -> word_from w aw s = true.
Proof.
  induction 1 as [b|b c s o D IH|d|d t s o Ht D IH]; intros w aw Hw Hne H.
  - exact H.
  - cbn [word_from] in *. apply orb_prop in H. destruct H as [H|H].
    + apply andb_prop in H. destruct H as [H1 H2]. rewrite H1.
      cbn [andb].
      rewrite (@drop_word_here w b (c :: s) (c :: o) (drop_keep b c D) Hw);
        [reflexivity| |exact H2].
      intros E. congruence.
    + rewrite (IH w _ Hw Hne H). apply orb_true_r.
  - discriminate H.
  - cbn [word_from] in H. apply orb_prop in H. destruct H as [H|H].
    + apply andb_prop in H. destruct H as [_ H].
      destruct w as [|x w]; [congruence|].
      cbn [forallb] in Hw. apply andb_prop in Hw. destruct Hw as [Hx _].
      rewrite word_start_terminator in H by assumption. discriminate H.
    + apply word_from_past. apply (IH w _ Hw Hne H).
Qed.

Lemma drop_has_word : forall b s o w,
  line_drop b s o ->
  forallb (fun c => isWordChar (toUpperAscii c)) w = true -> w <> [] ->
  has_word w s = false -> has_word w o = false.
Proof.
  intros b s o w D Hw Hne H. unfold has_word in *.
  destruct (word_from w false o) eqn:E; [|reflexivity].
  rewrite (@drop_word_from b s o D w false Hw Hne E) in H. discriminate.
Qed.

Lemma at_bol_line_start : forall prev s cap,
  at_bol fl_im (mkState prev s cap) = line_start prev.
Proof. intros [c|] s cap; reflexivity. Qed.

Section LineDrop.
Variable r : regex.
Hypothesis H0 : forall prev s n cap,
  exec_at fl_im r prev s = Some (n, cap) -> line_start prev = true.
Hypothesis H1 : forall prev s n cap,
  exec_at fl_im r prev s = Some (n, cap) ->
  n <> 0 /\ line_end (skipn n s) = true.
Hypothesis H2 : forall prev t s,
  isLineTerminator t = true -> exec_at fl_im r prev (t :: s) = None.

Lemma scan_line_drop : forall k s prev,
  List.length s <= k ->
  line_drop (line_start prev) s
            (flat_map (render []) (scan fl_im r 0 0 prev s)).
Proof.
  assert (Hnil : forall prev, exec_at fl_im r prev [] = None).
  { intros prev.
    destruct (exec_at fl_im r prev []) as [[n cap]|] eqn:E; [|reflexivity].
    pose proof (exec_at_le _ _ _ _ E) as L. apply H1 in E.
    cbn [List.length] in L. lia. }
  induction k as [|k IH]; intros s prev L.
  - destruct s; [|cbn in L; lia].
    cbn [scan]. rewrite Hnil. apply drop_nil.
  - destruct s as [|c s].
    { cbn [scan]. rewrite Hnil. apply drop_nil. }
    cbn [List.length] in L. cbn [scan].
    destruct (exec_at fl_im r prev (c :: s)) as [[[|n] cap]|] eqn:E.
    + apply H1 in E. tauto.
    + pose proof (exec_at_le _ _ _ _ E) as Ln. cbn [List.length] in Ln.
      rewrite (H0 _ _ E).
      apply H1 in E. destruct E as [_ E]. cbn [skipn] in E.
      cbn [flat_map render expand app].
      remember (firstn n s) as x eqn:Ex.
      remember (skipn n s) as post eqn:Epost.
      assert (Es : s = x ++ post)
        by (subst x post; symmetry; apply firstn_skipn).
      assert (Lx : List.length x = n)
        by (subst x; rewrite length_firstn; lia).
      clear Ex Epost. subst s n.
      destruct post as [|t post].
      * rewrite app_nil_r. rewrite scan_drop_end.
        cbn [scan]. rewrite Hnil. apply drop_end.
      * cbn [line_end] in E. rewrite scan_drop by discriminate.
        cbn [scan]. rewrite (H2 _ _ post E).
        rewrite advance_no_u by reflexivity.
        cbn [pred flat_map render app].
        change (c :: x ++ t :: post) with ((c :: x) ++ t :: post).
        apply drop_line; [exact E|].
        replace true with (line_start (Some t)) by exact E.
        apply IH. rewrite length_app in L. cbn [List.length] in L. lia.
    + rewrite advance_no_u by reflexivity.
      cbn [pred flat_map render app]. apply drop_keep.
      apply (IH s (Some c)). lia.
Qed.

Lemma replace_line_drop : forall s,
  line_drop true s (replace fl_im r [] s).
Proof.
  intros s. unfold replace.
  apply (@scan_line_drop (List.length s) s None). lia.
Qed.
End LineDrop.

Lemma line_with_think_drop : forall s,
  line_drop true s (replace fl_im line_with_think del s).
Proof.
  intros s. apply replace_line_drop.
  - intros prev s0 n cap E. apply line_with_think_inv in E.
    destruct E as (ws1 & th & ws2 & _ & _ & _ & _ & _ & B).
    rewrite at_bol_line_start in B. exact B.
  - intros prev s0 n cap E.
    pose proof (exec_at_le _ _ _ _ E) as Ln.
    apply line_with_think_inv in E.
    destruct E as (ws1 & th & ws2 & Ef & _ & Ct & _ & Le & _).
    split; [|exact Le]. intros ->. cbn [firstn] in Ef.
    symmetry in Ef. apply app_eq_nil in Ef. destruct Ef as [_ Ef].
    apply app_eq_nil in Ef. destruct Ef as [Ef _]. subst th.
    discriminate Ct.
  - apply line_with_think_terminator.
Qed.

Lemma lit_lf_head : forall p st st',
  lit_match fl_im (LF :: p) st = Some st' -> line_end (st_rest st) = true.
Proof.
  intros p st st' H. apply lit_match_starts in H; [|reflexivity].
  destruct (st_rest st) as [|y rest]; [reflexivity|].
  cbn [starts_ci] in H. apply andb_prop in H. destruct H as [E _].
  apply N.eqb_eq in E. symmetry in E.
  apply upper_inv in E; [|reflexivity]. subst y. reflexivity.
Qed.

Lemma think_line_start_inv : forall prev s n cap,
  exec_at fl_im think_line_start prev s = Some (n, cap) ->
  line_start prev = true /\ n <> 0 /\ line_end (skipn n s) = true
  /\ starts_ci (js "think") s = true.
Proof.
  intros prev s n cap H.
  apply exec_at_rest in H; [|reflexivity].
  destruct H as (st' & M & Es & Ek).
  destruct M as (sta & (B & ->) & stb & M2 & stc & M3 & (LA & ->)).
  change (lit_match fl_im (js "think") (mkState prev s None) = Some stb)
    in M2.
  pose proof (@lit_match_rest fl_im (js "think") _ _ eq_refl M2) as [R L].
  cbn [st_rest] in R, L.
  pose proof (@lit_match_starts fl_im (js "think") _ _ eq_refl M2) as S.
  cbn [st_rest] in S.
  rewrite at_bol_line_start in B.
  split; [exact B|]. split; [|split; [|exact S]].
  - apply (@matches_suffix fl_im (lazy_star any)) in M3.
    apply suffix_length in M3. rewrite R, length_skipn in M3.
    assert (Ef : List.length s
                 = List.length (firstn n s) + List.length (st_rest stc))
      by (rewrite Es at 1; apply length_app).
    rewrite length_firstn in Ef. change (List.length (js "think")) with 5 in *.
    lia.
  - rewrite Ek. destruct LA as (st1 & [M|[M|M]]).
    + destruct M as (st2 & M & _). apply (lit_lf_head _ _ M).
    + apply (lit_lf_head _ _ M).
    + destruct M as [M _]. rewrite <- at_eol_line_end. exact M.
Qed.

Lemma think_line_start_drop : forall s,
  line_drop true s (replace fl_im think_line_start del s).
Proof.
  intros s. apply replace_line_drop.
  - intros prev s0 n cap E. apply think_line_start_inv in E. tauto.
  - intros prev s0 n cap E. apply think_line_start_inv in E. tauto.
  - intros prev t s0 Ht.
    destruct (exec_at fl_im think_line_start prev (t :: s0))
      as [[n cap]|] eqn:E; [|reflexivity].
    apply think_line_start_inv in E. destruct E as (_ & _ & _ & S).
    change (js "think") with (116%N :: js "hink") in S.
    rewrite (@no_terminator_start 116%N (js "hink") t s0 eq_refl Ht) in S.
    discriminate S.
Qed.

(** *** Plain text stays plain *)

Lemma untriggered_keep : forall s o,
  (forall w, In w (List.concat triggers) ->
             occurs_ci w s = false -> occurs_ci w o = false) ->
  untriggered s = true -> untriggered o = true.
Proof.
  intros s o K H. unfold untriggered in *.
  rewrite forallb_forall in H |- *. intros alts Ha.
  specialize (H alts Ha). apply existsb_exists in H.
  destruct H as (w & Hw & N). apply negb_true_iff in N.
  apply existsb_exists. exists w. split; [exact Hw|].
  apply negb_true_iff. apply K; [|exact N].
  apply in_concat. exists alts. split; assumption.
Qed.

Lemma trigger_not_nil : forall w, In w (List.concat triggers) -> w <> [].
Proof.
  intros w Hw ->. cbn in Hw.
  repeat (destruct Hw as [Hw|Hw]; [discriminate Hw|]). exact Hw.
Qed.

Lemma plain_intro : forall s,
  forallb plain_char s = true -> untriggered s = true ->
  forallb (fun e => negb (has_word (js (fst e)) s)) abbreviations = true ->
  plain s = true.
Proof. intros s H1 H2 H3. unfold plain. rewrite H1, H2, H3. reflexivity. Qed.

Lemma plain_inv : forall s,
  plain s = true ->
  forallb plain_char s = true /\ untriggered s = true
  /\ forallb (fun e => negb (has_word (js (fst e)) s)) abbreviations = true.
Proof.
  intros s H. unfold plain in H. apply andb_prop in H. destruct H as [H H3].
  apply andb_prop in H. tauto.
Qed.

Lemma plain_chars : forall s, plain s = true -> forallb plain_char s = true.
Proof. intros s H. apply plain_inv in H. tauto. Qed.

(** What keeps the abbreviations out. *)
Lemma abbreviations_keep : forall s o,
  (forall w, forallb (fun c => isWordChar (toUpperAscii c)) w = true ->
             w <> [] -> has_word w s = false -> has_word w o = false) ->
  forallb (fun e => negb (has_word (js (fst e)) s)) abbreviations = true ->
  forallb (fun e => negb (has_word (js (fst e)) o)) abbreviations = true.
Proof.
  intros s o K H. pose proof abbreviations_word_chars as A.
  rewrite forallb_forall in H, A |- *. intros e He.
  specialize (H e He). specialize (A e He).
  apply andb_prop in A. destruct A as [A1 A2].
  apply negb_true_iff in H. apply negb_true_iff.
  apply K; [exact A2| |exact H].
  intros N. rewrite N in A1. discriminate A1.
Qed.

Lemma squeeze_plain : forall q s o,
  (forall b, q b = true -> toUpperAscii b = b) ->
  (forall b, q b = true -> isWordChar b = false) ->
  (forall b, q b = true -> plain_char b = true) ->
  forallb (fun w => forallb (fun c => negb (q (toUpperAscii c))) w)
          (List.concat triggers) = true ->
  squeeze q s o -> plain s = true -> plain o = true.
Proof.
  intros q s o Qf Qw Qp Qt Sq H. apply plain_inv in H.
  destruct H as (H1 & H2 & H3). apply plain_intro.
  - rewrite forallb_forall in H1 |- *. intros c Hc.
    destruct (@squeeze_in q s o c Sq Hc) as [Hs|Hq]; auto.
  - apply (@untriggered_keep s o); [|exact H2]. intros w Hw N.
    rewrite forallb_forall in Qt.
    apply (@squeeze_occurs q Qf s o Sq w (Qt w Hw)); [|exact N].
    apply trigger_not_nil. exact Hw.
  - apply (@abbreviations_keep s o); [|exact H3]. intros w Hw Hne N.
    apply (@squeeze_has_word q Qf Qw s o w Sq Hw Hne N).
Qed.

Lemma trim_plain : forall s, plain s = true -> plain (trim s) = true.
Proof.
  intros s H. apply plain_inv in H. destruct H as (H1 & H2 & H3).
  apply plain_intro.
  - apply trim_forallb. exact H1.
  - apply (@untriggered_keep s (trim s)); [|exact H2]. intros w _ N.
    apply trim_occurs. exact N.
  - apply (@abbreviations_keep s (trim s)); [|exact H3]. intros w _ _ N.
    apply trim_has_word. exact N.
Qed.

Lemma line_drop_plain : forall b s o,
  line_drop b s o -> plain s = true -> plain o = true.
Proof.
  intros b s o D H. apply plain_inv in H. destruct H as (H1 & H2 & H3).
  apply plain_intro.
  - rewrite forallb_forall in H1 |- *. intros c Hc. apply H1.
    apply (@line_drop_in b s o c D Hc).
  - apply (@untriggered_keep s o); [|exact H2]. intros w Hw N.
    apply (@line_cut_occurs s o (@line_drop_cut b s o D) w); [| |exact N].
    + cbn in Hw.
      repeat (destruct Hw as [Hw|Hw]; [subst w; reflexivity|]).
      destruct Hw.
    + apply trigger_not_nil. exact Hw.
  - apply (@abbreviations_keep s o); [|exact H3]. intros w Hw Hne N.
    apply (@drop_has_word b s o w D Hw Hne N).
Qed.

(** The squeeze of one mark. *)
Lemma mark_squeeze_plain : forall c s o,
  toUpperAscii c = c -> isWordChar c = false -> plain_char c = true ->
  forallb (fun w => forallb (fun x => negb (toUpperAscii x =? c)%N) w)
          (List.concat triggers) = true ->
  squeeze (atom_match noflags (AClass false [CChar c])) s o ->
  plain s = true -> plain o = true.
Proof.
  intros c s o Uc Wc Pc Tc Sq H.
  apply (@squeeze_plain (atom_match noflags (AClass false [CChar c])) s o);
    auto.
  - intros b Hb. apply one_char in Hb. congruence.
  - intros b Hb. apply one_char in Hb. congruence.
  - intros b Hb. apply one_char in Hb. congruence.
  - rewrite forallb_forall in Tc |- *. intros w Hw. specialize (Tc w Hw).
    rewrite forallb_forall in Tc |- *. intros x Hx. specialize (Tc x Hx).
    cbn [atom_match existsb item_match xorb]. unfold canon.
    cbn [ignoreCase noflags]. rewrite orb_false_r. exact Tc.
Qed.

Lemma mark_squeeze_occurs : forall c s o w,
  toUpperAscii c = c ->
  forallb (fun x => negb (toUpperAscii x =? c)%N) w = true -> w <> [] ->
  squeeze (atom_match noflags (AClass false [CChar c])) s o ->
  occurs_ci w s = false -> occurs_ci w o = false.
Proof.
  intros c s o w Uc Hw Hne Sq H.
  apply (@squeeze_occurs (atom_match noflags (AClass false [CChar c])))
    with (s := s); auto.
  - intros b Hb. apply one_char in Hb. congruence.
  - rewrite forallb_forall in Hw |- *. intros x Hx. specialize (Hw x Hx).
    cbn [atom_match existsb item_match xorb]. unfold canon.
    cbn [ignoreCase noflags]. rewrite orb_false_r. exact Hw.
Qed.

Lemma space_squeeze_plain : forall s o,
  squeeze (atom_match noflags space) s o ->
  plain s = true -> plain o = true.
Proof.
  intros s o Sq H.
  apply (@squeeze_plain (atom_match noflags space) s o); auto.
  - intros b Hb. apply space_fixed, space_char, Hb.
  - intros b Hb. apply space_nonword, space_char, Hb.
  - intros b Hb. apply space_plain, space_char, Hb.
Qed.

Lemma space_squeeze_occurs : forall s o w,
  forallb (fun x => negb (isSpace (toUpperAscii x))) w = true -> w <> [] ->
  squeeze (atom_match noflags space) s o ->
  occurs_ci w s = false -> occurs_ci w o = false.
Proof.
  intros s o w Hw Hne Sq H.
  apply (@squeeze_occurs (atom_match noflags space)) with (s := s); auto.
  - intros b Hb. apply space_fixed, space_char, Hb.
  - rewrite forallb_forall in Hw |- *. intros x Hx. specialize (Hw x Hx).
    cbn [atom_match space existsb item_match xorb].
    rewrite orb_false_r. exact Hw.
Qed.

(** *** [removeThinkTags] *)

Lemma phrases_untriggered : forall v,
  untriggered v = true ->
  replace fl_im okay_let_me del v = v
  /\ replace fl_im i_need_to del v = v
  /\ replace fl_im first_then del v = v.
Proof.
  intros v H. unfold untriggered in H. cbn [forallb triggers existsb] in H.
  apply andb_prop in H. destruct H as [H1 H].
  apply andb_prop in H. destruct H as [H2 H].
  apply andb_prop in H. destruct H as [H3 _].
  rewrite orb_false_r in H1, H2, H3.
  apply negb_true_iff in H2.
  split; [|split].
  - apply orb_prop in H1. destruct H1 as [N|N]; apply negb_true_iff in N.
    + apply (@replace_needs_word fl_im (js "Okay,") okay_let_me del v
               eq_refl eq_refl eq_refl N).
    + apply (@replace_needs_word fl_im (js "Let") okay_let_me del v
               eq_refl eq_refl eq_refl N).
  - apply (@replace_needs_word fl_im (js "need") i_need_to del v
             eq_refl eq_refl eq_refl H2).
  - apply orb_prop in H3. destruct H3 as [N|N]; apply negb_true_iff in N.
    + apply (@replace_needs_word fl_im (js "First,") first_then del v
               eq_refl eq_refl eq_refl N).
    + apply (@replace_needs_word fl_im (js "Then,") first_then del v
               eq_refl eq_refl eq_refl N).
Qed.

(** Without the word there is nothing to remove. *)
Lemma removeThinkTags_plain : forall v,
  plain v = true -> occurs_ci THINK v = false ->
  removeThinkTags v = v.
Proof.
  intros v P T. destruct (plain_inv _ P) as (H & Tr & _).
  destruct (phrases_untriggered _ Tr) as (E1 & E2 & E3).
  unfold removeThinkTags. destruct (isEmpty v); [reflexivity|].
  cbn [fold_left thinkPatterns fst snd].
  do 4 pass_by (@outside_plain) v H.
  do 2 word_pass_by (@replace_needs_word) THINK v T.
  rewrite E1, E2, E3. reflexivity.
Qed.

(** On plain text the stage drops the lines that hold the word, and
    nothing else. *)
Lemma removeThinkTags_drops : forall x,
  plain x = true ->
  plain (removeThinkTags x) = true
  /\ occurs_ci THINK (removeThinkTags x) = false
  /\ List.length (removeThinkTags x) <= List.length x.
Proof.
  intros x P. split; [|split; [apply removeThinkTags_clean|]].
  - unfold removeThinkTags. destruct (isEmpty x); [exact P|].
    cbn [fold_left thinkPatterns fst snd].
    do 4 pass_by (@outside_plain) x (@plain_chars x P).
    set (l1 := replace fl_im think_line_start del x).
    set (l2 := replace fl_im line_with_think del l1).
    assert (P1 : plain l1 = true)
      by (apply (@line_drop_plain true x l1 (think_line_start_drop x) P)).
    assert (P2 : plain l2 = true)
      by (apply (@line_drop_plain true l1 l2 (line_with_think_drop l1) P1)).
    destruct (plain_inv _ P2) as (_ & Tr & _).
    destruct (phrases_untriggered _ Tr) as (E1 & E2 & E3).
    rewrite E1, E2, E3. exact P2.
  - unfold removeThinkTags. destruct (isEmpty x); [lia|].
    cbn [fold_left thinkPatterns fst snd].
    do 4 pass_by (@outside_plain) x (@plain_chars x P).
    set (l1 := replace fl_im think_line_start del x).
    set (l2 := replace fl_im line_with_think del l1).
    assert (P1 : plain l1 = true)
      by (apply (@line_drop_plain true x l1 (think_line_start_drop x) P)).
    assert (P2 : plain l2 = true)
      by (apply (@line_drop_plain true l1 l2 (line_with_think_drop l1) P1)).
    destruct (plain_inv _ P2) as (_ & Tr & _).
    destruct (phrases_untriggered _ Tr) as (E1 & E2 & E3).
    rewrite E1, E2, E3.
    pose proof (line_drop_length (think_line_start_drop x)).
    pose proof (line_drop_length (line_with_think_drop l1)).
    fold l1 in H. fold l2 in H0. lia.
Qed.

(** *** [normalizePunctuation] *)

Lemma normalizePunctuation_plain : forall x,
  plain x = true ->
  plain (normalizePunctuation x) = true
  /\ calm (normalizePunctuation x) = true
  /\ List.length (normalizePunctuation x) <= List.length x
  /\ (occurs_ci THINK x = false ->
      occurs_ci THINK (normalizePunctuation x) = false).
Proof.
  intros x H. unfold normalizePunctuation.
  set (B := replace noflags (at_least 2 (one_of "!")) [RText (js "!")] x).
  set (Q := replace noflags (at_least 2 (one_of "?")) [RText (js "?")] B).
  set (D := replace noflags (at_least 3 (one_of ".")) [RText (js "...")] Q).
  assert (SB : squeeze (atom_match noflags (one_of "!")) x B).
  { apply rep_squeeze; [reflexivity|discriminate|reflexivity|cbn; lia]. }
  assert (SQ : squeeze (atom_match noflags (one_of "?")) B Q).
  { apply rep_squeeze; [reflexivity|discriminate|reflexivity|cbn; lia]. }
  assert (SD : squeeze (atom_match noflags (one_of ".")) Q D).
  { apply rep_squeeze; [reflexivity|discriminate|reflexivity|cbn; lia]. }
  assert (PB : plain B = true).
  { apply (@mark_squeeze_plain 33%N x B); auto. }
  assert (PQ : plain Q = true).
  { apply (@mark_squeeze_plain 63%N B Q); auto. }
  assert (PD : plain D = true).
  { apply (@mark_squeeze_plain 46%N Q D); auto. }
  assert (CB : occurs_ci (js "!!") B = false).
  { apply (@collapse_clean noflags (one_of "!") 2 (js "!") (js "!!"));
      [reflexivity|lia| |cbn; lia|cbn; lia].
    apply (@run_sep noflags (one_of "!") 33%N 2); reflexivity. }
  assert (CQ : occurs_ci (js "??") Q = false).
  { apply (@collapse_clean noflags (one_of "?") 2 (js "?") (js "??"));
      [reflexivity|lia| |cbn; lia|cbn; lia].
    apply (@run_sep noflags (one_of "?") 63%N 2); reflexivity. }
  assert (CD : occurs_ci (js "....") D = false).
  { apply (@collapse_clean noflags (one_of ".") 3 (js "...") (js "...."));
      [reflexivity|lia| |cbn; lia|cbn; lia].
    apply (@run_sep noflags (one_of ".") 46%N 4); reflexivity. }
  assert (F : fold_left
                (fun normalized e =>
                   replace fl_i
                     (seq [WordBoundary; Lit (js (fst e)); WordBoundary])
                     [RText (js (snd e))] normalized)
                abbreviations D = D).
  { apply abbreviations_fold; [reflexivity|].
    apply plain_inv in PD. tauto. }
  rewrite F. split; [exact PD|]. split.
  - unfold calm. cbn [forallb]. rewrite CD.
    rewrite (@mark_squeeze_occurs 46%N Q D (js "??") eq_refl eq_refl
               ltac:(discriminate) SD CQ).
    rewrite (@mark_squeeze_occurs 46%N Q D (js "!!") eq_refl eq_refl
               ltac:(discriminate) SD
               (@mark_squeeze_occurs 63%N B Q (js "!!") eq_refl eq_refl
                  ltac:(discriminate) SQ CB)).
    reflexivity.
  - split.
    + pose proof (squeeze_length SB). pose proof (squeeze_length SQ).
      pose proof (squeeze_length SD). lia.
    + intros T.
      apply (@mark_squeeze_occurs 46%N Q D THINK eq_refl eq_refl
               ltac:(discriminate) SD).
      apply (@mark_squeeze_occurs 63%N B Q THINK eq_refl eq_refl
               ltac:(discriminate) SQ).
      apply (@mark_squeeze_occurs 33%N x B THINK eq_refl eq_refl
               ltac:(discriminate) SB T).
Qed.

Lemma normalizePunctuation_fixed : forall v,
  plain v = true -> calm v = true -> normalizePunctuation v = v.
Proof.
  intros v H C. unfold calm in C. cbn [forallb] in C.
  apply andb_prop in C. destruct C as [C1 C].
  apply andb_prop in C. destruct C as [C2 C].
  apply andb_prop in C. destruct C as [C3 _].
  apply negb_true_iff in C1, C2, C3.
  unfold normalizePunctuation.
  assert (B : replace noflags (at_least 2 (one_of "!")) [RText (js "!")] v
              = v).
  { apply (@run_no_match noflags (one_of "!") 33%N v eq_refl); [|exact C1].
    intros x _ Hx. apply one_char in Hx. exact Hx. }
  rewrite B.
  assert (Q : replace noflags (at_least 2 (one_of "?")) [RText (js "?")] v
              = v).
  { apply (@run_no_match noflags (one_of "?") 63%N v eq_refl); [|exact C2].
    intros x _ Hx. apply one_char in Hx. exact Hx. }
  rewrite Q.
  assert (D : replace noflags (at_least 3 (one_of ".")) [RText (js "...")] v
              = v).
  { apply (@run_self noflags (one_of ".") 46%N v eq_refl);
      [|lia|exact C3].
    intros x _ Hx. apply one_char in Hx. exact Hx. }
  rewrite D.
  apply abbreviations_fold; [reflexivity|].
  apply plain_inv in H. tauto.
Qed.

(** *** [cleanupText] *)

Lemma spaces_single : forall z,
  single_spaced (replace noflags (plus space) [RText (js " ")] z) = true.
Proof.
  intros z. unfold single_spaced. apply andb_true_intro. split.
  - apply forallb_forall. intros c Hc.
    destruct (isSpace c) eqn:E; [|reflexivity]. cbn [negb orb].
    apply (@plus_chars noflags space (js " ") eq_refl z c) in Hc.
    + destruct Hc as [ <- |[]]. reflexivity.
    + cbn [atom_match space existsb item_match xorb].
      rewrite E. reflexivity.
  - apply negb_true_iff.
    apply (@collapse_clean noflags space 1 (js " ") (js "  "));
      [reflexivity|lia| |cbn; lia|cbn; lia].
    apply (@run_sep noflags space 32%N 2); reflexivity.
Qed.

Lemma single_spaced_space : forall v x,
  single_spaced v = true -> In x v -> isSpace x = true -> x = 32%N.
Proof.
  intros v x H Hx S. unfold single_spaced in H. apply andb_prop in H.
  destruct H as [H _]. rewrite forallb_forall in H. specialize (H x Hx).
  rewrite S in H. cbn [negb orb] in H. apply N.eqb_eq in H. exact H.
Qed.

Lemma spaces_fixed : forall v,
  single_spaced v = true ->
  replace noflags (plus space) [RText (js " ")] v = v.
Proof.
  intros v H.
  apply (@run_self noflags space 32%N v eq_refl); [|lia|].
  - intros x Hx S. apply (@single_spaced_space v x H Hx).
    apply space_char. exact S.
  - unfold single_spaced in H. apply andb_prop in H. destruct H as [_ H].
    apply negb_true_iff in H. exact H.
Qed.

Lemma not_lf_upper : forall c,
  negb (c =? LF)%N = true -> negb (toUpperAscii c =? LF)%N = true.
Proof.
  intros c H. unfold toUpperAscii.
  destruct (in_range 97 122 c) eqn:R; [|exact H].
  unfold in_range in R. apply andb_prop in R. destruct R as [R1 R2].
  apply N.leb_le in R1, R2. apply negb_true_iff. apply N.eqb_neq.
  unfold LF. lia.
Qed.

Lemma cleanupText_plain : forall z,
  forallb plain_char z = true ->
  cleanupText z = replace noflags (plus space) [RText (js " ")] z.
Proof.
  intros z H. unfold cleanupText.
  set (u := replace noflags (plus space) [RText (js " ")] z).
  assert (Hs : single_spaced u = true) by apply spaces_single.
  assert (Hu : forallb plain_char u = true).
  { assert (Sq : squeeze (atom_match noflags space) z u).
    { apply rep_squeeze; [reflexivity|discriminate|reflexivity|cbn; lia]. }
    rewrite forallb_forall in H |- *. intros c Hc.
    destruct (@squeeze_in _ z u c Sq Hc) as [Hz|Hq]; [auto|].
    apply space_plain, space_char, Hq. }
  assert (W2 : replace noflags (plus (AChar LF)) [RText (js " ")] u = u).
  { apply (@replace_needs_outside (fun c => negb (c =? LF)%N) not_lf_upper
             noflags (plus (AChar LF)) [RText (js " ")] u
             eq_refl eq_refl eq_refl).
    apply forallb_forall. intros c Hc. apply negb_true_iff.
    apply N.eqb_neq. intros ->.
    pose proof (@single_spaced_space u LF Hs Hc eq_refl) as E.
    discriminate E. }
  rewrite W2. do 4 pass_by (@outside_plain) u Hu.
  apply (@run_no_match noflags space 32%N u eq_refl).
  - intros x Hx S. apply (@single_spaced_space u x Hs Hx).
    apply space_char. exact S.
  - unfold single_spaced in Hs. apply andb_prop in Hs.
    destruct Hs as [_ Hs]. apply negb_true_iff in Hs. exact Hs.
Qed.

(** *** The whole pass *)

Lemma when_fixed : forall b f s, f s = s -> when b f s = s.
Proof. intros b f s H. unfold when. destruct b; auto. Qed.

Lemma limitLength_fits : forall v n,
  (len v <=? n)%Z = true -> limitLength v n = v.
Proof. intros v n H. unfold limitLength. rewrite H. reflexivity. Qed.

Lemma think_stage : forall b x,
  plain x = true ->
  plain (when b removeThinkTags x) = true
  /\ List.length (when b removeThinkTags x) <= List.length x
  /\ (b = true -> occurs_ci THINK (when b removeThinkTags x) = false).
Proof.
  intros b x P. unfold when. destruct b.
  - destruct (@removeThinkTags_drops x P) as (P' & T & L). tauto.
  - split; [exact P|]. split; [lia|discriminate].
Qed.

Lemma punctuation_stage : forall b x,
  plain x = true ->
  plain (when b normalizePunctuation x) = true
  /\ List.length (when b normalizePunctuation x) <= List.length x
  /\ (b = true -> calm (when b normalizePunctuation x) = true)
  /\ (occurs_ci THINK x = false ->
      occurs_ci THINK (when b normalizePunctuation x) = false).
Proof.
  intros b x P. unfold when. destruct b.
  - destruct (@normalizePunctuation_plain x P) as (P' & C & L & T). tauto.
  - split; [exact P|]. split; [lia|]. split; [discriminate|tauto].
Qed.

Lemma spaces_squeeze : forall z,
  squeeze (atom_match noflags space) z
          (replace noflags (plus space) [RText (js " ")] z).
Proof.
  intros z. apply rep_squeeze; [reflexivity|discriminate|reflexivity|].
  cbn. lia.
Qed.

(** On plain text within the limit a pass drops the lines that hold
    the word "think", shortens the runs of marks, turns each run of
    whitespace into one space and trims. *)
Lemma formatForVoice_plain : forall config x,
  plain x = true ->
  (forall n, truthy_length (Config.maxLength config) = Some n ->
             (len x <= n)%Z) ->
  formatForVoice config x
  = trim (replace noflags (plus space) [RText (js " ")]
            (when (Config.normalizePunctuation config) normalizePunctuation
               (when (Config.removeThinkTags config) removeThinkTags x))).
Proof.
  intros config x H L. unfold formatForVoice.
  set (x' := when (Config.removeThinkTags config) removeThinkTags x).
  destruct (@think_stage (Config.removeThinkTags config) x H)
    as (P' & L' & _).
  fold x' in P', L'.
  pose proof (@plain_chars x' P') as Hc.
  rewrite (@when_fixed _ _ _ (@removeMarkdown_plain x' Hc)).
  rewrite (@when_fixed _ _ _ (@removeEmoticons_plain x' Hc)).
  rewrite (@when_fixed _ _ _ (@normalizeNumbers_plain x' Hc)).
  set (z := when (Config.normalizePunctuation config)
                 normalizePunctuation x').
  destruct (@punctuation_stage (Config.normalizePunctuation config) x' P')
    as (Pz & Lz & _).
  fold z in Pz, Lz.
  rewrite (@cleanupText_plain z (@plain_chars z Pz)).
  destruct (truthy_length (Config.maxLength config)) as [n|] eqn:T;
    [|reflexivity].
  rewrite limitLength_fits; [reflexivity|].
  apply Z.leb_le. specialize (L n eq_refl).
  pose proof (squeeze_length (spaces_squeeze z)) as Lu.
  unfold len in *. lia.
Qed.

(** Text that a pass has nothing left to do on. *)
Lemma formatForVoice_settled : forall config y,
  plain y = true -> single_spaced y = true ->
  (Config.removeThinkTags config = true -> occurs_ci THINK y = false) ->
  (Config.normalizePunctuation config = true -> calm y = true) ->
  trim y = y ->
  (forall n, truthy_length (Config.maxLength config) = Some n ->
             (len y <= n)%Z) ->
  formatForVoice config y = y.
Proof.
  intros config y H S K C T L. rewrite (@formatForVoice_plain config y H L).
  assert (E1 : when (Config.removeThinkTags config) removeThinkTags y = y).
  { unfold when. destruct (Config.removeThinkTags config); [|reflexivity].
    apply removeThinkTags_plain; auto. }
  rewrite E1.
  assert (E2 : when (Config.normalizePunctuation config)
                    normalizePunctuation y = y).
  { unfold when. destruct (Config.normalizePunctuation config);
      [|reflexivity].
    apply normalizePunctuation_fixed; auto. }
  rewrite E2, (@spaces_fixed y S). exact T.
Qed.

Lemma trim_single_spaced : forall s,
  single_spaced s = true -> single_spaced (trim s) = true.
Proof.
  intros s H. unfold single_spaced in *. apply andb_prop in H.
  destruct H as [H1 H2]. apply negb_true_iff in H2.
  rewrite (@trim_forallb _ s H1), (@trim_occurs _ s H2). reflexivity.
Qed.

Lemma trim_calm : forall s, calm s = true -> calm (trim s) = true.
Proof.
  intros s H. unfold calm in *. rewrite forallb_forall in H |- *.
  intros w Hw. specialize (H w Hw). apply negb_true_iff in H.
  apply negb_true_iff. apply trim_occurs. exact H.
Qed.

Lemma spaces_calm : forall z,
  calm z = true ->
  calm (replace noflags (plus space) [RText (js " ")] z) = true.
Proof.
  intros z H. pose proof (spaces_squeeze z) as Sq.
  unfold calm in *. cbn [forallb] in *.
  apply andb_prop in H. destruct H as [C1 C].
  apply andb_prop in C. destruct C as [C2 C].
  apply andb_prop in C. destruct C as [C3 _].
  apply negb_true_iff in C1, C2, C3.
  rewrite (@space_squeeze_occurs _ _ (js "!!") eq_refl
             ltac:(discriminate) Sq C1).
  rewrite (@space_squeeze_occurs _ _ (js "??") eq_refl
             ltac:(discriminate) Sq C2).
  rewrite (@space_squeeze_occurs _ _ (js "....") eq_refl
             ltac:(discriminate) Sq C3).
  reflexivity.
Qed.
End PlainFacts.

(** ** Idempotence *)

Module IdempotenceProps.
Import JS Regex RegexSem VoiceFormatter Notions Spec Plain.
Import SqueezeFacts CollapseFacts PlainFacts.

(** C7, as amended.  On plain text the sanitizer is idempotent.  For
    every input made only of ASCII letters, whitespace, the marks
    [. , ! ?] and code units beyond ASCII other than surrogates and the
    symbols U+2600 to U+27BF, in which no reasoning phrase can form
    (not both "Okay," and "Let", no "need", not both "First," and
    "Then,", in any letter case), which holds none of the
    abbreviations as a word and is no longer than the length limit
    where one is set, formatting the formatted text again returns it
    unchanged, under every configuration. *)
Theorem formatForVoice_idempotent_on_plain : forall config x,
  plain x = true -> fits config x ->
  formatForVoice config (formatForVoice config x)
  = formatForVoice config x.
Proof.
  intros config x H F.
  assert (L : forall n, truthy_length (Config.maxLength config) = Some n ->
                        (len x <= n)%Z).
  { intros n T. unfold fits in F. rewrite T in F. exact F. }
  clear F. rewrite (@formatForVoice_plain config x H L).
  set (x' := when (Config.removeThinkTags config) removeThinkTags x).
  destruct (@think_stage (Config.removeThinkTags config) x H)
    as (Px & Lx & Tx).
  fold x' in Px, Lx, Tx.
  set (z := when (Config.normalizePunctuation config)
                 normalizePunctuation x').
  destruct (@punctuation_stage (Config.normalizePunctuation config) x' Px)
    as (Pz & Lz & Cz & Tz).
  fold z in Pz, Lz, Cz, Tz.
  set (u := replace noflags (plus space) [RText (js " ")] z).
  pose proof (spaces_squeeze z) as Sq. fold u in Sq.
  apply formatForVoice_settled.
  - apply trim_plain. apply (@space_squeeze_plain z u Sq Pz).
  - apply trim_single_spaced. apply spaces_single.
  - intros N. apply trim_occurs.
    apply (@space_squeeze_occurs z u THINK eq_refl ltac:(discriminate) Sq).
    apply Tz. apply Tx. exact N.
  - intros N. apply trim_calm. apply spaces_calm. apply Cz. exact N.
  - apply trim_idem.
  - intros n T. specialize (L n T).
    pose proof (trim_no_longer u) as L1.
    pose proof (squeeze_length Sq) as L2. unfold len in *. lia.
Qed.

Lemma formatForVoice_idempotent_on_plain_witness :
  formatForVoice DEFAULT_VOICE_CONFIG
    (js "Halo!!   apa" ++ LF :: js "I think so" ++ LF :: js "kabar....")
  = js "Halo! apa kabar..."
  /\ formatForVoice DEFAULT_VOICE_CONFIG
       (formatForVoice DEFAULT_VOICE_CONFIG
          (js "Halo!!   apa" ++ LF :: js "I think so" ++ LF
              :: js "kabar...."))
     = formatForVoice DEFAULT_VOICE_CONFIG
         (js "Halo!!   apa" ++ LF :: js "I think so" ++ LF
             :: js "kabar....").
Proof.
  split; [vm_compute; reflexivity|].
  apply (formatForVoice_idempotent_on_plain
           DEFAULT_VOICE_CONFIG
           (js "Halo!!   apa" ++ LF :: js "I think so" ++ LF
               :: js "kabar....")).
  - vm_compute. reflexivity.
  - vm_compute. discriminate.
Defined.

(** Each restriction answers an input that no removal stage touches
    and that the second pass still changes.  With a digit, trimming
    can bring a list marker to the start of the text and cleanup can
    bring a currency sign next to its amount; cleanup can join the
    words of a reasoning phrase that stood on two lines or two spaces
    apart; an abbreviation can grow past the limit when it is spelled
    out; a text past the limit is cut again. *)
Lemma formatForVoice_second_pass_changes :
  let f := formatForVoice DEFAULT_VOICE_CONFIG in
  let g n := formatForVoice
               (Config.mk true true true true true (Some n) false) in
  let untouched x :=
    removeThinkTags x = x /\ removeMarkdown x = x
    /\ removeEmoticons x = x in
  (untouched (js " 1. Halo")
   /\ f (f (js " 1. Halo")) <> f (js " 1. Halo"))
  /\ (untouched (js "Rp  5")
      /\ f (f (js "Rp  5")) <> f (js "Rp  5"))
  /\ (untouched (js "I  need to go")
      /\ f (f (js "I  need to go")) <> f (js "I  need to go"))
  /\ (untouched (js "Okay," ++ LF :: js "Let me go")
      /\ f (f (js "Okay," ++ LF :: js "Let me go"))
         <> f (js "Okay," ++ LF :: js "Let me go"))
  /\ (untouched (js "First," ++ LF :: js "Then, go")
      /\ f (f (js "First," ++ LF :: js "Then, go"))
         <> f (js "First," ++ LF :: js "Then, go"))
  /\ (untouched (js "yg ab c")
      /\ fits (Config.mk true true true true true (Some 7%Z) false)
              (js "yg ab c")
      /\ g 7%Z (g 7%Z (js "yg ab c")) <> g 7%Z (js "yg ab c"))
  /\ (untouched (js "ab cd ef")
      /\ plain (js "ab cd ef") = true
      /\ g 5%Z (g 5%Z (js "ab cd ef")) <> g 5%Z (js "ab cd ef")).
Proof.
  vm_compute. repeat split; try reflexivity; discriminate.
Qed.
End IdempotenceProps.
